(** * HelloGo: a verification development for [hello.go]

  The file [hello.go] is a tour of Go: arithmetic, closures, error values,
  goroutines and channels.  This development embeds the functions the
  specification talks about and proves what they do.

  - [GoInt]: Go's [int] on a 64-bit platform, as [Z] with the wrap-around
    of [+], [-] and [*] written out.
  - [Errors]: [functionWithDefaultError] and [functionWithCustomError].
  - [Factorial]: [recursiveFunction], with the recursion depth as fuel.
  - [Closures]: [closureReturner] over a heap of captured variables.
  - [CallGraph]: the top-level functions of the file and who calls whom,
    with the body of [main]; [Hello]: what [main] writes.
  - [ClosingChannels]: [testClosingChannels] as an interleaving of the
    producer (the function body) and the consumer goroutine;
    [BodyLines]: the lines of its body.
  - [Functions]: [addStuff], [moreAdding], the variadic sum, the methods
    of [dog], [somethingToRun].
  - [Channels]: channels used by one goroutine, [ping], [pong],
    [testChannelDirections], [showRangeWithChannels].
  - [SyncWorker]: [worker] and [testSyncWithWorker].
  - [GoRoutines]: [testGoRoutines] as an interleaving of three threads.
  - [Select]: [testSelect] as an interleaving of the body and its two
    goroutines over a clock.
  - [Files]: [createFile], [writeFile], [closeFile], [testFinally] and
    [showPanic] over the answers of the operating system.
  - [ErrorText]: the [Error] method of [customError].
  - [Structs]: [person], [NewPersonConstructor], [testStructs]. *)

From Stdlib Require Import ZArith List Lia String Ascii Bool.
From Stdlib Require DecimalString DecimalZ DecimalPos DecimalFacts.
From stdpp Require Import base option list list_numbers gmap strings.

Local Open Scope Z_scope.

(* ===================================================================== *)
(** ** Go's [int] *)
(* ===================================================================== *)

Module GoInt.

(** [int] is 64 bits wide on the 64-bit platforms Go targets. *)
Definition int_bits : Z := 64.
Definition modulus : Z := 2 ^ int_bits.
Definition half : Z := 2 ^ (int_bits - 1).
Definition min_int : Z := - half.
Definition max_int : Z := half - 1.

Definition is_int (z : Z) : Prop := min_int <= z <= max_int.

(** Signed overflow wraps around in Go: the result is reduced modulo
    [2^64] into the range [min_int .. max_int]. *)
Definition wrap (z : Z) : Z := (z + half) mod modulus - half.

Definition int_add (a b : Z) : Z := wrap (a + b).
Definition int_sub (a b : Z) : Z := wrap (a - b).
Definition int_mul (a b : Z) : Z := wrap (a * b).

End GoInt.

(* ===================================================================== *)
(** ** Error values: [functionWithDefaultError], [functionWithCustomError] *)
(* ===================================================================== *)

Module Errors.
Import GoInt.

(** [type customError struct { arg int; prob string }] *)
Record customError : Type := mkCustomError { arg : Z; prob : string }.

(** The dynamic types an [error] interface value has in this file:
    the value of [errors.New] and a pointer to a [customError].  The nil interface
    is [None] of [option error]. *)
Inductive error : Type :=
| errorString (s : string)
| customErrorPtr (e : customError).

Definition is_customError (e : option error) : bool :=
  match e with
  | Some (customErrorPtr _) => true
  | _ => false
  end.

Definition functionWithDefaultError (arg : Z) : Z * option error :=
  if arg =? 13 then (-1, Some (errorString "unlucky number detected"))
  else (int_add arg 1, None).

Definition functionWithCustomError (arg : Z) : Z * option error :=
  if arg =? 13
  then (-1, Some (customErrorPtr (mkCustomError arg "just can't do it bro")))
  else (int_add arg 2, None).

(** The type assertion of [testErrors], from [error] to a pointer to
    [customError]. *)
Definition assert_customError (e : option error) : option customError :=
  match e with
  | Some (customErrorPtr c) => Some c
  | _ => None
  end.

End Errors.

(* ===================================================================== *)
(** ** [recursiveFunction] *)
(* ===================================================================== *)

Module Factorial.
Import GoInt.

(** The mathematical factorial, the reference [recursiveFunction] is
    compared with. *)
Fixpoint factorial (n : nat) : Z :=
  match n with
  | O => 1
  | S m => Z.of_nat (S m) * factorial m
  end.

(** [recursiveFunction]; [depth] bounds the number of nested calls
    (the goroutine's stack), [None] means the bound was hit before the
    base case. *)
Fixpoint recursiveFunction (depth : nat) (n : Z) : option Z :=
  match depth with
  | O => None
  | S depth' =>
      if n =? 0 then Some 1
      else match recursiveFunction depth' (int_sub n 1) with
           | Some r => Some (int_mul n r)
           | None => None
           end
  end.

(** The nested calls the recursion makes before it sees [0]: [n + 1]
    from [n >= 0].  From a negative [n] the argument only moves away from
    [0]; it passes [min_int] after [n - min_int + 1] calls, and it takes
    [2^63] more to come down from [max_int]. *)
Definition frames_needed (n : Z) : Z :=
  if 0 <=? n then n + 1 else n + modulus + 1.

End Factorial.

(* ===================================================================== *)
(** ** Closures: [closureReturner] *)
(* ===================================================================== *)

Module Closures.
Import GoInt.

(** The variable [i] of [closureReturner] is captured by reference and
    outlives the call, so it lives on the heap: a finite map from
    addresses to [int] cells. *)
Definition loc : Type := nat.

(** A closure value is the code of the function literal together with
    the address of the [i] it captured. *)
Record closure : Type := mkClosure { captured_i : loc }.

(** [i := 0; return func() int { ... }]: a fresh cell for [i]. *)
Definition closureReturner (h : gmap loc Z) : closure * gmap loc Z :=
  let l := fresh (dom h) in
  (mkClosure l, <[l := 0]> h).

(** Calling the closure: [i++; return i]. *)
Definition invoke (c : closure) (h : gmap loc Z) : Z * gmap loc Z :=
  let i' := int_add (h !!! captured_i c) 1 in
  (i', <[captured_i c := i']> h).

(** The heap after [k] calls of [c] in a row. *)
Definition invoke_times (k : N) (c : closure) (h : gmap loc Z) : gmap loc Z :=
  N.iter k (fun h' => snd (invoke c h')) h.

(** The value the [k]-th call of [c] returns ([k >= 1]), when the calls
    start in heap [h]. *)
Definition kth_call (k : N) (c : closure) (h : gmap loc Z) : Z :=
  fst (invoke c (invoke_times (N.pred k) c h)).

(** [closureTester], with the four printed values as its result. *)
Definition closureTester (h : gmap loc Z) : list Z * gmap loc Z :=
  let '(nextInt, h) := closureReturner h in
  let '(a, h) := invoke nextInt h in
  let '(b, h) := invoke nextInt h in
  let '(c, h) := invoke nextInt h in
  let '(differentInts, h) := closureReturner h in
  let '(d, h) := invoke differentInts h in
  ([a; b; c; d], h).

(** Arbitrary client code: any sequence of calls to [closureReturner]
    and of calls of the closures obtained so far ([Invoke n] calls the
    [n]-th closure obtained, counting from 0). *)
Inductive action : Type :=
| NewClosure
| Invoke (n : nat).

Record world : Type := mkWorld { w_heap : gmap loc Z; w_closures : list closure }.

Definition perform (a : action) (w : world) : option Z * world :=
  match a with
  | NewClosure =>
      let '(c, h) := closureReturner (w_heap w) in
      (None, mkWorld h (w_closures w ++ [c]))
  | Invoke n =>
      match w_closures w !! n with
      | Some c =>
          let '(v, h) := invoke c (w_heap w) in
          (Some v, mkWorld h (w_closures w))
      | None => (None, w)
      end
  end.

Fixpoint run (p : list action) (w : world) : list (option Z) * world :=
  match p with
  | [] => ([], w)
  | a :: p' =>
      let '(r, w1) := perform a w in
      let '(rs, w2) := run p' w1 in
      (r :: rs, w2)
  end.

(** How often the closure number [n] is called in [p]. *)
Fixpoint calls_of (n : nat) (p : list action) : nat :=
  match p with
  | [] => O
  | Invoke m :: p' => if Nat.eqb m n then S (calls_of n p') else calls_of n p'
  | NewClosure :: p' => calls_of n p'
  end.

(** How many closures [p] obtains. *)
Fixpoint closures_of (p : list action) : nat :=
  match p with
  | [] => O
  | NewClosure :: p' => S (closures_of p')
  | Invoke _ :: p' => closures_of p'
  end.

(** Client code can call only closures it has obtained: with [have]
    closures at hand, every [Invoke n] in [p] has [n] below the number of
    closures obtained before it. *)
Fixpoint well_formed (have : nat) (p : list action) : bool :=
  match p with
  | [] => true
  | NewClosure :: p' => well_formed (S have) p'
  | Invoke n :: p' => (n <? have)%nat && well_formed have p'
  end.

(** The state the heap and the closures at hand are in after [p]: each
    closure's cell holds the number of its calls (in [int]), and no two
    closures share a cell. *)
Record consistent (p : list action) (w : world) : Prop := mkConsistent {
  cons_length : length (w_closures w) = closures_of p;
  cons_cells : forall n c, w_closures w !! n = Some c ->
      w_heap w !! captured_i c = Some (wrap (Z.of_nat (calls_of n p)));
  cons_apart : forall n m c d, w_closures w !! n = Some c ->
      w_closures w !! m = Some d -> n <> m -> captured_i c <> captured_i d
}.

End Closures.

(* ===================================================================== *)
(** ** The entry point and the call graph of the file *)
(* ===================================================================== *)

Module CallGraph.

(** Every function and method declared at the top level of the file, in
    the order of the file.  Methods carry their receiver type. *)
Inductive func : Type :=
| main
| doSomeLoopingAndConditionals
| arraysAndSlices
| maps
| ranges
| addStuff
| moreAdding
| multipleReturns
| testMultipleReturns
| variadicFunctionForSumming
| testVariadicFunction
| closureReturner
| closureTester
| recursiveFunction
| takesVal
| takesPtr
| testPointers
| NewPersonConstructor
| testStructs
| dog_yearOfBirth
| dog_healthFactor
| testMethodStruct
| rect_area
| rect_perim
| circle_area
| circle_perim
| measure
| testInteraface
| functionWithDefaultError
| customError_Error
| functionWithCustomError
| testErrors
| somethingToRun
| testGoRoutines
| testChannels
| worker
| testSyncWithWorker
| ping
| pong
| testChannelDirections
| testSelect
| testNonBlockingChannelsWithSelect
| testClosingChannels
| showRangeWithChannels
| showPanic
| testFinally
| createFile
| writeFile
| closeFile.

(** What a call expression calls: a function of a package, or a function
    of this file. *)
Inductive callee : Type :=
| Package (pkg name : string)
| Local (f : func).

(** A call statement whose operands are string constants. *)
Record call : Type := mkCall { target : callee; operands : list string }.

(** The body of [main], its one statement:
    [fmt.Printf("hello, world\n")].  The escape [\n] of the Go literal is
    the line feed, character 10. *)
Definition main_body : list call :=
  [mkCall (Package "fmt" "Printf")
     [String.append "hello, world" (String (ascii_of_nat 10) EmptyString)]].

(** The functions of the file among the callees of a body, in the order
    of the call sites. *)
Definition local_callees (body : list call) : list func :=
  flat_map (fun c => match target c with
                     | Local f => [f]
                     | Package _ _ => []
                     end) body.

(** The functions of the file each body calls, in the order of the call
    sites: plain calls, [go] and [defer] statements, method calls (through
    the [geometry] interface: both implementations) and the [Error]
    method that printing an [error] runs.  Calls into packages ([fmt],
    [time], [os], [errors], [math]) leave the file and are not listed.
    For [main] the list is read off its body.  The file has no [init]
    function and no package-level variable. *)
Definition calls (f : func) : list func :=
  match f with
  | main => local_callees main_body
  | testMultipleReturns => [multipleReturns]
  | testVariadicFunction => [variadicFunctionForSumming; variadicFunctionForSumming]
  | closureTester => [closureReturner; closureReturner]
  | recursiveFunction => [recursiveFunction]
  | testPointers => [takesVal; takesPtr]
  | testStructs => [NewPersonConstructor]
  | testMethodStruct => [dog_healthFactor; dog_yearOfBirth; dog_healthFactor; dog_yearOfBirth]
  | measure => [rect_area; circle_area; rect_perim; circle_perim]
  | testInteraface => [measure; measure]
  | testErrors =>
      [functionWithDefaultError; functionWithCustomError; customError_Error;
       functionWithCustomError]
  | testGoRoutines => [somethingToRun; somethingToRun]
  | testSyncWithWorker => [worker]
  | testChannelDirections => [ping; pong]
  | testFinally => [createFile; closeFile; writeFile]
  | _ => []
  end.

(** What an execution that starts in [main] can enter. *)
Inductive reached : func -> Prop :=
| reached_main : reached main
| reached_call f g : reached f -> In g (calls f) -> reached g.

End CallGraph.

Module Hello.
Import CallGraph.

(** Whether a format string has a verb. *)
Fixpoint has_verb (format : string) : bool :=
  match format with
  | EmptyString => false
  | String c rest => Ascii.eqb c "%" || has_verb rest
  end.

(** One statement of [main] run against standard output: [fmt.Printf]
    with a format without verbs and no further operand writes the format
    as it is.  A call into the file, or any other call, is not something
    this reading of [main] can run: [None]. *)
Definition exec_call (c : call) (stdout : string) : option string :=
  match target c, operands c with
  | Package pkg name, [format] =>
      if String.eqb pkg "fmt" && String.eqb name "Printf" && negb (has_verb format)
      then Some (String.append stdout format)
      else None
  | _, _ => None
  end.

Fixpoint exec_body (body : list call) (stdout : string) : option string :=
  match body with
  | [] => Some stdout
  | c :: rest =>
      match exec_call c stdout with
      | Some out => exec_body rest out
      | None => None
      end
  end.

(** [func main()], as what it makes of standard output. *)
Definition main (stdout : string) : option string :=
  exec_body main_body stdout.

(** The bytes of a text. *)
Definition bytes_of (text : string) : list nat :=
  List.map nat_of_ascii (list_ascii_of_string text).

End Hello.

(* ===================================================================== *)
(** ** Channels and [testClosingChannels] *)
(* ===================================================================== *)

Module ClosingChannels.
Import GoInt.

(** A buffered channel of [int]: the queued values, oldest first, and
    whether [close] has been called.  The capacity is fixed when the
    channel is made and is passed to [chan_send]. *)
Record chan : Type := mkChan { buf : list Z; closed : bool }.

Inductive send_result : Type :=
| SendOk (c : chan)
| SendBlocks
| SendPanics.

Inductive recv_result : Type :=
| RecvOk (v : Z) (more : bool) (c : chan)
| RecvBlocks.

(** [c <- v]: panics on a closed channel, waits while the buffer is
    full, otherwise queues [v]. *)
Definition chan_send (capacity : nat) (c : chan) (v : Z) : send_result :=
  if closed c then SendPanics
  else if (length (buf c) <? capacity)%nat
       then SendOk (mkChan (buf c ++ [v]) (closed c))
       else SendBlocks.

(** [v, more := <-c]: the oldest queued value with [more = true]; on an
    empty channel the zero value with [more = false] once the channel is
    closed, and a wait until then. *)
Definition chan_recv (c : chan) : recv_result :=
  match buf c with
  | v :: rest => RecvOk v true (mkChan rest (closed c))
  | [] => if closed c then RecvOk 0 false c else RecvBlocks
  end.

(** [close(c)]: panics ([None]) when the channel is closed already. *)
Definition chan_close (c : chan) : option chan :=
  if closed c then None else Some (mkChan (buf c) true).

(** The lines the function prints. *)
Inductive line : Type :=
| SentJob (j : Z)        (* "sent job j" *)
| SentAll                (* "sent all jobs" *)
| ReceivedJob (j : Z)    (* "received job j" *)
| ReceivedAll            (* "received all jobs" *)
| DoneProcessing.        (* "Done processing jobs" *)

(** Where the body of [testClosingChannels] stands. *)
Inductive main_pc : Type :=
| MGo                    (* at [go func() { ... }()] *)
| MSend (j : Z)          (* at [jobs <- j] *)
| MPrintSent (j : Z)     (* at [fmt.Println("sent job", j)] *)
| MClose                 (* at [close(jobs)] *)
| MPrintSentAll          (* at [fmt.Println("sent all jobs")] *)
| MRecvDone              (* at [<-done] *)
| MPrintDone             (* at [fmt.Println("Done processing jobs")] *)
| MExit                  (* returned *)
| MPanic.                (* a channel operation panicked *)

(** Where the goroutine stands. *)
Inductive cons_pc : Type :=
| CIdle                  (* not started yet *)
| CRecv                  (* at [j, more := <-jobs] *)
| CPrintJob (j : Z)      (* [more] was true: at [fmt.Println("received job", j)] *)
| CPrintAll              (* [more] was false: at [fmt.Println("received all jobs")] *)
| CSendDone              (* at [done <- true] *)
| CReturn.               (* returned *)

Record state : Type := mkState {
  jobs : chan;
  mpc : main_pc;
  cpc : cons_pc;
  out : list line
}.

Inductive tid : Type := Main | Consumer.

Section Program.

(** The function sends the jobs [1 .. njobs] over a channel of capacity
    [capacity]; [testClosingChannels] has [njobs = 3] and [capacity = 5]
    (see [source_njobs] and [source_capacity]). *)
Variable njobs : Z.
Variable capacity : nat.

(** [jobs := make(chan int, capacity); done := make(chan bool)].  The
    channel [done] is unbuffered and carries one value: its hand-off is
    the joint step of [MRecvDone] and [CSendDone]. *)
Definition init : state := mkState (mkChan [] false) MGo CIdle [].

(** The loop head [for j := 1; j <= njobs; j++]. *)
Definition loop_head (j : Z) : main_pc :=
  if j <=? njobs then MSend j else MClose.

Definition exec_main (s : state) : option state :=
  match mpc s with
  | MGo => Some (mkState (jobs s) (loop_head 1) CRecv (out s))
  | MSend j =>
      match chan_send capacity (jobs s) j with
      | SendOk c => Some (mkState c (MPrintSent j) (cpc s) (out s))
      | SendBlocks => None
      | SendPanics => Some (mkState (jobs s) MPanic (cpc s) (out s))
      end
  | MPrintSent j =>
      Some (mkState (jobs s) (loop_head (int_add j 1)) (cpc s) (out s ++ [SentJob j]))
  | MClose =>
      match chan_close (jobs s) with
      | Some c => Some (mkState c MPrintSentAll (cpc s) (out s))
      | None => Some (mkState (jobs s) MPanic (cpc s) (out s))
      end
  | MPrintSentAll => Some (mkState (jobs s) MRecvDone (cpc s) (out s ++ [SentAll]))
  | MRecvDone =>
      match cpc s with
      | CSendDone => Some (mkState (jobs s) MPrintDone CReturn (out s))
      | _ => None
      end
  | MPrintDone => Some (mkState (jobs s) MExit (cpc s) (out s ++ [DoneProcessing]))
  | MExit => None
  | MPanic => None
  end.

Definition exec_consumer (s : state) : option state :=
  match cpc s with
  | CIdle => None
  | CRecv =>
      match chan_recv (jobs s) with
      | RecvOk j true c => Some (mkState c (mpc s) (CPrintJob j) (out s))
      | RecvOk _ false c => Some (mkState c (mpc s) CPrintAll (out s))
      | RecvBlocks => None
      end
  | CPrintJob j => Some (mkState (jobs s) (mpc s) CRecv (out s ++ [ReceivedJob j]))
  | CPrintAll => Some (mkState (jobs s) (mpc s) CSendDone (out s ++ [ReceivedAll]))
  | CSendDone =>
      match mpc s with
      | MRecvDone => Some (mkState (jobs s) MPrintDone CReturn (out s))
      | _ => None
      end
  | CReturn => None
  end.

(** One step of thread [t]; [None] when [t] waits or has finished.  A
    panic stops the whole program. *)
Definition exec (t : tid) (s : state) : option state :=
  match mpc s with
  | MPanic => None
  | _ => match t with
         | Main => exec_main s
         | Consumer => exec_consumer s
         end
  end.

(** The scheduler picks any thread that can move. *)
Definition step (s s' : state) : Prop := exists t, exec t s = Some s'.

Definition reachable (s : state) : Prop := rtc step init s.

(** Running under a given schedule; [None] when the schedule picks a
    thread that cannot move. *)
Fixpoint run_schedule (sch : list tid) (s : state) : option state :=
  match sch with
  | [] => Some s
  | t :: sch' =>
      match exec t s with
      | Some s' => run_schedule sch' s'
      | None => None
      end
  end.

Definition finished (s : state) : Prop := mpc s = MExit /\ cpc s = CReturn.

(** The lines of the goroutine among the printed ones. *)
Definition consumer_line (l : line) : bool :=
  match l with
  | ReceivedJob _ | ReceivedAll => true
  | _ => false
  end.

Definition consumer_lines (o : list line) : list line := List.filter consumer_line o.

(** The jobs the goroutine has received so far: those it has printed,
    and the one it holds in [j] when it is about to print. *)
Definition printed_jobs (o : list line) : list Z :=
  flat_map (fun l => match l with ReceivedJob j => [j] | _ => [] end) o.

Definition received (s : state) : list Z :=
  printed_jobs (out s) ++ match cpc s with CPrintJob j => [j] | _ => [] end.

(** The receive has returned [more = false]. *)
Definition drained (s : state) : bool :=
  match cpc s with
  | CPrintAll | CSendDone | CReturn => true
  | _ => false
  end.

(** The goroutine has printed "received all jobs". *)
Definition said_all (s : state) : bool :=
  match cpc s with
  | CSendDone | CReturn => true
  | _ => false
  end.

(** How many jobs the loop has sent when the body stands at a given
    point, and whether it has closed the channel. *)
Definition sent (pc : main_pc) : Z :=
  match pc with
  | MGo => 0
  | MSend j => j - 1
  | MPrintSent j => j
  | MClose | MPrintSentAll | MRecvDone | MPrintDone | MExit => njobs
  | MPanic => 0
  end.

Definition closed_at (pc : main_pc) : bool :=
  match pc with
  | MPrintSentAll | MRecvDone | MPrintDone | MExit => true
  | _ => false
  end.

(** What holds in every state an execution passes through. *)
Record invariant (s : state) : Prop := mkInvariant {
  inv_no_panic : mpc s <> MPanic;
  inv_range : match mpc s with
              | MSend j | MPrintSent j => 1 <= j <= njobs
              | _ => True
              end;
  inv_fifo : received s ++ buf (jobs s) = seqZ 1 (sent (mpc s));
  inv_closed : closed (jobs s) = closed_at (mpc s);
  inv_lines : consumer_lines (out s)
              = map ReceivedJob (printed_jobs (out s))
                ++ (if said_all s then [ReceivedAll] else []);
  inv_drained : drained s = true -> closed_at (mpc s) = true /\ buf (jobs s) = [];
  inv_idle : cpc s = CIdle <-> mpc s = MGo;
  inv_return : cpc s = CReturn <-> (mpc s = MPrintDone \/ mpc s = MExit)
}.

(** A bound on the steps an execution still has to take: the steps left
    in the body plus the steps left in the goroutine. *)
Definition steps_left_main (pc : main_pc) : Z :=
  match pc with
  | MGo => 2 * njobs + 7
  | MSend j => 2 * (njobs - j) + 6
  | MPrintSent j => 2 * (njobs - j) + 5
  | MClose => 4
  | MPrintSentAll => 3
  | MRecvDone => 2
  | MPrintDone => 1
  | MExit => 0
  | MPanic => 0
  end.

Definition steps_left_consumer (s : state) : Z :=
  match cpc s with
  | CIdle => 2 * njobs + 5
  | CRecv => 2 * (njobs - Z.of_nat (length (received s))) + 4
  | CPrintJob _ => 2 * (njobs - Z.of_nat (length (received s))) + 5
  | CPrintAll => 3
  | CSendDone => 2
  | CReturn => 0
  end.

Definition steps_left (s : state) : Z :=
  steps_left_main (mpc s) + steps_left_consumer s.

End Program.

Definition source_njobs : Z := 3.
Definition source_capacity : nat := 5%nat.

(** Three schedules of [testClosingChannels].  In the first the body
    runs up to [<-done] before the goroutine moves at all.  In the second
    the goroutine receives job 1 before the body reaches [jobs <- 2].  In
    the third the goroutine has printed all three jobs before the body
    reaches [close(jobs)]. *)
Definition producer_first : list tid :=
  repeat Main 9 ++ repeat Consumer 8 ++ repeat Main 2.

Definition consumer_starts_early : list tid := [Main; Main; Consumer; Main].

Definition consumer_catches_up : list tid := repeat Main 7 ++ repeat Consumer 6.

End ClosingChannels.

(* ===================================================================== *)
(** ** Plain functions: [addStuff], [moreAdding], the variadic sum, the
       methods of [dog], [somethingToRun] *)
(* ===================================================================== *)

Module Functions.
Import GoInt.

Definition addStuff (a b : Z) : Z := int_add a b.

(** [a + b + c] associates to the left. *)
Definition moreAdding (a b c : Z) : Z := int_add (int_add a b) c.

Definition multipleReturns : Z * Z := (3, 7).

(** [variadicFunctionForSumming]: the loop [total += num] over the
    arguments, and what the function hands to [fmt.Print] and
    [fmt.Println]: the slice and the total. *)
Definition sum_loop (nums : list Z) : Z :=
  fold_left (fun total num => int_add total num) nums 0.

Definition variadicFunctionForSumming (nums : list Z) : list Z * Z :=
  (nums, sum_loop nums).

(** [testVariadicFunction]: the two calls. *)
Definition testVariadicFunction : list (list Z * Z) :=
  [variadicFunctionForSumming [1; 2; 3];
   variadicFunctionForSumming [1; 2; 3; 4]].

(** [type dog struct { name string; age, weight int }] *)
Record dog : Type := mkDog { name : string; age : Z; weight : Z }.

(** [func (d *dog) yearOfBirth() int]: the receiver is a pointer, nil
    ([None]) makes the field access panic. *)
Definition yearOfBirth (d : option dog) : option Z :=
  match d with
  | Some d' => Some (int_sub 2019 (age d'))
  | None => None
  end.

(** [func (d dog) healthFactor() int]: the receiver is a value. *)
Definition healthFactor (d : dog) : Z := int_mul (age d) (weight d).

(** [testMethodStruct]: Go takes the address of [doggy] for the pointer
    method and follows [doggyPtr] for the value method. *)
Definition testMethodStruct : list (option Z) :=
  let doggy := mkDog "Sam" 2 35 in
  let doggyPtr := Some doggy in
  [Some (healthFactor doggy); yearOfBirth (Some doggy);
   option_map healthFactor doggyPtr; yearOfBirth doggyPtr].

(** [somethingToRun]: the loop [for i := 0; i < loops; i++], one printed
    line [name : i] per round.  [fuel] bounds the number of rounds;
    [None] means the bound was hit. *)
Fixpoint somethingToRun_from (fuel : nat) (name : string) (loops i : Z)
    (printed : list (string * Z)) : option (list (string * Z)) :=
  match fuel with
  | O => None
  | S fuel' =>
      if i <? loops
      then somethingToRun_from fuel' name loops (int_add i 1) (printed ++ [(name, i)])
      else Some printed
  end.

Definition somethingToRun (fuel : nat) (name : string) (loops : Z)
    : option (list (string * Z)) :=
  somethingToRun_from fuel name loops 0 [].

End Functions.

(* ===================================================================== *)
(** ** Channels used by one goroutine: [ping], [pong],
       [testChannelDirections], [showRangeWithChannels] *)
(* ===================================================================== *)

Module Channels.

(** A channel of any element type, with its capacity ([0]: unbuffered). *)
Record channel (A : Type) : Type :=
  mkChannel { queue : list A; capacity : nat; shut : bool }.
Arguments mkChannel {A} _ _ _.
Arguments queue {A} _.
Arguments capacity {A} _.
Arguments shut {A} _.

(** [make(chan A, n)] *)
Definition make {A : Type} (n : nat) : channel A := mkChannel [] n false.

(** What a channel operation does to a goroutine that runs alone: it
    goes through, it waits for ever (no other goroutine will ever serve
    the channel), or it panics. *)
Inductive outcome (A : Type) : Type :=
| Done (a : A)
| Blocked
| Panicked.
Arguments Done {A} _.
Arguments Blocked {A}.
Arguments Panicked {A}.

(** [ch <- v] *)
Definition send {A : Type} (ch : channel A) (v : A) : outcome (channel A) :=
  if shut ch then Panicked
  else if (length (queue ch) <? capacity ch)%nat
       then Done (mkChannel (queue ch ++ [v]) (capacity ch) (shut ch))
       else Blocked.

(** [v, more := <-ch]; [zero] is the zero value of the element type. *)
Definition recv {A : Type} (zero : A) (ch : channel A) : outcome (A * bool * channel A) :=
  match queue ch with
  | v :: rest => Done (v, true, mkChannel rest (capacity ch) (shut ch))
  | [] => if shut ch then Done (zero, false, ch) else Blocked
  end.

(** [close(ch)] *)
Definition close {A : Type} (ch : channel A) : outcome (channel A) :=
  if shut ch then Panicked else Done (mkChannel (queue ch) (capacity ch) true).

(** [func ping(insertOnlyChannel chan<- string, msg string)] *)
Definition ping (insertOnlyChannel : channel string) (msg : string)
    : outcome (channel string) :=
  send insertOnlyChannel msg.

(** [func pong(insertOnlyChannel chan<- string, popOnlyChannel <-chan string)];
    the result is the two channels afterwards. *)
Definition pong (insertOnlyChannel popOnlyChannel : channel string)
    : outcome (channel string * channel string) :=
  match recv EmptyString popOnlyChannel with
  | Done (msg, _, popOnlyChannel') =>
      match send insertOnlyChannel msg with
      | Done insertOnlyChannel' => Done (insertOnlyChannel', popOnlyChannel')
      | Blocked => Blocked
      | Panicked => Panicked
      end
  | Blocked => Blocked
  | Panicked => Panicked
  end.

(** [testChannelDirections], with the two capacities and the message as
    parameters; the result is what it prints and the two channels at the
    end. *)
Definition testChannelDirections_with (cap1 cap2 : nat) (msg : string)
    : outcome (list string * channel string * channel string) :=
  let channelOne := make cap1 in
  let channelTwo := make cap2 in
  match ping channelOne msg with
  | Done channelOne =>
      match pong channelTwo channelOne with
      | Done (channelTwo, channelOne) =>
          match recv EmptyString channelTwo with
          | Done (v, _, channelTwo) => Done ([v], channelOne, channelTwo)
          | Blocked => Blocked
          | Panicked => Panicked
          end
      | Blocked => Blocked
      | Panicked => Panicked
      end
  | Blocked => Blocked
  | Panicked => Panicked
  end.

Definition testChannelDirections
    : outcome (list string * channel string * channel string) :=
  testChannelDirections_with 1 1 "my sweet message".

(** The sends [queue <- v] one after the other. *)
Fixpoint send_all {A : Type} (ch : channel A) (vals : list A) : outcome (channel A) :=
  match vals with
  | [] => Done ch
  | v :: vals' =>
      match send ch v with
      | Done ch' => send_all ch' vals'
      | Blocked => Blocked
      | Panicked => Panicked
      end
  end.

(** [for elem := range ch { fmt.Println(elem) }]: receive until the
    channel reports that it is closed and empty.  [fuel] bounds the
    number of rounds. *)
Fixpoint range_over {A : Type} (fuel : nat) (zero : A) (ch : channel A)
    (printed : list A) : option (outcome (list A)) :=
  match fuel with
  | O => None
  | S fuel' =>
      match recv zero ch with
      | Done (elem, true, ch') => range_over fuel' zero ch' (printed ++ [elem])
      | Done (_, false, _) => Some (Done printed)
      | Blocked => Some Blocked
      | Panicked => Some Panicked
      end
  end.

(** [showRangeWithChannels], with the capacity and the values sent as
    parameters, and with or without the [close(queue)]. *)
Definition showRangeWithChannels_with (fuel : nat) (cap : nat) (vals : list string)
    (closing : bool) : option (outcome (list string)) :=
  match send_all (make cap) vals with
  | Done q =>
      if closing
      then match close q with
           | Done q' => range_over fuel EmptyString q' []
           | Blocked => Some Blocked
           | Panicked => Some Panicked
           end
      else range_over fuel EmptyString q []
  | Blocked => Some Blocked
  | Panicked => Some Panicked
  end.

Definition showRangeWithChannels (fuel : nat) : option (outcome (list string)) :=
  showRangeWithChannels_with fuel 3 ["1"; "2"; "3"] true.

End Channels.

(* ===================================================================== *)
(** ** [worker] and [testSyncWithWorker] *)
(* ===================================================================== *)

Module SyncWorker.
Import Channels.

(** Where [testSyncWithWorker] stands. *)
Inductive main_pc : Type :=
| MGo                    (* at [go worker(done)] *)
| MRecvDone              (* at [<-done] *)
| MExit.                 (* returned *)

(** Where [worker] stands. *)
Inductive worker_pc : Type :=
| WIdle                  (* not started yet *)
| WPrintWorking          (* at [fmt.Print("working...")] *)
| WSleep                 (* at [time.Sleep(time.Second)] *)
| WPrintDone             (* at [fmt.Println("done")] *)
| WSendDone              (* at [done <- true] *)
| WReturn.               (* returned *)

Record state : Type := mkState {
  done : channel bool;
  mpc : main_pc;
  wpc : worker_pc;
  out : list string
}.

Inductive tid : Type := Main | Worker.

(** [done := make(chan bool, 1)] *)
Definition init : state := mkState (make 1) MGo WIdle [].

Definition exec_main (s : state) : option state :=
  match mpc s with
  | MGo => Some (mkState (done s) MRecvDone WPrintWorking (out s))
  | MRecvDone =>
      match recv false (done s) with
      | Done (_, _, ch) => Some (mkState ch MExit (wpc s) (out s))
      | _ => None
      end
  | MExit => None
  end.

(** The sleep is a step that changes nothing but the place in the code. *)
Definition exec_worker (s : state) : option state :=
  match wpc s with
  | WIdle => None
  | WPrintWorking => Some (mkState (done s) (mpc s) WSleep (out s ++ ["working..."]))
  | WSleep => Some (mkState (done s) (mpc s) WPrintDone (out s))
  | WPrintDone => Some (mkState (done s) (mpc s) WSendDone (out s ++ ["done"]))
  | WSendDone =>
      match send (done s) true with
      | Done ch => Some (mkState ch (mpc s) WReturn (out s))
      | _ => None
      end
  | WReturn => None
  end.

Definition exec (t : tid) (s : state) : option state :=
  match t with
  | Main => exec_main s
  | Worker => exec_worker s
  end.

Definition step (s s' : state) : Prop := exists t, exec t s = Some s'.

Definition reachable (s : state) : Prop := rtc step init s.

(** The states of the one way the function can run, in order. *)
Definition course : list state :=
  [ mkState (make 1) MGo WIdle [];
    mkState (make 1) MRecvDone WPrintWorking [];
    mkState (make 1) MRecvDone WSleep ["working..."];
    mkState (make 1) MRecvDone WPrintDone ["working..."];
    mkState (make 1) MRecvDone WSendDone ["working..."; "done"];
    mkState (mkChannel [true] 1 false) MRecvDone WReturn ["working..."; "done"];
    mkState (make 1) MExit WReturn ["working..."; "done"] ].

(** The steps left until the function has returned. *)
Definition steps_left (s : state) : nat :=
  (match mpc s with MGo => 2 | MRecvDone => 1 | MExit => 0 end
   + match wpc s with
     | WIdle | WPrintWorking => 4
     | WSleep => 3
     | WPrintDone => 2
     | WSendDone => 1
     | WReturn => 0
     end)%nat.

End SyncWorker.

(* ===================================================================== *)
(** ** Files, [panic] and [defer]: [showPanic], [testFinally],
       [createFile], [writeFile], [closeFile] *)
(* ===================================================================== *)

Module Files.

(** What the operating system answers: the error of [os.Create] for a
    path and the error of [Close], [None] for nil. *)
Record os_answers : Type := mkOs {
  create_error : string -> option string;
  close_error : string -> option string
}.

(** What the program does to the outside world, in order.  A file is
    known by its path; [Stdout text] is [fmt.Println(text)], [Stderr text]
    a line written to standard error, [Write path data] is
    [fmt.Fprintln(f, data)]; the line feeds are left out. *)
Inductive event : Type :=
| Stdout (text : string)
| Stderr (text : string)
| Create (path : string)
| Write (path : string) (data : string)
| Close (path : string).

(** How a call ends: it returns, it panics, or the process exits. *)
Inductive ending (A : Type) : Type :=
| Returned (a : A)
| Panic (value : string)
| Exit (code : Z).
Arguments Returned {A} _.
Arguments Panic {A} _.
Arguments Exit {A} _.

(** A computation takes the events so far and gives its ending and the
    events afterwards. *)
Definition io (A : Type) : Type := list event -> ending A * list event.

Definition ret {A : Type} (a : A) : io A := fun tr => (Returned a, tr).

Definition bind {A B : Type} (m : io A) (k : A -> io B) : io B :=
  fun tr =>
    match m tr with
    | (Returned a, tr') => k a tr'
    | (Panic v, tr') => (Panic v, tr')
    | (Exit c, tr') => (Exit c, tr')
    end.

Definition emit (e : event) : io unit := fun tr => (Returned tt, tr ++ [e]).

Definition panic {A : Type} (v : string) : io A := fun tr => (Panic v, tr).

Definition exit {A : Type} (code : Z) : io A := fun tr => (Exit code, tr).

(** [defer d] in front of [body]: [d] runs when [body] has returned or
    panicked, not when the process has exited; a panic or exit of [d]
    replaces the ending of [body]. *)
Definition with_defer {A : Type} (d : io unit) (body : io A) : io A :=
  fun tr =>
    match body tr with
    | (Exit c, tr') => (Exit c, tr')
    | (ending_of_body, tr') =>
        match d tr' with
        | (Returned _, tr'') => (ending_of_body, tr'')
        | (Panic v, tr'') => (Panic v, tr'')
        | (Exit c, tr'') => (Exit c, tr'')
        end
    end.

Definition and_then {A B : Type} (m : io A) (k : io B) : io B := bind m (fun _ => k).

Section WithOs.
Variable os : os_answers.

(** [os.Create(p)]: the file (its path) or the error. *)
Definition os_Create (p : string) : io (string + string) :=
  and_then (emit (Create p))
      (ret (match create_error os p with
            | Some err => inr err
            | None => inl p
            end)).

Definition createFile (p : string) : io string :=
  and_then (emit (Stdout "creating"))
      (bind (os_Create p) (fun r =>
         match r with
         | inr err => panic err
         | inl f => ret f
         end)).

(** The result of [fmt.Fprintln] is dropped. *)
Definition writeFile (f : string) : io unit :=
  and_then (emit (Stdout "writing")) (emit (Write f "data")).

Definition closeFile (f : string) : io unit :=
  and_then (emit (Stdout "closing"))
      (and_then (emit (Close f))
           match close_error os f with
           | Some err => and_then (emit (Stderr (String.append "error: " err))) (exit 1)
           | None => ret tt
           end).

Definition testFinally_at (p : string) : io unit :=
  bind (createFile p) (fun f => with_defer (closeFile f) (writeFile f)).

Definition testFinally : io unit := testFinally_at "/tmp/defer.txt".

(** [showPanic]: the code after the [panic] is still part of the body. *)
Definition showPanic : io unit :=
  and_then (panic (A := unit) "a problem")
      (bind (os_Create "/tmp/file") (fun r =>
         match r with
         | inr err => panic err
         | inl _ => ret tt
         end)).

End WithOs.

(** How often a path is closed, and whether some event of a kind is
    among the events. *)
Definition closes_of (p : string) (tr : list event) : nat :=
  length (List.filter (fun e => match e with Close q => String.eqb p q | _ => false end) tr).

Definition touches_files (tr : list event) : bool :=
  existsb (fun e => match e with Create _ | Write _ _ | Close _ => true | _ => false end) tr.

End Files.

(* ===================================================================== *)
(** ** [testClosingChannels]: the lines of the body *)
(* ===================================================================== *)

Module BodyLines.
Import ClosingChannels.

(** The lines of the body among the printed ones. *)
Definition main_lines (o : list line) : list line :=
  List.filter (fun l => negb (consumer_line l)) o.

Section Program.
Variable njobs : Z.

(** How many "sent job" lines the body has printed when it stands at a
    given point, and whether it has printed "sent all jobs". *)
Definition announced (pc : main_pc) : Z :=
  match pc with
  | MGo => 0
  | MSend j | MPrintSent j => j - 1
  | MClose | MPrintSentAll | MRecvDone | MPrintDone | MExit => njobs
  | MPanic => 0
  end.

Definition said_sent_all (pc : main_pc) : bool :=
  match pc with
  | MRecvDone | MPrintDone | MExit => true
  | _ => false
  end.

Definition said_done (pc : main_pc) : bool :=
  match pc with
  | MExit => true
  | _ => false
  end.

(** What the lines of the body are in every state, and that "Done
    processing jobs" is the last line of all once it is printed. *)
Record body_invariant (s : state) : Prop := mkBodyInvariant {
  body_lines : main_lines (out s)
               = map SentJob (seqZ 1 (announced (mpc s)))
                 ++ (if said_sent_all (mpc s) then [SentAll] else [])
                 ++ (if said_done (mpc s) then [DoneProcessing] else []);
  body_last : mpc s = MExit -> exists front, out s = front ++ [DoneProcessing]
}.

End Program.

End BodyLines.

(* ===================================================================== *)
(** ** [testGoRoutines] *)
(* ===================================================================== *)

Module GoRoutines.
Import GoInt.

(** The lines printed: [name : i] by [somethingToRun], and the message
    of the function literal. *)
Inductive line : Type :=
| Counted (name : string) (i : Z)
| Text (msg : string).

(** Where the body of [testGoRoutines] stands. *)
Inductive main_pc : Type :=
| MSync (i : Z)          (* in [somethingToRun("sync", ..)], at the print of round [i] *)
| MGoAsync               (* at [go somethingToRun("async", ..)] *)
| MGoHello               (* at [go func(msg string) { ... }("HELLO")] *)
| MExit.                 (* returned *)

(** Where the goroutine that runs [somethingToRun("async", ..)] stands. *)
Inductive async_pc : Type :=
| AIdle                  (* not started yet *)
| APrint (i : Z)         (* at the print of round [i] *)
| AReturn.               (* returned *)

(** Where the goroutine of the function literal stands. *)
Inductive hello_pc : Type :=
| HIdle
| HPrint                 (* at [fmt.Println(msg)] *)
| HReturn.

Record state : Type := mkState {
  mpc : main_pc;
  apc : async_pc;
  hpc : hello_pc;
  out : list line
}.

Inductive tid : Type := Main | Async | Hello.

Section Program.

(** The two loop bounds, 3 and 5 in [testGoRoutines]. *)
Variable nsync : Z.
Variable nasync : Z.

(** The loop head [i < loops] of [somethingToRun], in the body and in
    the goroutine. *)
Definition sync_head (i : Z) : main_pc :=
  if i <? nsync then MSync i else MGoAsync.

Definition async_head (i : Z) : async_pc :=
  if i <? nasync then APrint i else AReturn.

Definition init : state := mkState (sync_head 0) AIdle HIdle [].

Definition exec (t : tid) (s : state) : option state :=
  match t with
  | Main =>
      match mpc s with
      | MSync i =>
          Some (mkState (sync_head (int_add i 1)) (apc s) (hpc s)
                  (out s ++ [Counted "sync" i]))
      | MGoAsync => Some (mkState MGoHello (async_head 0) (hpc s) (out s))
      | MGoHello => Some (mkState MExit (apc s) HPrint (out s))
      | MExit => None
      end
  | Async =>
      match apc s with
      | APrint i =>
          Some (mkState (mpc s) (async_head (int_add i 1)) (hpc s)
                  (out s ++ [Counted "async" i]))
      | _ => None
      end
  | Hello =>
      match hpc s with
      | HPrint => Some (mkState (mpc s) (apc s) HReturn (out s ++ [Text "HELLO"]))
      | _ => None
      end
  end.

Definition step (s s' : state) : Prop := exists t, exec t s = Some s'.

Definition reachable (s : state) : Prop := rtc step init s.

Fixpoint run_schedule (sch : list tid) (s : state) : option state :=
  match sch with
  | [] => Some s
  | t :: sch' =>
      match exec t s with
      | Some s' => run_schedule sch' s'
      | None => None
      end
  end.

(** How many lines each thread has printed when it stands at a point. *)
Definition synced (pc : main_pc) : Z :=
  match pc with
  | MSync i => i
  | _ => nsync
  end.

Definition asynced (pc : async_pc) : Z :=
  match pc with
  | AIdle => 0
  | APrint i => i
  | AReturn => nasync
  end.

(** A bound on the steps the three threads still have to take. *)
Definition steps_left (s : state) : Z :=
  match mpc s with
  | MSync i => nsync - i + 2
  | MGoAsync => 2
  | MGoHello => 1
  | MExit => 0
  end
  + match apc s with
    | AIdle => Z.max 0 nasync
    | APrint i => nasync - i
    | AReturn => 0
    end
  + match hpc s with
    | HIdle | HPrint => 1
    | HReturn => 0
    end.

Definition all_returned (s : state) : Prop :=
  mpc s = MExit /\ apc s = AReturn /\ hpc s = HReturn.

End Program.

Definition is_sync (l : line) : bool :=
  match l with
  | Counted name _ => String.eqb name "sync"
  | Text _ => false
  end.

Definition is_async (l : line) : bool :=
  match l with
  | Counted name _ => String.eqb name "async"
  | Text _ => false
  end.

Definition sync_lines (o : list line) : list line := List.filter is_sync o.
Definition async_lines (o : list line) : list line := List.filter is_async o.
Definition other_lines (o : list line) : list line :=
  List.filter (fun l => negb (is_sync l) && negb (is_async l)) o.

(** What holds in every state an execution passes through. *)
Record invariant (nsync nasync : Z) (s : state) : Prop := mkInvariant {
  inv_sync_range : forall i, mpc s = MSync i -> 0 <= i < nsync;
  inv_async_range : forall i, apc s = APrint i -> 0 <= i < nasync;
  inv_sync_phase : forall i, mpc s = MSync i ->
                   out s = map (Counted "sync") (seqZ 0 i);
  inv_async_idle : match mpc s with
                   | MSync _ | MGoAsync => apc s = AIdle
                   | _ => apc s <> AIdle
                   end;
  inv_hello_idle : hpc s = HIdle <-> mpc s <> MExit;
  inv_sync_first : exists rest,
                   out s = map (Counted "sync") (seqZ 0 (synced nsync (mpc s))) ++ rest /\
                   sync_lines rest = [];
  inv_async : async_lines (out s)
              = map (Counted "async") (seqZ 0 (asynced nasync (apc s)));
  inv_other : other_lines (out s)
              = match hpc s with HReturn => [Text "HELLO"] | _ => [] end
}.

Definition source_nsync : Z := 3.
Definition source_nasync : Z := 5.

End GoRoutines.

(* ===================================================================== *)
(** ** The text of a [customError] *)
(* ===================================================================== *)

Module ErrorText.
Import Errors.

(** The verb [%d] on an [int]: decimal digits, with a minus sign in
    front of a negative number. *)
Definition format_int (z : Z) : string :=
  DecimalString.NilZero.string_of_int (Z.to_int z).

(** [func (e *customError) Error() string]:
    [fmt.Sprintf("%d - %s", e.arg, e.prob)] *)
Definition Error (e : customError) : string :=
  String.append (format_int (arg e)) (String.append " - " (prob e)).

(** Reading a decimal numeral, to say what [%d] writes without naming
    how it is computed.  A digit is a character from "0" (code 48) to
    "9" (code 57). *)
Definition digit_value (c : ascii) : option Z :=
  let code := Z.of_nat (nat_of_ascii c) in
  if (48 <=? code) && (code <=? 57) then Some (code - 48) else None.

(** The number a run of digits stands for, the most significant digit
    first; [acc] is the number read so far. *)
Fixpoint read_digits (acc : Z) (s : string) : option Z :=
  match s with
  | EmptyString => Some acc
  | String c rest =>
      match digit_value c with
      | Some d => read_digits (10 * acc + d) rest
      | None => None
      end
  end.

(** A natural number in decimal: at least one digit, and no zero in
    front unless the numeral is "0". *)
Definition read_natural (s : string) : option Z :=
  match s with
  | EmptyString => None
  | String c rest =>
      if Ascii.eqb c "0"
      then (if String.eqb rest EmptyString then Some 0 else None)
      else read_digits 0 s
  end.

(** An integer in decimal: a natural number, or "-" and a natural number
    other than zero.  Nothing else is read: no "+", no space, no "-0". *)
Definition read_decimal (s : string) : option Z :=
  match s with
  | EmptyString => None
  | String c rest =>
      if Ascii.eqb c "-"
      then match read_natural rest with
           | Some v => if v =? 0 then None else Some (- v)
           | None => None
           end
      else read_natural s
  end.

(** No character of the string is a space. *)
Fixpoint no_space (s : string) : Prop :=
  match s with
  | EmptyString => True
  | String c s' => c <> " "%char /\ no_space s'
  end.

End ErrorText.

(* ===================================================================== *)
(** ** Structs and pointers to them: [person], [NewPersonConstructor],
       [testStructs] *)
(* ===================================================================== *)

Module Structs.

(** [type person struct { name string; age int }] *)
Record person : Type := mkPerson { name : string; age : Z }.

(** The persons whose address has been taken live on the heap; a
    pointer is an address, or nil ([None]). *)
Definition loc : Type := nat.

(** [p := person{name: name}; p.age = 42; return &p] *)
Definition NewPersonConstructor (n : string) (h : gmap loc person)
    : loc * gmap loc person :=
  let p := mkPerson n 0 in
  let p := mkPerson (name p) 42 in
  let l := fresh (dom h) in
  (l, <[l := p]> h).

(** [ptr.age]: a nil pointer panics ([None]). *)
Definition get_age (ptr : option loc) (h : gmap loc person) : option Z :=
  match ptr with
  | Some l => option_map age (h !! l)
  | None => None
  end.

(** [ptr.age = v] *)
Definition set_age (ptr : option loc) (v : Z) (h : gmap loc person)
    : option (gmap loc person) :=
  match ptr with
  | Some l =>
      match h !! l with
      | Some p => Some (<[l := mkPerson (name p) v]> h)
      | None => None
      end
  | None => None
  end.

(** What [testStructs] prints: a person, a pointer to a person (printed
    as [&{..}]), or a number. *)
Inductive printed : Type :=
| PPerson (p : person)
| PPointer (p : person)
| PInt (z : Z).

(** [testStructs]; [bob] lives on the heap because [bob2 := &bob] takes
    its address.  The result is what is printed, [None] after a panic. *)
Definition testStructs (h : gmap loc person) : option (list printed) :=
  let bob := fresh (dom h) in
  let h := <[bob := mkPerson "Bob" 20]> h in
  let line1 := option_map PPerson (h !! bob) in
  let line2 := Some (PPerson (mkPerson "Chuck" 13)) in
  let line3 := Some (PPerson (mkPerson "Alice" 0)) in
  let line4 := Some (PPointer (mkPerson "Ann" 40)) in
  let '(jon, h) := NewPersonConstructor "Jon" h in
  let line5 := option_map PPointer (h !! jon) in
  let line6 := option_map PInt (get_age (Some bob) h) in
  let bob2 := Some bob in
  let line7 := option_map PInt (get_age bob2 h) in
  match set_age bob2 99 h with
  | Some h =>
      let line8 := option_map PInt (get_age (Some bob) h) in
      foldr (fun l acc => match l, acc with
                          | Some x, Some xs => Some (x :: xs)
                          | _, _ => None
                          end)
            (Some []) [line1; line2; line3; line4; line5; line6; line7; line8]
  | None => None
  end.

End Structs.

(* ===================================================================== *)
(** ** [testSelect] *)
(* ===================================================================== *)

Module Select.
Import GoInt.

(** [time.Second], in nanoseconds as [time.Duration] counts. *)
Definition second : Z := 1000000000.

(** The lines of [testSelect]: "received one", "received two" and
    "TIMEOUT". *)
Inductive line : Type :=
| Received (msg : string)
| TimedOut.

(** Where one of the two goroutines stands:
    [go func() { time.Sleep(d); c <- msg }()].  [Sleeping wake]: in
    [time.Sleep], which ends at the time [wake]; [AtSend]: at the send
    on its unbuffered channel, which goes through when the [select]
    takes the value. *)
Inductive sender_pc : Type :=
| NotStarted
| Sleeping (wake : Z)
| AtSend
| Returned.

(** Where the body stands.  [MSelect i started]: waiting in the
    [select] of round [i], entered at the time [started]; the timer of
    its [time.After] was set then.  [MPrint i l]: at the [fmt.Println]
    of the case taken. *)
Inductive main_pc : Type :=
| MGo1
| MGo2
| MSelect (i started : Z)
| MPrint (i : Z) (l : line)
| MExit.

(** A state: the clock, the two goroutines, the body and the output. *)
Record state : Type := mkState {
  now : Z;
  g1 : sender_pc;
  g2 : sender_pc;
  mpc : main_pc;
  out : list line
}.

(** What can happen: a step of the body outside the [select]; the
    [select] taking one of its three cases; a [time.Sleep] coming to its
    end; time passing. *)
Inductive action : Type :=
| Step
| Recv1
| Recv2
| TimerFires
| Wake1
| Wake2
| Tick (t : Z).

Section Program.

(** The two sleeps and the timeout ([1], [2] and [5] seconds in the
    source). *)
Variables sleep1 sleep2 timeout : Z.

Definition init : state := mkState 0 NotStarted NotStarted MGo1 [].

(** [for i := 0; i < 2; i++]: the test of the loop; entering the
    [select] sets the timer. *)
Definition loop_head (i : Z) (t : Z) : main_pc :=
  if i <? 2 then MSelect i t else MExit.

(** When the timer of a [select] entered at [started] fires. *)
Definition deadline (started : Z) : Z := started + timeout.

(** A goroutine at its send has a value ready for the [select]. *)
Definition ready (g : sender_pc) : bool :=
  match g with
  | AtSend => true
  | _ => false
  end.

(** The end of a [time.Sleep]. *)
Definition wake_up (g : sender_pc) (t : Z) : option sender_pc :=
  match g with
  | Sleeping wake => if wake <=? t then Some AtSend else None
  | _ => None
  end.

Definition sleeps_until (g : sender_pc) (t : Z) : bool :=
  match g with
  | Sleeping wake => t <=? wake
  | _ => true
  end.

(** Time passes only while nothing else can happen: the body waits in
    the [select] with no case ready (or has returned), and the clock
    does not go past the end of a sleep or past the deadline of the
    timer: sleeps and timers end on time. *)
Definition may_pass (s : state) (t : Z) : bool :=
  (now s <? t) && sleeps_until (g1 s) t && sleeps_until (g2 s) t &&
  match mpc s with
  | MSelect _ started =>
      (t <=? deadline started) && negb (ready (g1 s)) && negb (ready (g2 s))
  | MExit => true
  | _ => false
  end.

Definition exec (a : action) (s : state) : option state :=
  match a with
  | Step =>
      match mpc s with
      | MGo1 =>
          Some (mkState (now s) (Sleeping (now s + sleep1)) (g2 s) MGo2 (out s))
      | MGo2 =>
          Some (mkState (now s) (g1 s) (Sleeping (now s + sleep2))
                  (loop_head 0 (now s)) (out s))
      | MPrint i l =>
          Some (mkState (now s) (g1 s) (g2 s)
                  (loop_head (int_add i 1) (now s)) (out s ++ [l]))
      | MSelect _ _ | MExit => None
      end
  | Recv1 =>
      match mpc s, g1 s with
      | MSelect i _, AtSend =>
          Some (mkState (now s) Returned (g2 s) (MPrint i (Received "one")) (out s))
      | _, _ => None
      end
  | Recv2 =>
      match mpc s, g2 s with
      | MSelect i _, AtSend =>
          Some (mkState (now s) (g1 s) Returned (MPrint i (Received "two")) (out s))
      | _, _ => None
      end
  | TimerFires =>
      match mpc s with
      | MSelect i started =>
          if deadline started <=? now s
          then Some (mkState (now s) (g1 s) (g2 s) (MPrint i TimedOut) (out s))
          else None
      | _ => None
      end
  | Wake1 =>
      match wake_up (g1 s) (now s) with
      | Some g => Some (mkState (now s) g (g2 s) (mpc s) (out s))
      | None => None
      end
  | Wake2 =>
      match wake_up (g2 s) (now s) with
      | Some g => Some (mkState (now s) (g1 s) g (mpc s) (out s))
      | None => None
      end
  | Tick t =>
      if may_pass s t
      then Some (mkState t (g1 s) (g2 s) (mpc s) (out s))
      else None
  end.

Definition step (s s' : state) : Prop := exists a, exec a s = Some s'.

Definition reachable (s : state) : Prop := rtc step init s.

Fixpoint run_schedule (sched : list action) (s : state) : option state :=
  match sched with
  | [] => Some s
  | a :: rest =>
      match exec a s with
      | Some s' => run_schedule rest s'
      | None => None
      end
  end.

(** What holds in every state an execution passes through: the round
    is [0] or [1], and a [select] has not waited longer than the
    timeout. *)
Definition invariant (s : state) : Prop :=
  match mpc s with
  | MSelect i started => 0 <= i < 2 /\ started <= now s <= deadline started
  | MPrint i _ => 0 <= i < 2
  | _ => True
  end.

(** A bound on what an execution still has to do before the body
    returns: the steps of the body and the time it can still wait, and
    the sleeps that have not ended. *)
Definition left_main (s : state) : Z :=
  match mpc s with
  | MGo1 => 8 + 2 * timeout
  | MGo2 => 6 + 2 * timeout
  | MSelect i started =>
      2 * (2 - i) + (deadline started - now s) + (1 - i) * timeout
  | MPrint i _ => 2 * (2 - i) - 1 + (1 - i) * timeout
  | MExit => 0
  end.

Definition left_sender (g : sender_pc) : Z :=
  match g with
  | NotStarted | Sleeping _ => 1
  | AtSend | Returned => 0
  end.

Definition left (s : state) : Z :=
  left_main s + left_sender (g1 s) + left_sender (g2 s).

(** Where an execution can be when the first sleep is the shorter one and
    each value comes before the timer of its round. *)
Definition on_time_invariant (s : state) : Prop :=
  match mpc s with
  | MGo1 => now s = 0 /\ g1 s = NotStarted /\ g2 s = NotStarted /\ out s = []
  | MGo2 => now s = 0 /\ g1 s = Sleeping sleep1 /\ g2 s = NotStarted /\ out s = []
  | MSelect i started =>
      (i = 0 /\ started = 0 /\ out s = [] /\ g2 s = Sleeping sleep2 /\
       ((g1 s = Sleeping sleep1 /\ now s <= sleep1) \/
        (g1 s = AtSend /\ now s = sleep1))) \/
      (i = 1 /\ started = sleep1 /\ out s = [Received "one"] /\ g1 s = Returned /\
       ((g2 s = Sleeping sleep2 /\ now s <= sleep2) \/
        (g2 s = AtSend /\ now s = sleep2)))
  | MPrint i l =>
      (i = 0 /\ l = Received "one" /\ now s = sleep1 /\ out s = [] /\
       g1 s = Returned /\ g2 s = Sleeping sleep2) \/
      (i = 1 /\ l = Received "two" /\ now s = sleep2 /\ out s = [Received "one"] /\
       g1 s = Returned /\ g2 s = Returned)
  | MExit =>
      sleep2 <= now s /\ out s = [Received "one"; Received "two"] /\
      g1 s = Returned /\ g2 s = Returned
  end.

End Program.

Definition source_sleep1 : Z := 1 * second.
Definition source_sleep2 : Z := 2 * second.
Definition source_timeout : Z := 5 * second.

(** [testSelect] as it runs when everything is on time: the first round
    takes "one" after one second, the second "two" after two. *)
Definition on_time : list action :=
  [Step; Step; Tick (1 * second); Wake1; Recv1; Step;
   Tick (2 * second); Wake2; Recv2; Step].

(** A run with goroutines that sleep for six and for seven seconds: the
    first round times out after five seconds, the second takes "one"
    after six. *)
Definition first_round_times_out : list action :=
  [Step; Step; Tick (5 * second); TimerFires; Step;
   Tick (6 * second); Wake1; Recv1; Step].

End Select.

(* ===================================================================== *)
(** * Properties *)
(* ===================================================================== *)

(** ** Arithmetic of [int] *)

Section GoIntFacts.
Import GoInt.

Lemma modulus_eq : modulus = 18446744073709551616.
Proof. reflexivity. Qed.

Lemma half_eq : half = 9223372036854775808.
Proof. reflexivity. Qed.

Lemma min_int_eq : min_int = -9223372036854775808.
Proof. reflexivity. Qed.

Lemma max_int_eq : max_int = 9223372036854775807.
Proof. reflexivity. Qed.

Lemma wrap_is_int z : is_int (wrap z).
Proof.
unfold is_int, wrap, min_int, max_int. rewrite modulus_eq, half_eq.
pose proof (Z.mod_pos_bound (z + 9223372036854775808) 18446744073709551616).
lia.
Qed.

Lemma wrap_small z : is_int z -> wrap z = z.
Proof.
unfold is_int, wrap, min_int, max_int. rewrite modulus_eq, half_eq.
intros Hz. rewrite Z.mod_small; lia.
Qed.

(** [wrap z] differs from [z] by a multiple of the modulus. *)
Lemma wrap_congr z : exists q, wrap z = z + q * modulus.
Proof.
exists (- ((z + half) / modulus)). unfold wrap.
rewrite Z.mod_eq by (rewrite modulus_eq; lia). lia.
Qed.

Lemma wrap_shift z q : wrap (z + q * modulus) = wrap z.
Proof.
unfold wrap.
replace (z + q * modulus + half) with (z + half + q * modulus) by lia.
rewrite Z.mod_add; [reflexivity | rewrite modulus_eq; lia].
Qed.

Lemma wrap_add_l a b : wrap (wrap a + b) = wrap (a + b).
Proof.
destruct (wrap_congr a) as [q ->].
replace (a + q * modulus + b) with (a + b + q * modulus) by lia.
apply wrap_shift.
Qed.

Lemma wrap_mul_r a b : wrap (a * wrap b) = wrap (a * b).
Proof.
destruct (wrap_congr b) as [q ->].
replace (a * (b + q * modulus)) with (a * b + (a * q) * modulus) by lia.
apply wrap_shift.
Qed.

Lemma int_add_small a b : is_int (a + b) -> int_add a b = a + b.
Proof. apply wrap_small. Qed.

Lemma int_sub_small a b : is_int (a - b) -> int_sub a b = a - b.
Proof. apply wrap_small. Qed.

(** Decrementing the smallest [int] gives the largest one. *)
Lemma int_sub_min_int : int_sub min_int 1 = max_int.
Proof. reflexivity. Qed.

Lemma int_add_max_int : int_add max_int 1 = min_int.
Proof. reflexivity. Qed.

End GoIntFacts.

(** ** Error values *)

Section ErrorFacts.
Import GoInt Errors.

Lemma functionWithDefaultError_unlucky :
  functionWithDefaultError 13 = (-1, Some (errorString "unlucky number detected")).
Proof. reflexivity. Qed.

Lemma functionWithCustomError_unlucky :
  functionWithCustomError 13
  = (-1, Some (customErrorPtr (mkCustomError 13 "just can't do it bro"))).
Proof. reflexivity. Qed.

Lemma functionWithDefaultError_lucky a :
  a <> 13 -> functionWithDefaultError a = (int_add a 1, None).
Proof.
  intros Ha. unfold functionWithDefaultError.
  destruct (Z.eqb_spec a 13); [contradiction | reflexivity].
Qed.

Lemma functionWithCustomError_lucky a :
  a <> 13 -> functionWithCustomError a = (int_add a 2, None).
Proof.
  intros Ha. unfold functionWithCustomError.
  destruct (Z.eqb_spec a 13); [contradiction | reflexivity].
Qed.

(** The loops of [testErrors] over [1] and [13]. *)
Example testErrors_default :
  map functionWithDefaultError [1; 13]
  = [(2, None); (-1, Some (errorString "unlucky number detected"))].
Proof. reflexivity. Qed.

Example testErrors_custom :
  map functionWithCustomError [1; 13]
  = [(3, None); (-1, Some (customErrorPtr (mkCustomError 13 "just can't do it bro")))].
Proof. reflexivity. Qed.

(** The type assertion at the end of [testErrors] passes and gives the
    fields [13] and the message. *)
Example testErrors_cast :
  assert_customError (snd (functionWithCustomError 13))
  = Some (mkCustomError 13 "just can't do it bro").
Proof. reflexivity. Qed.

(** C9.  [functionWithDefaultError arg] returns a non-nil error exactly
    when [arg] is 13, and then its first result is -1; for every other
    [arg] it returns [arg + 1] (Go's [+] on [int], which is the exact sum
    below [max_int]) and a nil error.  [functionWithCustomError] does the
    same with a non-nil pointer to [customError] and [arg + 2]. *)
Theorem error_functions_spec (a : Z) :
  is_int a ->
  (snd (functionWithDefaultError a) <> None <-> a = 13) /\
  (a = 13 -> fst (functionWithDefaultError a) = -1) /\
  (a <> 13 -> functionWithDefaultError a = (int_add a 1, None)) /\
  (a <> 13 -> a < max_int -> fst (functionWithDefaultError a) = a + 1) /\
  (snd (functionWithCustomError a) <> None <-> a = 13) /\
  (is_customError (snd (functionWithCustomError a)) = true <-> a = 13) /\
  (a = 13 -> fst (functionWithCustomError a) = -1) /\
  (a <> 13 -> functionWithCustomError a = (int_add a 2, None)) /\
  (a <> 13 -> a < max_int - 1 -> fst (functionWithCustomError a) = a + 2).
Proof.
  intros Hint.
  destruct (Z.eq_dec a 13) as [-> | Hne].
  - rewrite functionWithDefaultError_unlucky, functionWithCustomError_unlucky.
    cbn. repeat split; intros; try congruence; try lia; try reflexivity.
  - rewrite (functionWithDefaultError_lucky a Hne), (functionWithCustomError_lucky a Hne).
    cbn [fst snd is_customError].
    repeat split; intros; try congruence; try contradiction; try discriminate.
    + apply int_add_small. unfold is_int in *. lia.
    + apply int_add_small. unfold is_int in *. lia.
Qed.

Lemma error_functions_spec_witness :
  is_int 13 /\
  fst (functionWithDefaultError 13) = -1 /\
  functionWithCustomError 1 = (int_add 1 2, None).
Proof.
  assert (H13 : is_int 13) by (unfold is_int; rewrite min_int_eq, max_int_eq; lia).
  assert (H1 : is_int 1) by (unfold is_int; rewrite min_int_eq, max_int_eq; lia).
  split; [exact H13 |]. split.
  - apply (error_functions_spec 13 H13). reflexivity.
  - apply (error_functions_spec 1 H1). lia.
Defined.

End ErrorFacts.

(** ** [recursiveFunction] *)

Section FactorialFacts.
Import GoInt Factorial.

Lemma wrap_one : wrap 1 = 1.
Proof. reflexivity. Qed.

Lemma recursiveFunction_zero depth : recursiveFunction (S depth) 0 = Some 1.
Proof. reflexivity. Qed.

(** The recursive case, as the source has it: one more frame, the
    product taken in [int]. *)
Lemma recursiveFunction_step depth n :
  n <> 0 ->
  recursiveFunction (S depth) n
  = match recursiveFunction depth (int_sub n 1) with
    | Some r => Some (int_mul n r)
    | None => None
    end.
Proof.
  intros Hn. cbn [recursiveFunction].
  destruct (Z.eqb_spec n 0); [contradiction | reflexivity].
Qed.

(** With room for [n + 1] frames the call returns [n!] reduced to [int]. *)
Lemma recursiveFunction_nat (n : nat) :
  Z.of_nat n <= max_int ->
  forall depth, (n < depth)%nat ->
  recursiveFunction depth (Z.of_nat n) = Some (wrap (factorial n)).
Proof.
  induction n as [| m IH]; intros Hmax depth Hdepth.
  - destruct depth as [| d]; [lia |]. reflexivity.
  - destruct depth as [| d]; [lia |].
    rewrite recursiveFunction_step by lia.
    assert (Hpred : int_sub (Z.of_nat (S m)) 1 = Z.of_nat m).
    { rewrite int_sub_small; [lia |].
      unfold is_int. rewrite min_int_eq. lia. }
    rewrite Hpred, IH by lia.
    f_equal. unfold int_mul. rewrite wrap_mul_r. reflexivity.
  Qed.

Lemma factorial_small (n : nat) : (n <= 20)%nat -> is_int (factorial n).
Proof.
  intros Hn. unfold is_int. rewrite min_int_eq, max_int_eq.
  do 21 (destruct n as [| n]; [vm_compute; split; discriminate |]).
  lia.
Qed.

Lemma factorial_large (n : nat) : (21 <= n)%nat -> max_int < factorial n.
Proof.
  induction 1 as [| m Hm IH].
  - rewrite max_int_eq. vm_compute. reflexivity.
  - change (factorial (S m)) with (Z.of_nat (S m) * factorial m).
    rewrite max_int_eq in *. nia.
Qed.

(** From 21 on the factorial is no [int], so no result can equal it. *)
Lemma factorial_overflows (n : nat) :
  (21 <= n)%nat -> wrap (factorial n) <> factorial n.
Proof.
  intros Hn Heq. pose proof (factorial_large n Hn) as Hlarge.
  pose proof (wrap_is_int (factorial n)) as [_ Hmax]. lia.
Qed.

(** Without room for [n + 1] frames the recursion from [n >= 0] does not
    come down to [0]: the stack overflows. *)
Lemma recursiveFunction_needs_frames (n : nat) :
  Z.of_nat n <= max_int ->
  forall depth, (depth <= n)%nat ->
  recursiveFunction depth (Z.of_nat n) = None.
Proof.
  induction n as [| m IH]; intros Hmax depth Hdepth.
  - assert (depth = O) as -> by lia. reflexivity.
  - destruct depth as [| d]; [reflexivity |].
    rewrite recursiveFunction_step by lia.
    assert (Hpred : int_sub (Z.of_nat (S m)) 1 = Z.of_nat m).
    { rewrite int_sub_small; [lia |].
      unfold is_int. rewrite min_int_eq. lia. }
    rewrite Hpred, IH; [reflexivity | lia | lia].
Qed.

(** A negative argument stays negative down to [min_int]; there the
    decrement wraps to [max_int], from where [0] is [2^63] calls away.
    So from [n < 0] no stack with room for [n + 2^64] frames or fewer
    reaches the base case. *)
Lemma recursiveFunction_negative depth :
  forall n, is_int n -> n < 0 ->
  Z.of_nat depth <= n + modulus ->
  recursiveFunction depth n = None.
Proof.
  induction depth as [| d IH]; intros n Hint Hneg Hdepth; [reflexivity |].
  rewrite recursiveFunction_step by lia.
  destruct (Z.eq_dec n min_int) as [-> | Hmin].
  - rewrite int_sub_min_int.
    replace max_int with (Z.of_nat (Z.to_nat max_int)) by (rewrite max_int_eq; lia).
    rewrite recursiveFunction_needs_frames; [reflexivity | |].
    + rewrite Z2Nat.id by (rewrite max_int_eq; lia). lia.
    + rewrite min_int_eq, modulus_eq in Hdepth. rewrite max_int_eq. lia.
  - assert (Hpred : int_sub n 1 = n - 1).
    { apply int_sub_small. unfold is_int in *. lia. }
    rewrite Hpred, IH; [reflexivity | unfold is_int in *; lia | lia | lia].
Qed.

Example recursiveFunction_5 : recursiveFunction 6 5 = Some 120.
Proof. reflexivity. Qed.

Example recursiveFunction_20 : recursiveFunction 21 20 = Some 2432902008176640000.
Proof. vm_compute. reflexivity. Qed.

(** C8, as the code has it.  [depth] is the number of frames the
    goroutine stack has room for.  For [0 <= n] the call returns exactly
    when there is room for [n + 1] frames, and its value is [n!] reduced
    to [int]; up to [n = 20] that is [n!] itself, from [n = 21] on it is
    not.  The equations of the source hold with the product taken in
    [int].  For [n < 0] the recursion never reaches the base case: on no
    stack with room for [2^63] frames or fewer, and in general whenever
    there is room for fewer than [frames_needed n] frames, the call runs
    out of stack. *)
Theorem recursiveFunction_spec (n : Z) (depth : nat) :
  is_int n ->
  (0 <= n ->
     (n < Z.of_nat depth ->
      recursiveFunction depth n = Some (wrap (factorial (Z.to_nat n)))) /\
     (Z.of_nat depth <= n -> recursiveFunction depth n = None)) /\
  (0 <= n <= 20 -> n < Z.of_nat depth ->
     recursiveFunction depth n = Some (factorial (Z.to_nat n))) /\
  (21 <= n -> recursiveFunction depth n <> Some (factorial (Z.to_nat n))) /\
  recursiveFunction (S depth) 0 = Some 1 /\
  (n <> 0 ->
     recursiveFunction (S depth) n
     = match recursiveFunction depth (int_sub n 1) with
       | Some r => Some (int_mul n r)
       | None => None
       end) /\
  (n < 0 -> Z.of_nat depth <= half -> recursiveFunction depth n = None) /\
  (Z.of_nat depth < frames_needed n -> recursiveFunction depth n = None).
Proof.
  intros Hint.
  assert (Hpos : 0 <= n -> n < Z.of_nat depth ->
            recursiveFunction depth n = Some (wrap (factorial (Z.to_nat n)))).
  { intros Hn Hdepth.
    rewrite <- (Z2Nat.id n Hn) at 1.
    apply recursiveFunction_nat; [| lia].
    rewrite Z2Nat.id by exact Hn. apply Hint. }
  assert (Hshort : 0 <= n -> Z.of_nat depth <= n ->
            recursiveFunction depth n = None).
  { intros Hn Hdepth.
    rewrite <- (Z2Nat.id n Hn) at 1.
    apply recursiveFunction_needs_frames; [| lia].
    rewrite Z2Nat.id by exact Hn. apply Hint. }
  split; [intros Hn; split; [apply Hpos | apply Hshort]; exact Hn |].
  split; [| split; [| split; [| split; [| split]]]].
  - intros Hn Hdepth. rewrite Hpos by lia.
    rewrite wrap_small; [reflexivity |]. apply factorial_small. lia.
  - intros Hn Heq.
    destruct (Z_lt_le_dec n (Z.of_nat depth)) as [Hdepth | Hdepth].
    + rewrite Hpos in Heq by lia.
      injection Heq as Heq. revert Heq. apply factorial_overflows. lia.
    + rewrite Hshort in Heq by lia. discriminate.
  - apply recursiveFunction_zero.
  - intros Hn. apply recursiveFunction_step, Hn.
  - intros Hn Hdepth. apply recursiveFunction_negative; [exact Hint | exact Hn |].
    unfold is_int in Hint. rewrite min_int_eq in Hint.
    rewrite half_eq in Hdepth. rewrite modulus_eq. lia.
  - unfold frames_needed. destruct (Z.leb_spec 0 n) as [Hn | Hn]; intros Hdepth.
    + apply Hshort; lia.
    + apply recursiveFunction_negative; [exact Hint | exact Hn | lia].
Qed.

Lemma recursiveFunction_spec_witness :
  is_int 5 /\ recursiveFunction 6 5 = Some (factorial 5).
Proof.
  assert (H5 : is_int 5) by (unfold is_int; rewrite min_int_eq, max_int_eq; lia).
  split; [exact H5 |].
  destruct (recursiveFunction_spec 5 6 H5) as (_ & Hexact & _).
  apply Hexact; lia.
Defined.

(** A call that is too deep for the stack does not return, whatever the
    sign of its argument: [recursiveFunction(1000000000)] needs a
    thousand million and one frames, [recursiveFunction(-1)] more than
    [2^63]. *)
Example recursiveFunction_deep_calls_overflow_the_stack (depth : nat) :
  Z.of_nat depth <= 1000000000 ->
  recursiveFunction depth 1000000000 = None /\
  recursiveFunction depth (-1) = None.
Proof.
  intros Hdepth. split.
  - rewrite <- (Z2Nat.id 1000000000) by lia.
    apply recursiveFunction_needs_frames; [rewrite max_int_eq; lia | lia].
  - apply recursiveFunction_negative;
      [unfold is_int; rewrite min_int_eq, max_int_eq; lia | lia |
       rewrite modulus_eq; lia].
Qed.

(** [21!] does not fit into an [int]: [recursiveFunction(21)] returns a
    negative number. *)
Lemma recursiveFunction_21_overflows :
  recursiveFunction 22 21 = Some (-4249290049419214848) /\
  factorial 21 = 51090942171709440000 /\
  recursiveFunction 22 21 <> Some (factorial 21).
Proof.
  split; [vm_compute; reflexivity |]. split; [vm_compute; reflexivity |].
  vm_compute. discriminate.
Qed.

End FactorialFacts.

(** ** Closures *)

Section ClosureFacts.
Import GoInt Closures.

Lemma closureReturner_fresh (h : gmap loc Z) :
  h !! captured_i (fst (closureReturner h)) = None.
Proof. cbn. apply not_elem_of_dom, is_fresh. Qed.

Lemma closureReturner_zero (h : gmap loc Z) :
  snd (closureReturner h) !! captured_i (fst (closureReturner h)) = Some 0.
Proof. cbn. apply lookup_insert_eq. Qed.

Lemma closureReturner_keeps (h : gmap loc Z) (l : loc) (v : Z) :
  h !! l = Some v -> snd (closureReturner h) !! l = Some v.
Proof.
  intros Hl. cbn. rewrite lookup_insert_ne; [exact Hl |].
  intros Heq. pose proof (is_fresh (dom h)) as Hfresh.
  rewrite Heq in Hfresh. apply Hfresh, elem_of_dom. eauto.
Qed.

Lemma invoke_value (c : closure) (h : gmap loc Z) (v : Z) :
  h !! captured_i c = Some v -> fst (invoke c h) = wrap (v + 1).
Proof.
  intros Hv. unfold invoke. cbn [fst].
  rewrite (lookup_total_correct _ _ _ Hv). reflexivity.
Qed.

Lemma invoke_cell (c : closure) (h : gmap loc Z) (v : Z) :
  h !! captured_i c = Some v ->
  snd (invoke c h) !! captured_i c = Some (wrap (v + 1)).
Proof.
  intros Hv. unfold invoke. cbn [snd].
  rewrite (lookup_total_correct _ _ _ Hv). apply lookup_insert_eq.
Qed.

(** A call writes no cell but the one the closure captured. *)
Lemma invoke_other (c : closure) (h : gmap loc Z) (l : loc) :
  l <> captured_i c -> snd (invoke c h) !! l = h !! l.
Proof. intros Hl. unfold invoke. cbn [snd]. apply lookup_insert_ne. congruence. Qed.

Lemma invoke_times_succ (k : N) (c : closure) (h : gmap loc Z) :
  invoke_times (N.succ k) c h = snd (invoke c (invoke_times k c h)).
Proof. unfold invoke_times. apply N.iter_succ. Qed.

Lemma invoke_times_cell (k : N) (c : closure) (h : gmap loc Z) (v : Z) :
  is_int v ->
  h !! captured_i c = Some v ->
  invoke_times k c h !! captured_i c = Some (wrap (v + Z.of_N k)).
Proof.
  intros Hint Hv. induction k as [| k IH] using N.peano_ind.
  - cbn. rewrite Z.add_0_r, wrap_small; assumption.
  - rewrite invoke_times_succ, (invoke_cell _ _ _ IH), wrap_add_l.
    do 2 f_equal. lia.
Qed.

Lemma invoke_times_other (k : N) (c : closure) (h : gmap loc Z) (l : loc) :
  l <> captured_i c -> invoke_times k c h !! l = h !! l.
Proof.
  intros Hl. induction k as [| k IH] using N.peano_ind; [reflexivity |].
  rewrite invoke_times_succ, invoke_other; assumption.
Qed.

Lemma is_int_zero : is_int 0.
Proof. unfold is_int. rewrite min_int_eq, max_int_eq. lia. Qed.

(** The [k]-th call of a closure fresh from [closureReturner] returns
    [k] reduced to [int]. *)
Lemma kth_call_fresh (h : gmap loc Z) (k : N) :
  (1 <= k)%N ->
  kth_call k (fst (closureReturner h)) (snd (closureReturner h))
  = wrap (Z.of_N k).
Proof.
  intros Hk. unfold kth_call.
  rewrite (invoke_value _ _ (wrap (0 + Z.of_N (N.pred k)))).
  - rewrite wrap_add_l. f_equal. lia.
  - apply invoke_times_cell; [apply is_int_zero | apply closureReturner_zero].
Qed.

Example closureTester_prints : fst (closureTester ∅) = [1; 2; 3; 1].
Proof. vm_compute. reflexivity. Qed.

(** *** Arbitrary client code *)

Lemma run_app (p1 p2 : list action) (w : world) :
  run (p1 ++ p2) w
  = (fst (run p1 w) ++ fst (run p2 (snd (run p1 w))), snd (run p2 (snd (run p1 w)))).
Proof.
  revert w. induction p1 as [| a p1 IH]; intros w.
  - cbn. destruct (run p2 w); reflexivity.
  - cbn [app run]. destruct (perform a w) as [r w1]. rewrite IH.
    destruct (run p1 w1) as [rs w2]. reflexivity.
Qed.

Lemma run_length (p : list action) (w : world) : length (fst (run p w)) = length p.
Proof.
  revert w. induction p as [| a p IH]; intros w; [reflexivity |].
  cbn [run]. destruct (perform a w) as [r w1]. specialize (IH w1).
  destruct (run p w1) as [rs w2]. cbn in *. lia.
Qed.

Lemma well_formed_app (have : nat) (p1 p2 : list action) :
  well_formed have (p1 ++ p2)
  = well_formed have p1 && well_formed (have + closures_of p1) p2.
Proof.
  revert have. induction p1 as [| [| n] p1 IH]; intros have; cbn.
  - rewrite Nat.add_0_r. reflexivity.
  - rewrite IH. do 2 f_equal. lia.
  - rewrite IH. rewrite andb_assoc. reflexivity.
Qed.

Lemma calls_of_app (n : nat) (p1 p2 : list action) :
  calls_of n (p1 ++ p2) = (calls_of n p1 + calls_of n p2)%nat.
Proof.
  induction p1 as [| [| m] p1 IH]; cbn; [reflexivity | exact IH |].
  destruct (Nat.eqb m n); cbn; lia.
Qed.

Lemma closures_of_app (p1 p2 : list action) :
  closures_of (p1 ++ p2) = (closures_of p1 + closures_of p2)%nat.
Proof. induction p1 as [| [| m] p1 IH]; cbn; lia. Qed.

(** A closure that does not exist yet has not been called. *)
Lemma calls_of_unborn (have : nat) (p : list action) (n : nat) :
  well_formed have p = true -> (have + closures_of p <= n)%nat -> calls_of n p = O.
Proof.
  revert have. induction p as [| [| m] p IH]; intros have Hwf Hn; cbn in *.
  - reflexivity.
  - apply (IH (S have)); [exact Hwf | lia].
  - apply andb_prop in Hwf as [Hm Hwf]. apply Nat.ltb_lt in Hm.
    destruct (Nat.eqb_spec m n); [lia |]. apply (IH have); assumption.
Qed.

Lemma consistent_start (h : gmap loc Z) : consistent [] (mkWorld h []).
Proof. split; cbn; [reflexivity | intros n c Hn; discriminate | intros n m c d Hn; discriminate]. Qed.

Lemma consistent_new (p : list action) (w : world) :
  well_formed O p = true ->
  consistent p w -> consistent (p ++ [NewClosure]) (snd (perform NewClosure w)).
Proof.
  intros Hwf [Hlen Hcells Hapart]. cbn.
  assert (Hfresh : forall n c, w_closures w !! n = Some c ->
            captured_i c <> fresh (dom (w_heap w))).
  { intros n c Hn Heq. pose proof (is_fresh (dom (w_heap w))) as Hf.
    rewrite <- Heq in Hf. apply Hf, elem_of_dom. rewrite (Hcells n c Hn). eauto. }
  split; cbn.
  - rewrite length_app, closures_of_app, Hlen. reflexivity.
  - intros n c Hn. rewrite calls_of_app. cbn. rewrite Nat.add_0_r.
    apply lookup_snoc_Some in Hn as [[Hlt Hn] | [Heq Hc]].
    + rewrite lookup_insert_ne; [apply Hcells, Hn |].
      intros Hl. exact (Hfresh n c Hn (eq_sym Hl)).
    + subst c. cbn. rewrite lookup_insert_eq.
      rewrite (calls_of_unborn O p n Hwf) by lia. reflexivity.
  - intros n m c d Hn Hm Hnm.
    apply lookup_snoc_Some in Hn as [[Hltn Hn] | [Heqn Hc]];
      apply lookup_snoc_Some in Hm as [[Hltm Hm] | [Heqm Hd]].
    + exact (Hapart n m c d Hn Hm Hnm).
    + subst d. cbn. exact (Hfresh n c Hn).
    + subst c. cbn. intros Heq. exact (Hfresh m d Hm (eq_sym Heq)).
    + lia.
Qed.

Lemma consistent_invoke (p : list action) (w : world) (n : nat) :
  consistent p w -> consistent (p ++ [Invoke n]) (snd (perform (Invoke n) w)).
Proof.
  intros [Hlen Hcells Hapart]. cbn.
  destruct (w_closures w !! n) as [c |] eqn:Hc.
  - cbn. split; cbn.
    + rewrite closures_of_app. cbn. lia.
    + intros m d Hm. rewrite calls_of_app. cbn.
      destruct (Nat.eqb_spec n m) as [<- | Hne].
      * assert (d = c) as -> by congruence.
        rewrite (lookup_total_correct _ _ _ (Hcells n c Hc)).
        rewrite lookup_insert_eq. unfold int_add. rewrite wrap_add_l.
        do 2 f_equal. lia.
      * rewrite Nat.add_0_r, lookup_insert_ne; [apply Hcells, Hm |].
        exact (Hapart n m c d Hc Hm Hne).
    + exact Hapart.
  - cbn. split; cbn.
    + rewrite closures_of_app. cbn. lia.
    + intros m d Hm. rewrite calls_of_app. cbn.
      destruct (Nat.eqb_spec n m) as [<- | Hne]; [congruence |].
      rewrite Nat.add_0_r. apply Hcells, Hm.
    + exact Hapart.
Qed.

(** Whatever the client code does, the heap stays [consistent]. *)
Lemma run_consistent (h : gmap loc Z) (p : list action) :
  well_formed O p = true -> consistent p (snd (run p (mkWorld h []))).
Proof.
  induction p as [| a p IH] using rev_ind; intros Hwf.
  - apply consistent_start.
  - rewrite well_formed_app in Hwf. apply andb_prop in Hwf as [Hwf Ha].
    rewrite run_app. cbn [snd].
    assert (Hlast : forall w, snd (run [a] w) = snd (perform a w)).
    { intros w. cbn. destruct (perform a w); reflexivity. }
    rewrite Hlast. destruct a as [| n].
    + apply consistent_new; auto.
    + apply consistent_invoke; auto.
Qed.

(** The call [Invoke n] that comes after [p1] returns one more than the
    number of calls of closure [n] in [p1], whatever else [p1] did. *)
Lemma run_invoke (h : gmap loc Z) (p1 p2 : list action) (n : nat) :
  well_formed O (p1 ++ Invoke n :: p2) = true ->
  fst (run (p1 ++ Invoke n :: p2) (mkWorld h [])) !! length p1
  = Some (Some (wrap (Z.of_nat (S (calls_of n p1))))).
Proof.
  intros Hwf. rewrite well_formed_app in Hwf. apply andb_prop in Hwf as [Hwf1 Hwf2].
  cbn in Hwf2. apply andb_prop in Hwf2 as [Hn _]. apply Nat.ltb_lt in Hn.
  destruct (run_consistent h p1 Hwf1) as [Hlen Hcells _].
  rewrite run_app. cbn [fst].
  rewrite lookup_app_r by (rewrite run_length; lia).
  rewrite run_length, Nat.sub_diag.
  set (w1 := snd (run p1 (mkWorld h []))) in *.
  destruct (lookup_lt_is_Some_2 (w_closures w1) n) as [c Hc]; [lia |].
  cbn [run perform]. rewrite Hc.
  destruct (invoke c (w_heap w1)) as [v h2] eqn:Hinv.
  destruct (run p2 (mkWorld h2 (w_closures w1))) as [rs w2]. cbn.
  do 2 f_equal.
  change v with (fst (v, h2)). rewrite <- Hinv.
  rewrite (invoke_value _ _ _ (Hcells n c Hc)), wrap_add_l. f_equal. lia.
Qed.

(** C10, as the code has it.  A closure fresh from [closureReturner]
    starts with its own [i] at 0 and its [k]-th call returns [k] for
    [1 <= k <= max_int] (in general [k] reduced to [int]).  Closures from
    separate calls of [closureReturner] share nothing: in any client code
    a call of closure [n] returns one more than the number of earlier
    calls of closure [n], whatever other closures were made or called in
    between. *)
Theorem closureReturner_spec (h : gmap loc Z) (k : N) (p1 p2 : list action) (n : nat) :
  (1 <= k)%N ->
  well_formed O (p1 ++ Invoke n :: p2) = true ->
  snd (closureReturner h) !! captured_i (fst (closureReturner h)) = Some 0 /\
  h !! captured_i (fst (closureReturner h)) = None /\
  kth_call k (fst (closureReturner h)) (snd (closureReturner h)) = wrap (Z.of_N k) /\
  (Z.of_N k <= max_int ->
   kth_call k (fst (closureReturner h)) (snd (closureReturner h)) = Z.of_N k) /\
  fst (run (p1 ++ Invoke n :: p2) (mkWorld h [])) !! length p1
  = Some (Some (wrap (Z.of_nat (S (calls_of n p1))))) /\
  (Z.of_nat (S (calls_of n p1)) <= max_int ->
   fst (run (p1 ++ Invoke n :: p2) (mkWorld h [])) !! length p1
   = Some (Some (Z.of_nat (S (calls_of n p1))))).
Proof.
  intros Hk Hwf.
  split; [apply closureReturner_zero |].
  split; [apply closureReturner_fresh |].
  split; [apply kth_call_fresh, Hk |].
  split.
  - intros Hmax. rewrite kth_call_fresh by exact Hk.
    apply wrap_small. unfold is_int. rewrite min_int_eq. lia.
  - split; [apply run_invoke, Hwf |].
    intros Hmax. rewrite run_invoke by exact Hwf.
    rewrite wrap_small; [reflexivity |]. unfold is_int. rewrite min_int_eq. lia.
Qed.

(** The client code of [closureTester]: the fourth call is the first
    call of the second closure and returns 1. *)
Lemma closureReturner_spec_witness :
  kth_call 3 (fst (closureReturner ∅)) (snd (closureReturner ∅)) = 3 /\
  fst (run ([NewClosure; Invoke O; Invoke O; Invoke O; NewClosure] ++ Invoke 1%nat :: [])
         (mkWorld ∅ [])) !! 5%nat = Some (Some 1).
Proof.
  assert (Hk : (1 <= 3)%N) by lia.
  assert (Hwf : well_formed O
            ([NewClosure; Invoke O; Invoke O; Invoke O; NewClosure] ++ Invoke 1%nat :: [])
          = true) by reflexivity.
  destruct (closureReturner_spec ∅ 3
              [NewClosure; Invoke O; Invoke O; Invoke O; NewClosure] [] 1%nat Hk Hwf)
    as (_ & _ & _ & Hkth & _ & Hrun).
  split.
  - apply Hkth. rewrite max_int_eq. lia.
  - apply Hrun. rewrite max_int_eq. cbn. lia.
Defined.

(** The call number [2^63] finds [i] at [max_int]: [i++] wraps and the
    call returns [min_int], not [2^63]. *)
Lemma closure_call_overflows :
  kth_call (2 ^ 63) (fst (closureReturner ∅)) (snd (closureReturner ∅))
  = -9223372036854775808 /\
  kth_call (2 ^ 63) (fst (closureReturner ∅)) (snd (closureReturner ∅))
  <> Z.of_N (2 ^ 63).
Proof.
  rewrite kth_call_fresh by (apply N.lt_le_incl, N.ltb_lt; reflexivity).
  split; [reflexivity | discriminate].
Qed.

End ClosureFacts.

(** ** The entry point *)

Section EntryPointFacts.

Example main_prints :
  Hello.main "" = Some (String.append "hello, world" (String "010"%char "")).
Proof. reflexivity. Qed.

(** The output is 13 bytes long and ends in the line feed. *)
Example main_prints_13_bytes :
  option_map String.length (Hello.main "") = Some 13%nat /\
  option_map (fun out => String.get 12 out) (Hello.main "") = Some (Some "010"%char).
Proof. split; reflexivity. Qed.

(** What [main] writes comes after what standard output held before. *)
Lemma main_appends (stdout : string) :
  Hello.main stdout
  = Some (String.append stdout (String.append "hello, world" (String "010"%char ""))).
Proof. reflexivity. Qed.

Lemma main_calls_nothing : CallGraph.calls CallGraph.main = [].
Proof. reflexivity. Qed.

Lemma reached_only_main (f : CallGraph.func) :
  CallGraph.reached f -> f = CallGraph.main.
Proof.
  induction 1 as [| f g Hf IH Hg]; [reflexivity |].
  subst f. rewrite main_calls_nothing in Hg. destruct Hg.
Qed.

(** Dead code is not code without callers: [worker], for one, is called
    by [testSyncWithWorker], which nothing calls. *)
Example worker_has_a_caller :
  In CallGraph.worker (CallGraph.calls CallGraph.testSyncWithWorker).
Proof. cbn. auto. Qed.

(** C7.  [main] appends the 13 bytes of "hello, world" and a line feed
    (character 10) to standard output and nothing else; the one statement
    of its body calls [fmt.Printf], so its body calls no function of the
    file, and no other function of the file is reached from [main]. *)
Theorem main_spec (stdout : string) (f : CallGraph.func) :
  Hello.main stdout
  = Some (String.append stdout (String.append "hello, world" (String "010"%char ""))) /\
  option_map Hello.bytes_of (Hello.main "")
  = Some [104; 101; 108; 108; 111; 44; 32; 119; 111; 114; 108; 100; 10]%nat /\
  List.map CallGraph.target CallGraph.main_body = [CallGraph.Package "fmt" "Printf"] /\
  CallGraph.calls CallGraph.main = [] /\
  (f <> CallGraph.main -> ~ CallGraph.reached f) /\
  (CallGraph.reached f <-> f = CallGraph.main).
Proof.
  split; [apply main_appends |]. split; [reflexivity |].
  split; [reflexivity |]. split; [reflexivity |]. split.
  - intros Hne Hf. apply Hne, reached_only_main, Hf.
  - split; [apply reached_only_main | intros ->; constructor].
Qed.

Lemma main_spec_witness :
  CallGraph.worker <> CallGraph.main /\ ~ CallGraph.reached CallGraph.worker.
Proof.
  assert (Hne : CallGraph.worker <> CallGraph.main) by discriminate.
  split; [exact Hne |].
  destruct (main_spec "" CallGraph.worker) as (_ & _ & _ & _ & Hdead & _).
  apply Hdead, Hne.
Defined.

End EntryPointFacts.

(** ** [testClosingChannels] *)

Section ClosingChannelsFacts.
Import GoInt ClosingChannels.

Variable njobs : Z.
Variable capacity : nat.
Hypothesis njobs_range : 0 <= njobs < max_int.
Hypothesis capacity_pos : (0 < capacity)%nat.

Lemma seqZ_snoc (j : Z) : 1 <= j -> seqZ 1 j = seqZ 1 (j - 1) ++ [j].
Proof.
  intros Hj. replace j with ((j - 1) + 1) at 1 by lia.
  rewrite seqZ_app by lia. f_equal.
  replace (1 + (j - 1)) with j by lia. reflexivity.
Qed.

Lemma printed_jobs_app (o1 o2 : list line) :
  printed_jobs (o1 ++ o2) = printed_jobs o1 ++ printed_jobs o2.
Proof. unfold printed_jobs. apply flat_map_app. Qed.

Lemma consumer_lines_app (o1 o2 : list line) :
  consumer_lines (o1 ++ o2) = consumer_lines o1 ++ consumer_lines o2.
Proof. unfold consumer_lines. apply List.filter_app. Qed.

Lemma next_job (j : Z) : 1 <= j <= njobs -> int_add j 1 = j + 1.
Proof.
  intros Hj. apply int_add_small. unfold is_int.
  rewrite min_int_eq. lia.
Qed.

Ltac pc_facts :=
  repeat match goal with
    | |- _ <> _ => discriminate
    | |- True => exact I
    | |- ?x = ?x => reflexivity
    | |- false = true -> _ => let H := fresh in intros H; discriminate H
    | |- [] = seqZ _ 0 => reflexivity
    | |- _ <-> _ => split; intros
    | H : _ = _ \/ _ = _ |- _ => destruct H
    | H : _ = _ |- _ => discriminate H
    | |- _ = _ \/ _ = _ => solve [left; reflexivity | right; reflexivity]
    end.

Lemma invariant_init : invariant njobs init.
Proof.
  split; cbn; pc_facts.
Qed.

Ltac unfold_state :=
  unfold received, said_all, drained in *;
  cbn [mpc cpc jobs out buf closed sent closed_at] in *.

Ltac easy_field :=
  unfold_state;
  first [ assumption | lia | solve [pc_facts] | solve [intuition (discriminate || congruence || lia)] | idtac ].

(** A line of the body changes nothing the goroutine printed. *)
Lemma printed_jobs_main_line (o : list line) (l : line) :
  consumer_line l = false -> printed_jobs (o ++ [l]) = printed_jobs o.
Proof.
  intros Hl. rewrite printed_jobs_app.
  destruct l; try discriminate Hl; cbn; apply app_nil_r.
Qed.

Lemma consumer_lines_main_line (o : list line) (l : line) :
  consumer_line l = false -> consumer_lines (o ++ [l]) = consumer_lines o.
Proof.
  intros Hl. rewrite consumer_lines_app. cbn. rewrite Hl. apply app_nil_r.
Qed.

Ltac main_line :=
  rewrite ?printed_jobs_main_line, ?consumer_lines_main_line by reflexivity.

Lemma invariant_main (s s' : state) :
  invariant njobs s -> exec_main njobs capacity s = Some s' -> invariant njobs s'.
Proof.
  intros [Hpanic Hrange Hfifo Hclosed Hlines Hdrained Hidle Hret] Hexec.
  destruct s as [[b cl] m c o]. unfold exec_main in Hexec. unfold_state.
  destruct m as [| j | j | | | | | |].
  - (* go *)
    assert (c = CIdle) as -> by (apply Hidle; reflexivity).
    inversion Hexec; subst s'; clear Hexec.
    unfold loop_head. destruct (Z.leb_spec 1 njobs).
    + split; easy_field.
    + split; easy_field.
      replace njobs with 0 by lia. exact Hfifo.
  - (* jobs <- j *)
    unfold chan_send in Hexec. cbn [closed buf] in Hexec. rewrite Hclosed in Hexec.
    destruct (length b <? capacity)%nat; inversion Hexec; subst s'; clear Hexec.
    split; easy_field.
    rewrite app_assoc, Hfifo. symmetry. apply seqZ_snoc. lia.
  - (* sent job j *)
    inversion Hexec; subst s'; clear Hexec.
    rewrite next_job by exact Hrange.
    unfold loop_head. destruct (Z.leb_spec (j + 1) njobs).
    + split; easy_field; main_line.
      * replace (j + 1 - 1) with j by lia. exact Hfifo.
      * exact Hlines.
    + split; easy_field; main_line.
      * replace njobs with j by lia. exact Hfifo.
      * exact Hlines.
  - (* close(jobs) *)
    unfold chan_close in Hexec. cbn [closed buf] in Hexec. rewrite Hclosed in Hexec.
    inversion Hexec; subst s'; clear Hexec.
    split; easy_field.
  - (* sent all jobs *)
    inversion Hexec; subst s'; clear Hexec.
    split; easy_field; main_line; assumption.
  - (* <-done *)
    destruct c; inversion Hexec; subst s'; clear Hexec.
    split; easy_field.
  - (* Done processing jobs *)
    inversion Hexec; subst s'; clear Hexec.
    split; easy_field; main_line; assumption.
  - discriminate.
  - discriminate.
Qed.

Lemma invariant_consumer (s s' : state) :
  invariant njobs s -> exec_consumer s = Some s' -> invariant njobs s'.
Proof.
  intros [Hpanic Hrange Hfifo Hclosed Hlines Hdrained Hidle Hret] Hexec.
  destruct s as [[b cl] m c o]. unfold exec_consumer in Hexec. unfold_state.
  destruct c as [| | j | | |].
  - discriminate.
  - (* j, more := <-jobs *)
    unfold chan_recv in Hexec. cbn [closed buf] in Hexec.
    destruct b as [| v rest].
    + destruct cl; inversion Hexec; subst s'; clear Hexec.
      split; easy_field.
    + inversion Hexec; subst s'; clear Hexec.
      split; easy_field.
      rewrite <- Hfifo, app_nil_r, <- app_assoc. reflexivity.
  - (* received job j *)
    inversion Hexec; subst s'; clear Hexec.
    split; easy_field.
    + rewrite printed_jobs_app, app_nil_r. exact Hfifo.
    + rewrite consumer_lines_app, printed_jobs_app, map_app, Hlines, !app_nil_r.
      reflexivity.
  - (* received all jobs *)
    inversion Hexec; subst s'; clear Hexec.
    split; easy_field.
    + rewrite printed_jobs_app. cbn. rewrite app_nil_r. exact Hfifo.
    + rewrite consumer_lines_app, printed_jobs_app, Hlines. cbn.
      rewrite !app_nil_r. reflexivity.
  - (* done <- true *)
    destruct m; inversion Hexec; subst s'; clear Hexec.
    split; easy_field.
  - discriminate.
Qed.

Lemma invariant_step (s s' : state) :
  invariant njobs s -> step njobs capacity s s' -> invariant njobs s'.
Proof.
  intros Hinv [t Hexec]. unfold exec in Hexec.
  destruct (mpc s) eqn:Hm, t; try discriminate Hexec;
    eauto using invariant_main, invariant_consumer.
Qed.

(** Every state an execution passes through satisfies the invariant. *)
Lemma reachable_invariant (s : state) :
  reachable njobs capacity s -> invariant njobs s.
Proof.
  unfold reachable. intros Hreach.
  assert (Hgen : forall s0, rtc (step njobs capacity) s0 s ->
            invariant njobs s0 -> invariant njobs s).
  { clear Hreach. intros s0 Hrun.
    induction Hrun as [| s0 s1 s2 Hstep _ IH]; intros Hinv; [exact Hinv |].
    eapply IH, invariant_step; eassumption. }
  exact (Hgen init Hreach invariant_init).
Qed.

Lemma seqZ_prefix (l1 l2 : list Z) (m n : Z) :
  l1 ++ l2 = seqZ m n -> l1 = seqZ m (Z.of_nat (length l1)).
Proof.
  intros Heq.
  assert (Hlen : (length l1 + length l2 = Z.to_nat n)%nat).
  { rewrite <- length_app, Heq. apply length_seqZ. }
  destruct (Z_le_gt_dec n 0) as [Hn | Hn].
  - destruct l1; [reflexivity | cbn in Hlen; lia].
  - replace n with (Z.of_nat (length l1) + Z.of_nat (length l2)) in Heq by lia.
    rewrite seqZ_app in Heq by lia.
    apply app_inj_1 in Heq; [tauto |]. rewrite length_seqZ. lia.
Qed.

Lemma sent_range (s : state) : invariant njobs s -> 0 <= sent njobs (mpc s) <= njobs.
Proof.
  intros [Hpanic Hrange _ _ _ _ _ _]. destruct (mpc s); cbn in *; lia.
Qed.

(** The jobs received so far are [1 .. k] for some [k], each once and in
    the order sent; once the receive has returned [more = false] they are
    all of [1 .. njobs]. *)
Lemma received_so_far (s : state) :
  invariant njobs s ->
  exists k, 0 <= k <= njobs /\ received s = seqZ 1 k /\
            (drained s = true -> k = njobs).
Proof.
  intros Hinv. pose proof (sent_range s Hinv) as Hsent.
  destruct Hinv as [_ _ Hfifo _ _ Hdrained _ _].
  exists (Z.of_nat (length (received s))).
  assert (Hlen : (length (received s) + length (buf (jobs s)) = Z.to_nat (sent njobs (mpc s)))%nat).
  { rewrite <- length_app, Hfifo. apply length_seqZ. }
  split; [lia |]. split; [eapply seqZ_prefix, Hfifo |].
  intros Hd. destruct (Hdrained Hd) as [Hclosed Hbuf].
  rewrite Hbuf in Hlen. cbn in Hlen.
  destruct (mpc s); cbn in Hclosed; try discriminate Hclosed; cbn in Hlen; lia.
Qed.

Lemma received_length (s : state) :
  invariant njobs s -> 0 <= Z.of_nat (length (received s)) <= njobs.
Proof.
  intros Hinv. destruct (received_so_far s Hinv) as (k & Hk & Hrec & _).
  rewrite Hrec, length_seqZ. lia.
Qed.

(** No deadlock: as long as the function has not returned, some thread
    can move. *)
Lemma progress (s : state) :
  invariant njobs s -> finished s \/ exists s', step njobs capacity s s'.
Proof.
  intros [Hpanic Hrange Hfifo Hclosed Hlines Hdrained Hidle Hret].
  destruct s as [[b cl] m c o]. unfold finished, step, exec. unfold_state.
  destruct m as [| j | j | | | | | |].
  - right. eexists. exists Main. reflexivity.
  - subst cl. destruct (length b <? capacity)%nat eqn:Hroom.
    + right. eexists. exists Main. unfold exec_main, chan_send. cbn [mpc jobs closed buf cpc out]. rewrite Hroom. reflexivity.
    + apply Nat.ltb_ge in Hroom. destruct b as [| v rest]; [cbn in Hroom; lia |].
      destruct c.
      * exfalso. assert (MSend j = MGo) by (apply Hidle; reflexivity). discriminate.
      * right. eexists. exists Consumer. reflexivity.
      * right. eexists. exists Consumer. reflexivity.
      * destruct Hdrained; [reflexivity | discriminate].
      * destruct Hdrained; [reflexivity | discriminate].
      * destruct Hdrained; [reflexivity | discriminate].
  - right. eexists. exists Main. reflexivity.
  - subst cl. right. eexists. exists Main. reflexivity.
  - right. eexists. exists Main. reflexivity.
  - subst cl. destruct c.
    + exfalso. assert (MRecvDone = MGo) by (apply Hidle; reflexivity). discriminate.
    + right. destruct b as [| v rest]; eexists; exists Consumer; reflexivity.
    + right. eexists. exists Consumer. reflexivity.
    + right. eexists. exists Consumer. reflexivity.
    + right. eexists. exists Main. reflexivity.
    + exfalso. destruct Hret as [Hret _]. destruct Hret; [reflexivity | |]; discriminate.
  - right. eexists. exists Main. reflexivity.
  - left. split; [reflexivity |]. apply Hret. right. reflexivity.
  - contradiction.
Qed.

Ltac count_steps :=
  unfold steps_left, steps_left_main, steps_left_consumer, received, loop_head in *;
  cbn [mpc cpc jobs out buf closed] in *;
  main_line;
  rewrite ?printed_jobs_app, ?length_app in *;
  cbn [printed_jobs flat_map length app] in *;
  repeat match goal with
    | |- context [if ?a <=? ?b then _ else _] => destruct (Z.leb_spec a b)
    end;
  try match goal with c : cons_pc |- _ => destruct c end;
  cbn [length] in *;
  try lia.

(** Every step uses up at least one of the steps left. *)
Lemma steps_left_decreases (s s' : state) :
  invariant njobs s -> step njobs capacity s s' ->
  0 <= steps_left njobs s' < steps_left njobs s.
Proof.
  intros Hinv Hstep.
  pose proof (received_length s Hinv) as Hr.
  pose proof (received_length s' (invariant_step s s' Hinv Hstep)) as Hr'.
  destruct Hinv as [Hpanic Hrange Hfifo Hclosed Hlines Hdrained Hidle Hret].
  destruct Hstep as [t Hexec]. unfold exec in Hexec.
  destruct s as [[b cl] m c o]. cbn [mpc cpc jobs out buf closed] in *.
  destruct t.
  - unfold exec_main in Hexec. cbn [mpc cpc jobs out buf closed] in Hexec.
    destruct m as [| j | j | | | | | |]; try discriminate Hexec.
    + assert (c = CIdle) as -> by (apply Hidle; reflexivity).
      inversion Hexec; subst s'; clear Hexec. count_steps.
    + unfold chan_send in Hexec. cbn [closed buf] in Hexec. rewrite Hclosed in Hexec.
      cbn [closed_at] in Hexec.
      destruct (length b <? capacity)%nat; inversion Hexec; subst s'; clear Hexec.
      count_steps.
    + inversion Hexec; subst s'; clear Hexec.
      rewrite next_job in * by exact Hrange. count_steps.
    + unfold chan_close in Hexec. cbn [closed buf] in Hexec. rewrite Hclosed in Hexec.
      inversion Hexec; subst s'; clear Hexec. count_steps.
    + inversion Hexec; subst s'; clear Hexec. count_steps.
    + destruct c; inversion Hexec; subst s'; clear Hexec. count_steps.
    + inversion Hexec; subst s'; clear Hexec.
      assert (c = CReturn) as -> by (apply Hret; left; reflexivity).
      count_steps.
  - assert (Hm : exec_consumer (mkState (mkChan b cl) m c o) = Some s')
      by (destruct m; (discriminate Hexec || exact Hexec)).
    clear Hexec. unfold exec_consumer in Hm. cbn [mpc cpc jobs out buf closed] in Hm.
    assert (Hmain : 0 <= steps_left_main njobs m)
      by (destruct m; cbn in *; lia).
    destruct c as [| | j | | |]; try discriminate Hm.
    + unfold chan_recv in Hm. cbn [closed buf] in Hm.
      destruct b as [| v rest]; [destruct cl |]; inversion Hm; subst s'; clear Hm;
        count_steps.
    + inversion Hm; subst s'; clear Hm. count_steps.
    + inversion Hm; subst s'; clear Hm. count_steps.
    + destruct m; inversion Hm; subst s'; clear Hm. count_steps.
Qed.

(** No execution goes on for ever: the successor relation is
    well-founded on the states that satisfy the invariant. *)
Lemma no_infinite_run (s : state) :
  invariant njobs s -> Acc (fun s2 s1 => step njobs capacity s1 s2) s.
Proof.
  assert (Hgen : forall (n : nat) (s1 : state), invariant njobs s1 ->
            steps_left njobs s1 <= Z.of_nat n ->
            Acc (fun s2 s1 => step njobs capacity s1 s2) s1).
  { induction n as [| n IH]; intros s1 Hinv Hn; constructor; intros s2 Hstep;
      pose proof (steps_left_decreases s1 s2 Hinv Hstep) as Hdec.
    - lia.
    - apply IH; [eapply invariant_step; eassumption | lia]. }
  intros Hinv. apply (Hgen (Z.to_nat (steps_left njobs s)) s Hinv). lia.
Qed.

Lemma steps_left_init : steps_left njobs init = 4 * njobs + 12.
Proof. unfold steps_left. cbn. lia. Qed.

(** When the function has returned, the goroutine has printed each job
    once, in order, and then "received all jobs". *)
Lemma finished_output (s : state) :
  invariant njobs s -> finished s ->
  consumer_lines (out s) = map ReceivedJob (seqZ 1 njobs) ++ [ReceivedAll].
Proof.
  intros Hinv [Hm Hc].
  destruct (received_so_far s Hinv) as (k & Hk & Hrec & Hall).
  destruct Hinv as [_ _ _ _ Hlines _ _ _].
  unfold received, said_all, drained in *. rewrite Hc in *.
  rewrite app_nil_r in Hrec. rewrite Hlines, Hrec, Hall; reflexivity.
Qed.

Lemma run_schedule_reachable (sch : list tid) (s0 s : state) :
  rtc (step njobs capacity) init s0 ->
  run_schedule njobs capacity sch s0 = Some s ->
  reachable njobs capacity s.
Proof.
  revert s0. induction sch as [| t sch IH]; intros s0 Hs0 Hrun; cbn in Hrun.
  - inversion Hrun; subst. exact Hs0.
  - destruct (exec njobs capacity t s0) as [s1 |] eqn:Hexec; [| discriminate].
    apply (IH s1); [| exact Hrun].
    eapply rtc_r; [exact Hs0 | exists t; exact Hexec].
Qed.

(** C1.  In every state an execution of [testClosingChannels] passes
    through, whatever the scheduler does: the jobs the goroutine has
    received are [1 .. k] for some [k <= njobs], each once and in order;
    the goroutine's lines are one "received job" per printed job, followed
    by "received all jobs" only once it has seen the channel closed and
    empty; when the receive reports that, exactly the [njobs] jobs
    [1 .. njobs] were received before; no state short of the end is stuck
    and every step uses up one of finitely many steps left, so the end is
    reached; and at the end the goroutine's lines are "received job 1" to
    "received job njobs" and "received all jobs". *)
Theorem testClosingChannels_delivers_each_job_once (s : state) :
  reachable njobs capacity s ->
  (exists k, 0 <= k <= njobs /\ received s = seqZ 1 k /\
             (drained s = true -> k = njobs)) /\
  NoDup (received s) /\
  (drained s = true ->
   received s = seqZ 1 njobs /\ length (received s) = Z.to_nat njobs) /\
  consumer_lines (out s)
  = map ReceivedJob (printed_jobs (out s))
    ++ (if said_all s then [ReceivedAll] else []) /\
  (finished s \/ exists s', step njobs capacity s s') /\
  (forall s', step njobs capacity s s' ->
     0 <= steps_left njobs s' < steps_left njobs s) /\
  Acc (fun s2 s1 => step njobs capacity s1 s2) s /\
  (finished s ->
   consumer_lines (out s) = map ReceivedJob (seqZ 1 njobs) ++ [ReceivedAll]).
Proof.
  intros Hreach. pose proof (reachable_invariant s Hreach) as Hinv.
  destruct (received_so_far s Hinv) as (k & Hk & Hrec & Hall).
  split; [exists k; auto |].
  split; [rewrite Hrec; apply NoDup_seqZ |].
  split.
  { intros Hd. rewrite Hrec, (Hall Hd), length_seqZ. split; reflexivity. }
  split; [apply Hinv |].
  split; [apply progress, Hinv |].
  split; [intros s' Hstep; apply steps_left_decreases; assumption |].
  split; [apply no_infinite_run, Hinv |].
  apply finished_output, Hinv.
Qed.

Lemma exec_unfold (t : tid) (s : state) :
  mpc s <> MPanic ->
  exec njobs capacity t s
  = match t with
    | Main => exec_main njobs capacity s
    | Consumer => exec_consumer s
    end.
Proof. intros Hm. unfold exec. destruct (mpc s); congruence. Qed.

(** No channel operation of the function ever panics. *)
Lemma never_panics (s : state) : reachable njobs capacity s -> mpc s <> MPanic.
Proof. intros Hreach. apply reachable_invariant, Hreach. Qed.

(** Sending a job.  No send of the function fails: when the body stands
    at [jobs <- j],
    the goroutine that handles the jobs has been started, the jobs
    [1 .. j-1] are received or queued, the send does not panic, and it is
    accepted as soon as the buffer has room, whether or not the goroutine
    has begun to receive; it waits only while the buffer is full, and then
    the goroutine can move.  Every job sent, early or late, is printed by
    the goroutine, in the order sent, before the function returns. *)
Theorem send_accepted_before_and_after_draining (s s_end : state) (j : Z) :
  reachable njobs capacity s ->
  mpc s = MSend j ->
  1 <= j <= njobs /\
  cpc s <> CIdle /\
  received s ++ buf (jobs s) = seqZ 1 (j - 1) /\
  chan_send capacity (jobs s) j <> SendPanics /\
  ((length (buf (jobs s)) < capacity)%nat ->
   exec njobs capacity Main s
   = Some (mkState (mkChan (buf (jobs s) ++ [j]) false) (MPrintSent j) (cpc s) (out s))) /\
  ((capacity <= length (buf (jobs s)))%nat ->
   exec njobs capacity Main s = None /\
   exists s', exec njobs capacity Consumer s = Some s') /\
  (reachable njobs capacity s_end -> finished s_end ->
   printed_jobs (out s_end) = seqZ 1 njobs).
Proof.
  intros Hreach Hm. pose proof (reachable_invariant s Hreach) as Hinv.
  pose proof (progress s Hinv) as Hprog.
  destruct Hinv as [Hpanic Hrange Hfifo Hclosed Hlines Hdrained Hidle Hret].
  rewrite Hm in Hfifo, Hclosed, Hrange. cbn [sent closed_at] in Hfifo, Hclosed.
  assert (Hsend : exec njobs capacity Main s
            = match chan_send capacity (jobs s) j with
              | SendOk ch => Some (mkState ch (MPrintSent j) (cpc s) (out s))
              | SendBlocks => None
              | SendPanics => Some (mkState (jobs s) MPanic (cpc s) (out s))
              end).
  { rewrite exec_unfold by exact Hpanic. unfold exec_main. rewrite Hm. reflexivity. }
  split; [exact Hrange |].
  split; [intros Hc; apply Hidle in Hc; congruence |].
  split; [exact Hfifo |]. split; [| split; [| split]].
  - unfold chan_send. rewrite Hclosed. destruct (length (buf (jobs s)) <? capacity)%nat; discriminate.
  - intros Hroom. rewrite Hsend. unfold chan_send. rewrite Hclosed.
    apply Nat.ltb_lt in Hroom. rewrite Hroom. reflexivity.
  - intros Hfull. assert (Hblocked : exec njobs capacity Main s = None).
    { rewrite Hsend. unfold chan_send. rewrite Hclosed.
      apply Nat.ltb_ge in Hfull. rewrite Hfull. reflexivity. }
    split; [exact Hblocked |].
    destruct Hprog as [[Hfin _] | [s' [t Ht]]]; [congruence |].
    destruct t; [congruence | eauto].
  - intros Hend Hfin.
    pose proof (reachable_invariant s_end Hend) as Hinv_end.
    destruct (received_so_far s_end Hinv_end) as (k & Hk & Hrec & Hall).
    destruct Hfin as [_ Hc]. unfold received, drained in *. rewrite Hc in *.
    rewrite app_nil_r in Hrec. rewrite Hrec, Hall; reflexivity.
Qed.

(** Receiving the end.  When the goroutine stands at
    [j, more := <-jobs], the receive reports the end ([more = false])
    exactly when the channel is closed and empty, and then every job
    [1 .. njobs] has been received and printed.  On an empty channel that
    is not closed yet the receive waits, also when every job has been
    delivered already, and the body can move on towards [close(jobs)].
    With no job to send nothing but the end is ever received. *)
Theorem receive_reports_the_end_after_close (s : state) :
  reachable njobs capacity s ->
  cpc s = CRecv ->
  (forall s', exec njobs capacity Consumer s = Some s' ->
     (cpc s' = CPrintAll <-> closed (jobs s) = true /\ buf (jobs s) = [])) /\
  (closed (jobs s) = true -> buf (jobs s) = [] ->
   (exists s', exec njobs capacity Consumer s = Some s' /\ cpc s' = CPrintAll) /\
   printed_jobs (out s) = seqZ 1 njobs) /\
  (closed (jobs s) = false -> buf (jobs s) = [] ->
   exec njobs capacity Consumer s = None /\
   exists s', exec njobs capacity Main s = Some s') /\
  (njobs = 0 -> received s = []).
Proof.
  intros Hreach Hc. pose proof (reachable_invariant s Hreach) as Hinv.
  pose proof (progress s Hinv) as Hprog.
  pose proof (received_so_far s Hinv) as (k & Hk & Hrec & Hall).
  pose proof (sent_range s Hinv) as Hsent.
  destruct Hinv as [Hpanic Hrange Hfifo Hclosed Hlines Hdrained Hidle Hret].
  assert (Hrecv : exec njobs capacity Consumer s
            = match chan_recv (jobs s) with
              | RecvOk v true ch => Some (mkState ch (mpc s) (CPrintJob v) (out s))
              | RecvOk _ false ch => Some (mkState ch (mpc s) CPrintAll (out s))
              | RecvBlocks => None
              end).
  { rewrite exec_unfold by exact Hpanic. unfold exec_consumer. rewrite Hc. reflexivity. }
  unfold chan_recv in Hrecv.
  split; [| split; [| split]].
  - intros s' Hs'. rewrite Hrecv in Hs'.
    destruct (buf (jobs s)) as [| v rest]; [destruct (closed (jobs s)) |];
      inversion Hs'; subst s'; cbn; intuition (discriminate || congruence).
  - intros Hcl Hbuf. split.
    + rewrite Hrecv, Hbuf, Hcl. eexists. split; reflexivity.
    + unfold received in *. rewrite Hc in *. rewrite app_nil_r in *.
      rewrite Hbuf, app_nil_r in Hfifo. rewrite Hfifo. f_equal.
      rewrite Hcl in Hclosed. destruct (mpc s); cbn in *; (discriminate || reflexivity).
  - intros Hcl Hbuf.
    assert (Hblocked : exec njobs capacity Consumer s = None)
      by (rewrite Hrecv, Hbuf, Hcl; reflexivity).
    split; [exact Hblocked |].
    destruct Hprog as [[_ Hfin] | [s' [t Ht]]]; [congruence |].
    destruct t; [eauto | congruence].
  - intros Hzero. rewrite Hrec. apply seqZ_nil. lia.
Qed.

End ClosingChannelsFacts.

(** *** The function as written: three jobs, capacity five *)

Section SourceInstance.
Import GoInt ClosingChannels.

Lemma source_njobs_range : 0 <= source_njobs < max_int.
Proof. unfold source_njobs. rewrite max_int_eq. lia. Qed.

Lemma source_capacity_pos : (0 < source_capacity)%nat.
Proof. unfold source_capacity. lia. Qed.

Lemma reachable_by_schedule (sch : list tid) (s : state) :
  run_schedule source_njobs source_capacity sch (init) = Some s ->
  reachable source_njobs source_capacity s.
Proof.
  apply run_schedule_reachable. apply rtc_refl.
Qed.

Example producer_first_run :
  run_schedule source_njobs source_capacity producer_first init
  = Some (mkState (mkChan [] true) MExit CReturn
            [SentJob 1; SentJob 2; SentJob 3; SentAll;
             ReceivedJob 1; ReceivedJob 2; ReceivedJob 3; ReceivedAll;
             DoneProcessing]).
Proof. vm_compute. reflexivity. Qed.

Example consumer_starts_early_run :
  run_schedule source_njobs source_capacity consumer_starts_early init
  = Some (mkState (mkChan [] false) (MSend 2) (CPrintJob 1) [SentJob 1]).
Proof. vm_compute. reflexivity. Qed.

Example consumer_catches_up_run :
  run_schedule source_njobs source_capacity consumer_catches_up init
  = Some (mkState (mkChan [] false) MClose CRecv
            [SentJob 1; SentJob 2; SentJob 3;
             ReceivedJob 1; ReceivedJob 2; ReceivedJob 3]).
Proof. vm_compute. reflexivity. Qed.

Lemma testClosingChannels_delivers_each_job_once_witness :
  reachable source_njobs source_capacity
    (mkState (mkChan [] true) MExit CReturn
       [SentJob 1; SentJob 2; SentJob 3; SentAll;
        ReceivedJob 1; ReceivedJob 2; ReceivedJob 3; ReceivedAll;
        DoneProcessing]) /\
  received
    (mkState (mkChan [] true) MExit CReturn
       [SentJob 1; SentJob 2; SentJob 3; SentAll;
        ReceivedJob 1; ReceivedJob 2; ReceivedJob 3; ReceivedAll;
        DoneProcessing]) = seqZ 1 source_njobs.
Proof.
  pose proof (reachable_by_schedule _ _ producer_first_run) as Hreach.
  split; [exact Hreach |].
  destruct (testClosingChannels_delivers_each_job_once
              source_njobs source_capacity source_njobs_range source_capacity_pos
              _ Hreach) as (_ & _ & Hall & _).
  apply Hall. reflexivity.
Defined.

(** In [testClosingChannels] the send of job 2 can come after the
    goroutine has begun to receive: it is accepted, nothing fails. *)
Lemma send_after_first_receive_is_accepted :
  run_schedule source_njobs source_capacity consumer_starts_early init
  = Some (mkState (mkChan [] false) (MSend 2) (CPrintJob 1) [SentJob 1]) /\
  received (mkState (mkChan [] false) (MSend 2) (CPrintJob 1) [SentJob 1]) = [1] /\
  exec source_njobs source_capacity Main
    (mkState (mkChan [] false) (MSend 2) (CPrintJob 1) [SentJob 1])
  = Some (mkState (mkChan [2] false) (MPrintSent 2) (CPrintJob 1) [SentJob 1]).
Proof. split; [exact consumer_starts_early_run |]. split; reflexivity. Qed.

Lemma send_accepted_before_and_after_draining_witness :
  reachable source_njobs source_capacity
    (mkState (mkChan [] false) (MSend 2) (CPrintJob 1) [SentJob 1]) /\
  exec source_njobs source_capacity Main
    (mkState (mkChan [] false) (MSend 2) (CPrintJob 1) [SentJob 1])
  = Some (mkState (mkChan ([] ++ [2]) false) (MPrintSent 2) (CPrintJob 1) [SentJob 1]).
Proof.
  pose proof (reachable_by_schedule _ _ consumer_starts_early_run) as Hreach.
  split; [exact Hreach |].
  destruct (send_accepted_before_and_after_draining
              source_njobs source_capacity source_njobs_range source_capacity_pos
              _ init 2 Hreach eq_refl) as (_ & _ & _ & _ & Hroom & _).
  apply Hroom. cbn. unfold source_capacity. lia.
Defined.

(** In [testClosingChannels] the goroutine can have printed all three
    jobs while the channel is still open: the receive then waits for the
    [close(jobs)] of the body, and reports the end after it. *)
Lemma receive_waits_although_all_jobs_delivered :
  run_schedule source_njobs source_capacity consumer_catches_up init
  = Some (mkState (mkChan [] false) MClose CRecv
            [SentJob 1; SentJob 2; SentJob 3;
             ReceivedJob 1; ReceivedJob 2; ReceivedJob 3]) /\
  printed_jobs [SentJob 1; SentJob 2; SentJob 3;
                ReceivedJob 1; ReceivedJob 2; ReceivedJob 3] = seqZ 1 source_njobs /\
  exec source_njobs source_capacity Consumer
    (mkState (mkChan [] false) MClose CRecv
       [SentJob 1; SentJob 2; SentJob 3;
        ReceivedJob 1; ReceivedJob 2; ReceivedJob 3]) = None.
Proof. split; [exact consumer_catches_up_run |]. split; reflexivity. Qed.

Lemma receive_reports_the_end_after_close_witness :
  reachable source_njobs source_capacity
    (mkState (mkChan [] false) MClose CRecv
       [SentJob 1; SentJob 2; SentJob 3;
        ReceivedJob 1; ReceivedJob 2; ReceivedJob 3]) /\
  exec source_njobs source_capacity Consumer
    (mkState (mkChan [] false) MClose CRecv
       [SentJob 1; SentJob 2; SentJob 3;
        ReceivedJob 1; ReceivedJob 2; ReceivedJob 3]) = None.
Proof.
  pose proof (reachable_by_schedule _ _ consumer_catches_up_run) as Hreach.
  split; [exact Hreach |].
  destruct (receive_reports_the_end_after_close
              source_njobs source_capacity source_njobs_range source_capacity_pos
              _ Hreach eq_refl) as (_ & _ & Hwait & _).
  apply Hwait; reflexivity.
Defined.

End SourceInstance.

(** ** Plain functions *)

Section FunctionFacts.
Import GoInt Functions.

Lemma wrap_add_r a b : wrap (a + wrap b) = wrap (a + b).
Proof. rewrite Z.add_comm, wrap_add_l, Z.add_comm. reflexivity. Qed.

Lemma wrap_idem a : wrap (wrap a) = wrap a.
Proof. apply wrap_small, wrap_is_int. Qed.

(** X1.  [moreAdding] is [addStuff] twice, in either grouping and in any
    order of the arguments, also when a partial sum overflows; the result
    is the exact sum whenever that is an [int]. *)
Theorem moreAdding_addStuff (a b c : Z) :
  moreAdding a b c = addStuff (addStuff a b) c /\
  moreAdding a b c = addStuff a (addStuff b c) /\
  moreAdding a b c = moreAdding c a b /\
  moreAdding a b c = moreAdding b a c /\
  addStuff a b = addStuff b a /\
  is_int (moreAdding a b c) /\
  (is_int (a + b + c) -> moreAdding a b c = a + b + c).
Proof.
  unfold moreAdding, addStuff, int_add.
  rewrite !wrap_add_l, !wrap_add_r.
  repeat split; try (f_equal; lia); try apply wrap_is_int.
  intros Hint. apply wrap_small, Hint.
Qed.

(** Both partial sums overflow here and the total is still exact. *)
Lemma moreAdding_addStuff_witness :
  is_int (max_int + 1 + -1) /\ moreAdding max_int 1 (-1) = max_int + 1 + -1.
Proof.
  assert (Hint : is_int (max_int + 1 + -1))
    by (unfold is_int; rewrite min_int_eq, max_int_eq; lia).
  split; [exact Hint |].
  destruct (moreAdding_addStuff max_int 1 (-1)) as (_ & _ & _ & _ & _ & _ & Hexact).
  apply Hexact, Hint.
Defined.

Lemma sum_loop_from (nums : list Z) (total : Z) :
  fold_left (fun t num => int_add t num) nums (wrap total)
  = wrap (total + foldr Z.add 0 nums).
Proof.
  revert total. induction nums as [| n nums IH]; intros total; cbn.
  - rewrite Z.add_0_r. reflexivity.
  - unfold int_add at 2. rewrite wrap_add_l, IH. f_equal. lia.
Qed.

Lemma sum_loop_exact (nums : list Z) : sum_loop nums = wrap (foldr Z.add 0 nums).
Proof.
  unfold sum_loop. change 0 with (wrap 0) at 1. rewrite sum_loop_from. reflexivity.
Qed.

Lemma foldr_add_app (l1 l2 : list Z) :
  foldr Z.add 0 (l1 ++ l2) = foldr Z.add 0 l1 + foldr Z.add 0 l2.
Proof. induction l1 as [| x l1 IH]; cbn; lia. Qed.

Lemma foldr_add_perm (l1 l2 : list Z) :
  Permutation l1 l2 -> foldr Z.add 0 l1 = foldr Z.add 0 l2.
Proof. induction 1; cbn; lia. Qed.

Example testVariadicFunction_prints :
  testVariadicFunction = [([1; 2; 3], 6); ([1; 2; 3; 4], 10)].
Proof. reflexivity. Qed.

(** X2.  The total [variadicFunctionForSumming] prints is the sum of its
    arguments reduced to [int], so 0 for no argument; it does not depend
    on the order of the arguments, and the total of two argument lists put
    together is the [int] sum of their totals; the slice is printed as
    passed. *)
Theorem variadicFunctionForSumming_total (nums more : list Z) :
  fst (variadicFunctionForSumming nums) = nums /\
  snd (variadicFunctionForSumming nums) = wrap (foldr Z.add 0 nums) /\
  snd (variadicFunctionForSumming []) = 0 /\
  (Permutation nums more ->
   snd (variadicFunctionForSumming nums) = snd (variadicFunctionForSumming more)) /\
  snd (variadicFunctionForSumming (nums ++ more))
  = int_add (snd (variadicFunctionForSumming nums))
            (snd (variadicFunctionForSumming more)) /\
  (is_int (foldr Z.add 0 nums) ->
   snd (variadicFunctionForSumming nums) = foldr Z.add 0 nums).
Proof.
  cbn [fst snd variadicFunctionForSumming]. rewrite !sum_loop_exact.
  split; [reflexivity |]. split; [reflexivity |]. split; [reflexivity |].
  split; [| split].
  - intros Hperm. rewrite (foldr_add_perm _ _ Hperm). reflexivity.
  - rewrite foldr_add_app. unfold int_add. rewrite wrap_add_l, wrap_add_r. reflexivity.
  - apply wrap_small.
Qed.

Lemma variadicFunctionForSumming_total_witness :
  Permutation [1; 2; 3] [3; 1; 2] /\
  snd (variadicFunctionForSumming [1; 2; 3]) = snd (variadicFunctionForSumming [3; 1; 2]).
Proof.
  assert (Hperm : Permutation [1; 2; 3] [3; 1; 2]).
  { apply Permutation_sym. apply (Permutation_cons_app [1; 2] [] 3). reflexivity. }
  split; [exact Hperm |].
  destruct (variadicFunctionForSumming_total [1; 2; 3] [3; 1; 2])
    as (_ & _ & _ & Hp & _).
  apply Hp, Hperm.
Defined.

End FunctionFacts.

Section MoreFunctionFacts.
Import GoInt Functions Factorial Errors.

Example testMethodStruct_prints :
  testMethodStruct = [Some 70; Some 2017; Some 70; Some 2017].
Proof. reflexivity. Qed.

(** X4.  The methods of [dog].  [yearOfBirth] panics on a nil receiver and
    otherwise returns a year that, with the age added back, is 2019 again,
    also when the subtraction overflowed; it is exactly [2019 - age] for
    every age from [2019 - max_int] up.  [healthFactor] does not care
    which of the two fields is which and is the exact product whenever
    that is an [int]. *)
Theorem dog_methods (d : dog) :
  is_int (age d) ->
  yearOfBirth None = None /\
  (exists y, yearOfBirth (Some d) = Some y /\ is_int y /\ int_add y (age d) = 2019) /\
  (2019 - max_int <= age d -> yearOfBirth (Some d) = Some (2019 - age d)) /\
  healthFactor d = healthFactor (mkDog (name d) (weight d) (age d)) /\
  (is_int (age d * weight d) -> healthFactor d = age d * weight d).
Proof.
  intros Hage. split; [reflexivity |]. split; [| split; [| split]].
  - exists (int_sub 2019 (age d)). split; [reflexivity |].
    split; [apply wrap_is_int |].
    unfold int_add, int_sub. rewrite wrap_add_l.
    replace (2019 - age d + age d) with 2019 by lia. reflexivity.
  - intros Hlow. cbn. f_equal. apply int_sub_small.
    unfold is_int in *. rewrite min_int_eq, max_int_eq in *. lia.
  - unfold healthFactor, int_mul. cbn. rewrite Z.mul_comm. reflexivity.
  - intros Hint. apply wrap_small, Hint.
Qed.

Lemma dog_methods_witness :
  is_int 2 /\ yearOfBirth (Some (mkDog "Sam" 2 35)) = Some (2019 - 2).
Proof.
  assert (Hint : is_int 2) by (unfold is_int; rewrite min_int_eq, max_int_eq; lia).
  split; [exact Hint |].
  destruct (dog_methods (mkDog "Sam" 2 35) Hint) as (_ & _ & Hexact & _).
  apply Hexact. rewrite max_int_eq. cbn. lia.
Defined.

Lemma somethingToRun_from_spec (fuel : nat) :
  forall (name : string) (loops i : Z) (printed : list (string * Z)),
  is_int loops -> 0 <= i ->
  (Z.to_nat (loops - i) < fuel)%nat ->
  somethingToRun_from fuel name loops i printed
  = Some (printed ++ map (pair name) (seqZ i (loops - i))).
Proof.
  induction fuel as [| fuel IH]; intros name loops i printed Hint Hi Hfuel; [lia |].
  cbn [somethingToRun_from]. destruct (Z.ltb_spec i loops) as [Hlt | Hge].
  - assert (Hnext : int_add i 1 = i + 1).
    { apply int_add_small. unfold is_int in *. rewrite min_int_eq in *. lia. }
    rewrite Hnext, IH by (assumption || lia).
    rewrite (seqZ_cons i (loops - i)) by lia.
    replace (Z.succ i) with (i + 1) by lia.
    replace (Z.pred (loops - i)) with (loops - (i + 1)) by lia.
    rewrite <- app_assoc. reflexivity.
  - rewrite seqZ_nil by lia. cbn. rewrite app_nil_r. reflexivity.
Qed.

(** X7.  [somethingToRun(name, loops)] always comes to an end: it prints the
    lines [name : 0] to [name : loops-1], in this order, and nothing at
    all when [loops] is zero or negative; the counter never overflows. *)
Theorem somethingToRun_prints (name : string) (loops : Z) (fuel : nat) :
  is_int loops ->
  (Z.to_nat loops < fuel)%nat ->
  somethingToRun fuel name loops = Some (map (pair name) (seqZ 0 loops)) /\
  (loops <= 0 -> somethingToRun fuel name loops = Some []) /\
  (forall printed, somethingToRun fuel name loops = Some printed ->
     length printed = Z.to_nat loops).
Proof.
  intros Hint Hfuel.
  assert (Hrun : somethingToRun fuel name loops = Some (map (pair name) (seqZ 0 loops))).
  { unfold somethingToRun. rewrite somethingToRun_from_spec by (assumption || lia).
    rewrite Z.sub_0_r. reflexivity. }
  split; [exact Hrun |]. split.
  - intros Hle. rewrite Hrun, seqZ_nil by lia. reflexivity.
  - intros printed Hp. rewrite Hrun in Hp. injection Hp as <-.
    rewrite length_map, length_seqZ. reflexivity.
Qed.

(** The two calls of [testGoRoutines]. *)
Lemma somethingToRun_prints_witness :
  is_int 3 /\
  somethingToRun 4 "sync" 3 = Some [("sync", 0); ("sync", 1); ("sync", 2)].
Proof.
  assert (Hint : is_int 3) by (unfold is_int; rewrite min_int_eq, max_int_eq; lia).
  split; [exact Hint |].
  assert (Hfuel : (Z.to_nat 3 < 4)%nat) by (cbn; lia).
  destruct (somethingToRun_prints "sync" 3 4 Hint Hfuel) as (Hrun & _).
  exact Hrun.
Defined.

Lemma factorial_from_66 (n : nat) : (66 <= n)%nat -> wrap (factorial n) = 0.
Proof.
  induction 1 as [| m Hm IH].
  - vm_compute. reflexivity.
  - change (factorial (S m)) with (Z.of_nat (S m) * factorial m).
    rewrite <- wrap_mul_r, IH, Z.mul_0_r. reflexivity.
Qed.

Example recursiveFunction_65 : recursiveFunction 66 65 = Some min_int.
Proof. vm_compute. reflexivity. Qed.

(** X3.  From [n = 66] on [recursiveFunction] returns 0: [n!] is then a
    multiple of [2^64]. *)
Theorem recursiveFunction_zero_from_66 (n : Z) (depth : nat) :
  is_int n -> 66 <= n -> (Z.to_nat n < depth)%nat ->
  recursiveFunction depth n = Some 0.
Proof.
  intros Hint Hn Hdepth.
  rewrite <- (Z2Nat.id n) at 1 by lia.
  rewrite recursiveFunction_nat; [| rewrite Z2Nat.id by lia; apply Hint | exact Hdepth].
  f_equal. apply factorial_from_66. lia.
Qed.

Lemma recursiveFunction_zero_from_66_witness :
  is_int 66 /\ recursiveFunction 67 66 = Some 0.
Proof.
  assert (Hint : is_int 66) by (unfold is_int; rewrite min_int_eq, max_int_eq; lia).
  split; [exact Hint |].
  apply (recursiveFunction_zero_from_66 66 67 Hint); [lia | vm_compute; lia].
Defined.

(** X5.  The type assertion of [testErrors] from [error] to a pointer to
    [customError]: it never passes on an error of
    [functionWithDefaultError], it passes on the error of
    [functionWithCustomError] exactly when there is one, and the fields it
    then gives are the argument and the fixed message. *)
Theorem customError_assertion (a : Z) :
  assert_customError (snd (functionWithDefaultError a)) = None /\
  (is_Some (assert_customError (snd (functionWithCustomError a))) <-> a = 13) /\
  (forall c, assert_customError (snd (functionWithCustomError a)) = Some c ->
     arg c = a /\ prob c = "just can't do it bro") /\
  (assert_customError (snd (functionWithCustomError a)) = None <->
   snd (functionWithCustomError a) = None).
Proof.
  unfold functionWithDefaultError, functionWithCustomError.
  destruct (Z.eqb_spec a 13) as [-> | Hne]; cbn.
  - split; [reflexivity |]. split; [split; eauto |]. split.
    + intros c Hc. injection Hc as <-. split; reflexivity.
    + split; discriminate.
  - split; [reflexivity |]. split; [| split].
    + split; [intros [c Hc]; discriminate | contradiction].
    + intros c Hc. discriminate.
    + split; reflexivity.
Qed.

End MoreFunctionFacts.

(** ** Channels used by one goroutine *)

Section ChannelFacts.
Import Channels.

Lemma send_room {A : Type} (q : list A) (cap : nat) (v : A) :
  (length q < cap)%nat ->
  send (mkChannel q cap false) v = Done (mkChannel (q ++ [v]) cap false).
Proof.
  intros Hroom. unfold send. cbn [shut queue capacity].
  apply Nat.ltb_lt in Hroom. rewrite Hroom. reflexivity.
Qed.

Lemma send_full {A : Type} (q : list A) (cap : nat) (v : A) :
  (cap <= length q)%nat -> send (mkChannel q cap false) v = Blocked.
Proof.
  intros Hfull. unfold send. cbn [shut queue capacity].
  apply Nat.ltb_ge in Hfull. rewrite Hfull. reflexivity.
Qed.

(** [pong] forwards the oldest message of the channel it reads. *)
Lemma pong_forwards (q1 q2 : list string) (cap1 cap2 : nat) (b : bool) (m : string) :
  (length q1 < cap1)%nat ->
  pong (mkChannel q1 cap1 false) (mkChannel (m :: q2) cap2 b)
  = Done (mkChannel (q1 ++ [m]) cap1 false, mkChannel q2 cap2 b).
Proof.
  intros Hroom. unfold pong. cbn [recv queue capacity shut].
  rewrite send_room by exact Hroom. reflexivity.
Qed.

Example testChannelDirections_prints :
  testChannelDirections = Done (["my sweet message"], make 1, make 1).
Proof. reflexivity. Qed.

(** X10.  [testChannelDirections] hands its message through both channels
    unchanged and leaves them empty, whatever the message, as long as both
    channels have a buffer; with an unbuffered first or second channel the
    goroutine waits for ever at the send in [ping] or in [pong].  In
    general [pong] moves the oldest message of the channel it reads to the
    end of the channel it writes. *)
Theorem testChannelDirections_forwards (cap1 cap2 : nat) (msg : string) :
  ((0 < cap1)%nat -> (0 < cap2)%nat ->
   testChannelDirections_with cap1 cap2 msg = Done ([msg], make cap1, make cap2)) /\
  (cap1 = O -> ping (make cap1) msg = Blocked /\
               testChannelDirections_with cap1 cap2 msg = Blocked) /\
  ((0 < cap1)%nat -> cap2 = O ->
   testChannelDirections_with cap1 cap2 msg = Blocked) /\
  (forall q1 q2 b m, (length q1 < cap1)%nat ->
     pong (mkChannel q1 cap1 false) (mkChannel (m :: q2) cap2 b)
     = Done (mkChannel (q1 ++ [m]) cap1 false, mkChannel q2 cap2 b)).
Proof.
  unfold testChannelDirections_with, ping, make.
  split; [| split; [| split]].
  - intros H1 H2. rewrite send_room by exact H1. cbn [app].
    rewrite pong_forwards by exact H2. reflexivity.
  - intros ->. split; reflexivity.
  - intros H1 ->. rewrite send_room by exact H1. reflexivity.
  - intros q1 q2 b m Hroom. apply pong_forwards, Hroom.
Qed.

Lemma testChannelDirections_forwards_witness :
  testChannelDirections_with 1 1 "my sweet message"
  = Done (["my sweet message"], make 1, make 1).
Proof.
  destruct (testChannelDirections_forwards 1 1 "my sweet message") as (Hok & _).
  apply Hok; lia.
Defined.

Lemma send_all_fits {A : Type} (vals q : list A) (cap : nat) :
  (length q + length vals <= cap)%nat ->
  send_all (mkChannel q cap false) vals = Done (mkChannel (q ++ vals) cap false).
Proof.
  revert q. induction vals as [| v vals IH]; intros q Hfit; cbn [send_all].
  - rewrite app_nil_r. reflexivity.
  - cbn in Hfit. rewrite send_room by lia.
    rewrite IH by (rewrite length_app; cbn; lia).
    rewrite <- app_assoc. reflexivity.
Qed.

Lemma send_all_overflows {A : Type} (vals q : list A) (cap : nat) :
  (length q <= cap)%nat -> (cap < length q + length vals)%nat ->
  send_all (mkChannel q cap false) vals = Blocked.
Proof.
  revert q. induction vals as [| v vals IH]; intros q Hq Hover; cbn [send_all].
  - cbn in Hover. lia.
  - cbn in Hover. destruct (Nat.eq_dec (length q) cap) as [Heq | Hne].
    + rewrite send_full by lia. reflexivity.
    + rewrite send_room by lia. apply IH; rewrite length_app; cbn; lia.
Qed.

Lemma range_over_queue {A : Type} (zero : A) (fuel : nat) :
  forall (q printed : list A) (cap : nat) (b : bool),
  (length q < fuel)%nat ->
  range_over fuel zero (mkChannel q cap b) printed
  = Some (if b then Done (printed ++ q) else Blocked).
Proof.
  induction fuel as [| fuel IH]; intros q printed cap b Hfuel; [lia |].
  destruct q as [| v q]; cbn [range_over recv queue capacity shut].
  - destruct b; [rewrite app_nil_r |]; reflexivity.
  - cbn in Hfuel. rewrite IH by lia. rewrite <- app_assoc. reflexivity.
Qed.

Example showRangeWithChannels_prints :
  showRangeWithChannels 4 = Some (Done ["1"; "2"; "3"]).
Proof. reflexivity. Qed.

(** X11.  [showRangeWithChannels]: whatever values are sent, if they fit into
    the buffer the loop over the closed channel prints exactly them, in
    the order sent, and ends; without the [close] the loop would wait for
    ever once the values are used up; and values that do not fit make the
    goroutine wait for ever at a send, before anything is printed. *)
Theorem showRangeWithChannels_drains (fuel cap : nat) (vals : list string) :
  (length vals < fuel)%nat ->
  ((length vals <= cap)%nat ->
   showRangeWithChannels_with fuel cap vals true = Some (Done vals) /\
   showRangeWithChannels_with fuel cap vals false = Some Blocked) /\
  ((cap < length vals)%nat ->
   forall closing, showRangeWithChannels_with fuel cap vals closing = Some Blocked).
Proof.
  intros Hfuel. unfold showRangeWithChannels_with, make. split.
  - intros Hfit. rewrite send_all_fits by (cbn; lia). cbn [app close shut queue capacity].
    rewrite !range_over_queue by exact Hfuel. split; reflexivity.
  - intros Hover closing. rewrite send_all_overflows by (cbn; lia). reflexivity.
Qed.

Lemma showRangeWithChannels_drains_witness :
  showRangeWithChannels_with 4 3 ["1"; "2"; "3"] true = Some (Done ["1"; "2"; "3"]).
Proof.
  assert (Hfuel : (length ["1"; "2"; "3"] < 4)%nat) by (cbn; lia).
  destruct (showRangeWithChannels_drains 4 3 ["1"; "2"; "3"] Hfuel) as (Hfit & _).
  apply Hfit. cbn. lia.
Defined.

End ChannelFacts.

(** ** [testSyncWithWorker] *)

Section SyncWorkerFacts.
Import Channels SyncWorker.

Lemma course_closed (s s' : state) : In s course -> step s s' -> In s' course.
Proof.
  intros Hs [t Hexec]. unfold course in Hs. cbn [In] in Hs.
  repeat (destruct Hs as [<- | Hs]; [destruct t; cbn in Hexec; try discriminate Hexec;
    injection Hexec as <-; unfold course; cbn [In]; auto 10 |]).
  contradiction.
Qed.

Lemma reachable_course (s : state) : reachable s -> In s course.
Proof.
  unfold reachable. intros Hreach.
  assert (Hgen : forall s0, rtc step s0 s -> In s0 course -> In s course).
  { clear Hreach. intros s0 Hrun.
    induction Hrun as [| s0 s1 s2 Hstep _ IH]; intros Hin; [exact Hin |].
    eapply IH, course_closed; eassumption. }
  apply (Hgen init Hreach). cbn. tauto.
Qed.

Lemma course_reachable (s : state) : In s course -> reachable s.
Proof.
  unfold reachable.
  assert (H0 : rtc step init (mkState (make 1) MGo WIdle [])) by apply rtc_refl.
  assert (H1 : rtc step init (mkState (make 1) MRecvDone WPrintWorking []))
    by (eapply rtc_r; [exact H0 | exists Main; reflexivity]).
  assert (H2 : rtc step init (mkState (make 1) MRecvDone WSleep ["working..."]))
    by (eapply rtc_r; [exact H1 | exists Worker; reflexivity]).
  assert (H3 : rtc step init (mkState (make 1) MRecvDone WPrintDone ["working..."]))
    by (eapply rtc_r; [exact H2 | exists Worker; reflexivity]).
  assert (H4 : rtc step init (mkState (make 1) MRecvDone WSendDone ["working..."; "done"]))
    by (eapply rtc_r; [exact H3 | exists Worker; reflexivity]).
  assert (H5 : rtc step init
            (mkState (mkChannel [true] 1 false) MRecvDone WReturn ["working..."; "done"]))
    by (eapply rtc_r; [exact H4 | exists Worker; reflexivity]).
  assert (H6 : rtc step init (mkState (make 1) MExit WReturn ["working..."; "done"]))
    by (eapply rtc_r; [exact H5 | exists Main; reflexivity]).
  unfold course. cbn [In].
  intros [<- | [<- | [<- | [<- | [<- | [<- | [<- | []]]]]]]]; assumption.
Qed.

(** X9.  [testSyncWithWorker] can run in one way only.  It returns only after
    [worker] has printed "working..." and "done" and has returned; until
    then it waits at [<-done].  The send of [worker] never waits, the
    channel never holds more than one value and is empty at the end; no
    state before the end is stuck, each state has one successor only, and
    the end comes after six steps. *)
Theorem testSyncWithWorker_waits_for_worker (s : state) :
  reachable s ->
  In s course /\
  (mpc s = MExit ->
   wpc s = WReturn /\ out s = ["working..."; "done"] /\ queue (done s) = []) /\
  (wpc s <> WReturn -> wpc s <> WIdle -> exec Main s = None) /\
  (wpc s = WSendDone -> is_Some (exec Worker s)) /\
  (length (queue (done s)) <= 1)%nat /\
  (mpc s = MExit \/ exists s', step s s') /\
  (forall s1 s2, step s s1 -> step s s2 -> s1 = s2) /\
  (forall s', step s s' -> (steps_left s' < steps_left s <= 6)%nat).
Proof.
  intros Hreach. pose proof (reachable_course s Hreach) as Hin.
  split; [exact Hin |].
  unfold course in Hin. cbn [In] in Hin.
  split; [| split; [| split; [| split; [| split; [| split]]]]].
  - intros Hm. decompose [or] Hin; try contradiction; subst s; cbn in *;
      (discriminate || auto).
  - intros Hw Hidle. decompose [or] Hin; try contradiction; subst s; cbn in *;
      (congruence || reflexivity).
  - intros Hw. decompose [or] Hin; try contradiction; subst s; cbn in *;
      (discriminate || eauto).
  - decompose [or] Hin; try contradiction; subst s; cbn; lia.
  - decompose [or] Hin; try contradiction; subst s;
      first [ left; reflexivity
            | right; eexists; exists Main; reflexivity
            | right; eexists; exists Worker; reflexivity ].
  - intros s1 s2 [t1 H1] [t2 H2].
    decompose [or] Hin; try contradiction; subst s;
      destruct t1, t2; cbn in H1, H2; congruence.
  - intros s' [t H1].
    decompose [or] Hin; try contradiction; subst s;
      destruct t; cbn in H1; try discriminate H1;
      injection H1 as <-; cbn; lia.
Qed.

Lemma testSyncWithWorker_waits_for_worker_witness :
  reachable (mkState (make 1) MExit WReturn ["working..."; "done"]) /\
  out (mkState (make 1) MExit WReturn ["working..."; "done"]) = ["working..."; "done"].
Proof.
  assert (Hreach : reachable (mkState (make 1) MExit WReturn ["working..."; "done"]))
    by (apply course_reachable; cbn; tauto).
  split; [exact Hreach |].
  destruct (testSyncWithWorker_waits_for_worker _ Hreach) as (_ & Hend & _).
  apply Hend. reflexivity.
Defined.

End SyncWorkerFacts.

(** ** Files, [panic] and [defer] *)

Section FileFacts.
Import Files.

Lemma closes_of_app (p : string) (tr1 tr2 : list event) :
  closes_of p (tr1 ++ tr2) = (closes_of p tr1 + closes_of p tr2)%nat.
Proof. unfold closes_of. rewrite List.filter_app, length_app. reflexivity. Qed.

(** [showPanic] panics with "a problem" before it comes to [os.Create]:
    it leaves no trace, whatever the operating system would answer. *)
Lemma showPanic_creates_nothing (os : os_answers) (tr : list event) :
  showPanic os tr = (Panic "a problem", tr).
Proof. reflexivity. Qed.

Ltac run_io :=
  unfold testFinally_at, createFile, writeFile, closeFile, os_Create,
    with_defer, and_then, bind, emit, ret, panic, exit.

(** X12.  [testFinally], whatever the operating system answers.  If the file
    cannot be created the function panics with that error after
    "creating", and neither writes nor closes.  Otherwise it writes, and
    then the deferred [closeFile] closes the file: with no error the
    function returns, with an error it reports the error on standard
    error and the process exits with code 1.  So the file is closed once
    if it was created and not at all otherwise, and always after the
    write. *)
Theorem testFinally_closes_what_it_created (os : os_answers) (p : string) (tr : list event) :
  (forall err, create_error os p = Some err ->
     testFinally_at os p tr = (Panic err, tr ++ [Stdout "creating"; Create p])) /\
  (create_error os p = None -> close_error os p = None ->
   testFinally_at os p tr
   = (Returned tt,
      tr ++ [Stdout "creating"; Create p; Stdout "writing"; Write p "data";
             Stdout "closing"; Close p])) /\
  (forall err, create_error os p = None -> close_error os p = Some err ->
     testFinally_at os p tr
     = (Exit 1,
        tr ++ [Stdout "creating"; Create p; Stdout "writing"; Write p "data";
               Stdout "closing"; Close p; Stderr (String.append "error: " err)])) /\
  closes_of p (snd (testFinally_at os p tr))
  = (closes_of p tr + match create_error os p with Some _ => 0 | None => 1 end)%nat.
Proof.
  split; [| split; [| split]].
  - intros err Hc. run_io. rewrite Hc. rewrite <- !app_assoc. reflexivity.
  - intros Hc Hcl. run_io. rewrite Hc, Hcl. rewrite <- !app_assoc. reflexivity.
  - intros err Hc Hcl. run_io. rewrite Hc, Hcl. rewrite <- !app_assoc. reflexivity.
  - run_io. destruct (create_error os p) as [err |]; cbn [snd].
    + rewrite <- !app_assoc, closes_of_app. reflexivity.
    + destruct (close_error os p) as [err |]; cbn [snd];
        rewrite <- !app_assoc, closes_of_app; cbn [app];
        unfold closes_of at 2; cbn; rewrite String.eqb_refl; reflexivity.
Qed.

(** A disk that is full: the file is made, closing it fails. *)
Lemma testFinally_closes_what_it_created_witness :
  testFinally (mkOs (fun _ => None) (fun _ => Some "no space left on device")) []
  = (Exit 1,
     [Stdout "creating"; Create "/tmp/defer.txt"; Stdout "writing";
      Write "/tmp/defer.txt" "data"; Stdout "closing"; Close "/tmp/defer.txt";
      Stderr "error: no space left on device"]).
Proof.
  destruct (testFinally_closes_what_it_created
              (mkOs (fun _ => None) (fun _ => Some "no space left on device"))
              "/tmp/defer.txt" []) as (_ & _ & Hexit & _).
  apply (Hexit "no space left on device"); reflexivity.
Defined.

End FileFacts.

(** ** [testClosingChannels]: the buffer and the lines of the body *)

Section ClosingChannelsMoreFacts.
Import GoInt ClosingChannels BodyLines.

Variable njobs : Z.
Variable capacity : nat.
Hypothesis njobs_range : 0 <= njobs < max_int.
Hypothesis capacity_pos : (0 < capacity)%nat.

Lemma buffer_step (s s' : state) :
  step njobs capacity s s' ->
  (length (buf (jobs s)) <= capacity)%nat ->
  (length (buf (jobs s')) <= capacity)%nat.
Proof.
  intros [t Hexec] Hlen. unfold exec in Hexec.
  destruct s as [[b cl] m c o]. cbn [mpc cpc jobs out buf closed] in *.
  destruct t.
  - unfold exec_main, chan_send, chan_close in Hexec.
    cbn [mpc cpc jobs out buf closed] in Hexec.
    destruct m; try discriminate Hexec;
      try (injection Hexec as <-; exact Hlen).
    + destruct cl; [injection Hexec as <-; exact Hlen |].
      destruct (Nat.ltb_spec (length b) capacity); [| discriminate Hexec].
      injection Hexec as <-. cbn. rewrite length_app. cbn. lia.
    + destruct cl; injection Hexec as <-; exact Hlen.
    + destruct c; try discriminate Hexec. injection Hexec as <-. exact Hlen.
  - assert (Hc : exec_consumer (mkState (mkChan b cl) m c o) = Some s')
      by (destruct m; (discriminate Hexec || exact Hexec)).
    clear Hexec. unfold exec_consumer, chan_recv in Hc.
    cbn [mpc cpc jobs out buf closed] in Hc.
    destruct c; try discriminate Hc; try (injection Hc as <-; exact Hlen).
    + destruct b as [| v rest]; [destruct cl; [| discriminate Hc] |];
        injection Hc as <-; cbn in *; lia.
    + destruct m; try discriminate Hc. injection Hc as <-. exact Hlen.
Qed.

Lemma buffer_within_capacity (s : state) :
  reachable njobs capacity s -> (length (buf (jobs s)) <= capacity)%nat.
Proof.
  unfold reachable. intros Hreach.
  assert (Hgen : forall s0, rtc (step njobs capacity) s0 s ->
            (length (buf (jobs s0)) <= capacity)%nat ->
            (length (buf (jobs s)) <= capacity)%nat).
  { clear Hreach. intros s0 Hrun.
    induction Hrun as [| s0 s1 s2 Hstep _ IH]; intros Hlen; [exact Hlen |].
    eapply IH, buffer_step; eassumption. }
  apply (Hgen init Hreach). cbn. lia.
Qed.

(** X13.  The [jobs] channel never holds more values than its capacity,
    and the values received so far followed by the values still queued
    are exactly the values sent so far, the jobs [1 .. sent] in the order
    sent.  When the capacity is at least the number of jobs, as in the
    source (5 against 3), the body never waits at [jobs <- j]: the send
    goes through in every state the function can be in. *)
Theorem producer_never_waits (s : state) (j : Z) :
  reachable njobs capacity s ->
  (length (buf (jobs s)) <= capacity)%nat /\
  received s ++ buf (jobs s) = seqZ 1 (sent njobs (mpc s)) /\
  (njobs <= Z.of_nat capacity -> mpc s = MSend j ->
   exec njobs capacity Main s
   = Some (mkState (mkChan (buf (jobs s) ++ [j]) false) (MPrintSent j) (cpc s) (out s))).
Proof.
  intros Hreach.
  pose proof (reachable_invariant njobs capacity njobs_range capacity_pos s Hreach) as Hinv.
  pose proof (sent_range njobs capacity njobs_range capacity_pos s Hinv) as Hsent.
  destruct Hinv as [Hpanic Hrange Hfifo Hclosed _ _ _ _].
  assert (Hlen : Z.of_nat (length (received s)) + Z.of_nat (length (buf (jobs s)))
                 = sent njobs (mpc s)).
  { apply (f_equal (@length Z)) in Hfifo. rewrite length_app, length_seqZ in Hfifo. lia. }
  split; [apply buffer_within_capacity, Hreach |]. split; [exact Hfifo |].
  intros Hcap Hm. rewrite Hm in *. cbn [sent closed_at] in *.
  unfold exec. rewrite Hm. unfold exec_main. rewrite Hm.
  unfold chan_send. rewrite Hclosed.
  destruct (Nat.ltb_spec (length (buf (jobs s))) capacity) as [_ | Hfull]; [reflexivity | lia].
Qed.

Lemma main_lines_app (o1 o2 : list line) :
  main_lines (o1 ++ o2) = main_lines o1 ++ main_lines o2.
Proof. unfold main_lines. apply List.filter_app. Qed.

Lemma lines_split (o : list line) :
  length o = (length (main_lines o) + length (consumer_lines o))%nat.
Proof.
  unfold main_lines, consumer_lines.
  induction o as [| l o IH]; [reflexivity |].
  cbn. destruct (consumer_line l); cbn; lia.
Qed.

Lemma body_invariant_init : body_invariant njobs init.
Proof. split; [reflexivity | discriminate]. Qed.

Ltac body_fields :=
  split; cbn [mpc cpc jobs out buf closed announced said_sent_all said_done];
  [| try discriminate ].

Lemma body_invariant_main (s s' : state) :
  invariant njobs s -> body_invariant njobs s ->
  exec_main njobs capacity s = Some s' -> body_invariant njobs s'.
Proof.
  intros [_ Hrange _ Hclosed _ _ _ _] [Hlines Hlast] Hexec.
  destruct s as [[b cl] m c o]. unfold exec_main, chan_send, chan_close in Hexec.
  cbn [mpc cpc jobs out buf closed announced said_sent_all said_done closed_at] in *.
  destruct m as [| j | j | | | | | |]; try discriminate Hexec.
  - injection Hexec as <-. unfold loop_head.
    destruct (Z.leb_spec 1 njobs); body_fields.
    + exact Hlines.
    + replace njobs with 0 by lia. exact Hlines.
  - rewrite Hclosed in Hexec.
    destruct (length b <? capacity)%nat; [| discriminate Hexec].
    injection Hexec as <-. body_fields. exact Hlines.
  - injection Hexec as <-.
    rewrite (next_job njobs capacity njobs_range capacity_pos j Hrange).
    assert (Hsnoc : main_lines (o ++ [SentJob j]) = map SentJob (seqZ 1 j)).
    { rewrite main_lines_app, Hlines. cbn. rewrite ?app_nil_r.
      rewrite (seqZ_snoc capacity capacity_pos j) by lia.
      rewrite map_app. reflexivity. }
    unfold loop_head. destruct (Z.leb_spec (j + 1) njobs); body_fields.
    + rewrite Hsnoc. replace (j + 1 - 1) with j by lia. rewrite ?app_nil_r. reflexivity.
    + rewrite Hsnoc. replace njobs with j by lia. rewrite ?app_nil_r. reflexivity.
  - rewrite Hclosed in Hexec. injection Hexec as <-. body_fields. exact Hlines.
  - injection Hexec as <-. body_fields.
    rewrite main_lines_app, Hlines. cbn. rewrite ?app_nil_r. reflexivity.
  - destruct c; try discriminate Hexec. injection Hexec as <-. body_fields. exact Hlines.
  - injection Hexec as <-. split; cbn [mpc out announced said_sent_all said_done].
    + rewrite main_lines_app, Hlines. cbn. rewrite ?app_nil_r, <- app_assoc. reflexivity.
    + intros _. exists o. reflexivity.
Qed.

Lemma body_invariant_consumer (s s' : state) :
  invariant njobs s -> body_invariant njobs s ->
  exec_consumer s = Some s' -> body_invariant njobs s'.
Proof.
  intros [_ _ _ _ _ _ _ Hret] [Hlines Hlast] Hexec.
  destruct s as [[b cl] m c o]. unfold exec_consumer, chan_recv in Hexec.
  cbn [mpc cpc jobs out buf closed announced said_sent_all said_done] in *.
  assert (Hnot_exit : c <> CReturn -> m <> MExit).
  { intros Hc Hm. apply Hc, Hret. right. exact Hm. }
  destruct c as [| | j | | |]; try discriminate Hexec.
  - destruct b as [| v rest]; [destruct cl; [| discriminate Hexec] |];
      injection Hexec as <-; split; cbn [mpc out]; try exact Hlines;
      intros Hm; exfalso; apply Hnot_exit; (discriminate || exact Hm).
  - injection Hexec as <-. split; cbn [mpc out].
    + rewrite main_lines_app. cbn. rewrite ?app_nil_r. exact Hlines.
    + intros Hm. exfalso. apply Hnot_exit; (discriminate || exact Hm).
  - injection Hexec as <-. split; cbn [mpc out].
    + rewrite main_lines_app. cbn. rewrite ?app_nil_r. exact Hlines.
    + intros Hm. exfalso. apply Hnot_exit; (discriminate || exact Hm).
  - destruct m; try discriminate Hexec. injection Hexec as <-.
    split; cbn [mpc out announced said_sent_all said_done] in *;
      [exact Hlines | discriminate].
Qed.

Lemma reachable_body_invariant (s : state) :
  reachable njobs capacity s -> invariant njobs s /\ body_invariant njobs s.
Proof.
  unfold reachable. intros Hreach.
  assert (Hgen : forall s0, rtc (step njobs capacity) s0 s ->
            invariant njobs s0 /\ body_invariant njobs s0 ->
            invariant njobs s /\ body_invariant njobs s).
  { clear Hreach. intros s0 Hrun.
    induction Hrun as [| s0 s1 s2 Hstep _ IH]; intros [Hinv Hbody]; [tauto |].
    apply IH. split.
    - exact (invariant_step njobs capacity njobs_range capacity_pos s0 s1 Hinv Hstep).
    - destruct Hstep as [t Hexec]. unfold exec in Hexec.
      destruct (mpc s0) eqn:Hm, t; try discriminate Hexec;
        eauto using body_invariant_main, body_invariant_consumer. }
  apply (Hgen init Hreach). split; [| apply body_invariant_init].
  apply (reachable_invariant njobs capacity njobs_range capacity_pos). apply rtc_refl.
Qed.

(** X14.  The lines of the body of [testClosingChannels] come in program
    order in every state: "sent job 1", "sent job 2", ..., then "sent all
    jobs", then "Done processing jobs".  When the function has returned,
    all of them are printed, "Done processing jobs" is the last line of
    the whole output and comes after "received all jobs", and the output
    has [2 * njobs + 3] lines. *)
Theorem body_lines_in_order (s : state) :
  reachable njobs capacity s ->
  main_lines (out s)
  = map SentJob (seqZ 1 (announced njobs (mpc s)))
    ++ (if said_sent_all (mpc s) then [SentAll] else [])
    ++ (if said_done (mpc s) then [DoneProcessing] else []) /\
  (finished s ->
   main_lines (out s) = map SentJob (seqZ 1 njobs) ++ [SentAll; DoneProcessing] /\
   (exists front, out s = front ++ [DoneProcessing] /\ In ReceivedAll front) /\
   length (out s) = Z.to_nat (2 * njobs + 3)).
Proof.
  intros Hreach. destruct (reachable_body_invariant s Hreach) as [Hinv [Hlines Hlast]].
  split; [exact Hlines |].
  intros Hfin.
  pose proof (finished_output njobs capacity njobs_range capacity_pos s Hinv Hfin) as Hcons.
  destruct Hfin as [Hm Hc].
  assert (Hmain : main_lines (out s) = map SentJob (seqZ 1 njobs) ++ [SentAll; DoneProcessing]).
  { rewrite Hlines, Hm. reflexivity. }
  split; [exact Hmain |]. split.
  - destruct (Hlast Hm) as [front Hfront]. exists front. split; [exact Hfront |].
    assert (Hin : In ReceivedAll (consumer_lines (out s))).
    { rewrite Hcons. apply in_or_app. right. left. reflexivity. }
    unfold consumer_lines in Hin. apply List.filter_In in Hin as [Hin _].
    rewrite Hfront in Hin. apply in_app_or in Hin as [Hin | [Hin | []]];
      [exact Hin | discriminate Hin].
  - rewrite lines_split, Hmain, Hcons, !length_app, !length_map, !length_seqZ.
    cbn [length]. lia.
Qed.

End ClosingChannelsMoreFacts.

Section SourceInstanceMore.
Import GoInt ClosingChannels BodyLines.

(** [testClosingChannels] itself: three jobs fit into a buffer of five,
    so the send of job 2 goes through at once. *)
Lemma producer_never_waits_witness :
  reachable source_njobs source_capacity
    (mkState (mkChan [] false) (MSend 2) (CPrintJob 1) [SentJob 1]) /\
  source_njobs <= Z.of_nat source_capacity /\
  exec source_njobs source_capacity Main
    (mkState (mkChan [] false) (MSend 2) (CPrintJob 1) [SentJob 1])
  = Some (mkState (mkChan ([] ++ [2]) false) (MPrintSent 2) (CPrintJob 1) [SentJob 1]).
Proof.
  pose proof (reachable_by_schedule _ _ consumer_starts_early_run) as Hreach.
  assert (Hcap : source_njobs <= Z.of_nat source_capacity)
    by (unfold source_njobs, source_capacity; lia).
  split; [exact Hreach |]. split; [exact Hcap |].
  destruct (producer_never_waits source_njobs source_capacity
              source_njobs_range source_capacity_pos _ 2 Hreach) as (_ & _ & Hsend).
  apply Hsend; [exact Hcap | reflexivity].
Defined.

Lemma body_lines_in_order_witness :
  reachable source_njobs source_capacity
    (mkState (mkChan [] true) MExit CReturn
       [SentJob 1; SentJob 2; SentJob 3; SentAll;
        ReceivedJob 1; ReceivedJob 2; ReceivedJob 3; ReceivedAll;
        DoneProcessing]) /\
  main_lines
    [SentJob 1; SentJob 2; SentJob 3; SentAll;
     ReceivedJob 1; ReceivedJob 2; ReceivedJob 3; ReceivedAll;
     DoneProcessing]
  = map SentJob (seqZ 1 source_njobs) ++ [SentAll; DoneProcessing].
Proof.
  pose proof (reachable_by_schedule _ _ producer_first_run) as Hreach.
  split; [exact Hreach |].
  destruct (body_lines_in_order source_njobs source_capacity
              source_njobs_range source_capacity_pos _ Hreach) as (_ & Hend).
  destruct Hend as (Hmain & _); [split; reflexivity |].
  exact Hmain.
Defined.

(** The order between the lines of the body and those of the goroutine
    is not fixed: "received job 1" can come out before "sent job 1". *)
Example received_before_sent_is_possible :
  run_schedule source_njobs source_capacity [Main; Main; Consumer; Consumer; Main] init
  = Some (mkState (mkChan [] false) (MSend 2) CRecv [ReceivedJob 1; SentJob 1]).
Proof. vm_compute. reflexivity. Qed.

End SourceInstanceMore.

(** ** [testGoRoutines] *)

Section GoRoutinesFacts.
Import GoInt GoRoutines.

Variable nsync : Z.
Variable nasync : Z.
Hypothesis nsync_int : nsync <= max_int.
Hypothesis nasync_int : nasync <= max_int.

Lemma seqZ_0_snoc (i : Z) : 0 <= i -> seqZ 0 (i + 1) = seqZ 0 i ++ [i].
Proof.
  intros Hi. rewrite seqZ_app by lia. f_equal.
Qed.

Lemma next_round (i n : Z) : 0 <= i < n -> n <= max_int -> int_add i 1 = i + 1.
Proof.
  intros Hi Hn. apply int_add_small. unfold is_int. rewrite min_int_eq. lia.
Qed.

Lemma sync_lines_app (o1 o2 : list line) :
  sync_lines (o1 ++ o2) = sync_lines o1 ++ sync_lines o2.
Proof. apply List.filter_app. Qed.

Lemma async_lines_app (o1 o2 : list line) :
  async_lines (o1 ++ o2) = async_lines o1 ++ async_lines o2.
Proof. apply List.filter_app. Qed.

Lemma other_lines_app (o1 o2 : list line) :
  other_lines (o1 ++ o2) = other_lines o1 ++ other_lines o2.
Proof. apply List.filter_app. Qed.

Lemma routines_invariant_init : invariant nsync nasync (init nsync).
Proof.
  unfold init, sync_head. destruct (Z.ltb_spec 0 nsync) as [Hpos | Hneg].
  - split; cbn [mpc apc hpc out synced asynced]; try reflexivity; try discriminate.
    + intros i [= <-]. lia.
    + intros i [= <-]. reflexivity.
    + split; [discriminate | reflexivity].
    + exists []. split; reflexivity.
  - split; cbn [mpc apc hpc out synced asynced]; try reflexivity; try discriminate.
    + split; [discriminate | reflexivity].
    + exists []. rewrite seqZ_nil by lia. split; reflexivity.
Qed.

Lemma hello_idle_flip (m : main_pc) (h : hello_pc) :
  (h = HIdle <-> m <> MExit) -> h <> HIdle -> m = MExit.
Proof.
  intros Hiff Hh. destruct m; try reflexivity; exfalso; apply Hh, Hiff; discriminate.
Qed.

Lemma routines_invariant_step (s s' : state) :
  invariant nsync nasync s -> step nsync nasync s s' -> invariant nsync nasync s'.
Proof.
  intros [Hsr Har Hphase Hidle_a Hidle_h [rest [Hout Hrest]] Hasync Hother] [t Hexec].
  destruct s as [m a h o]. cbn [mpc apc hpc out] in *.
  destruct t; cbn [exec mpc apc hpc out] in Hexec.
  - destruct m as [i | | |]; try discriminate Hexec; injection Hexec as <-.
    + (* a line of the sync loop *)
      pose proof (Hsr i eq_refl) as Hi. pose proof (Hphase i eq_refl) as Ho.
      rewrite (next_round i nsync Hi nsync_int).
      assert (Hnew : o ++ [Counted "sync" i] = map (Counted "sync") (seqZ 0 (i + 1))).
      { rewrite Ho, seqZ_0_snoc, map_app by lia. reflexivity. }
      unfold sync_head. destruct (Z.ltb_spec (i + 1) nsync) as [Hlt | Hge];
        split; cbn [mpc apc hpc out synced asynced]; try assumption.
      all: try (intros k [= <-]; (lia || exact Hnew)).
      all: try (intros k Hk; discriminate Hk).
      all: try (split; [intros _; discriminate | intros _; apply Hidle_h; discriminate]).
      all: try (rewrite async_lines_app, Hasync; cbn; apply app_nil_r).
      all: try (rewrite other_lines_app, Hother; cbn; apply app_nil_r).
      * exists []. rewrite app_nil_r. split; [exact Hnew | reflexivity].
      * exists []. rewrite app_nil_r. replace nsync with (i + 1) by lia.
        split; [exact Hnew | reflexivity].
    + (* go somethingToRun("async", ..) *)
      cbn in Hidle_a. subst a. cbn [asynced] in Hasync.
      unfold async_head. destruct (Z.ltb_spec 0 nasync) as [Hlt | Hge];
        split; cbn [mpc apc hpc out synced asynced]; try assumption;
        try discriminate.
      all: try (intros k [= <-]; lia).
      all: try (intros k Hk; discriminate Hk).
      all: try (split; [intros _; discriminate | intros _; apply Hidle_h; discriminate]).
      all: try (exists rest; split; assumption).
      rewrite Hasync, !seqZ_nil by lia. reflexivity.
    + (* go func(msg string) { ... }("HELLO") *)
      assert (h = HIdle) as -> by (apply Hidle_h; discriminate).
      split; cbn [mpc apc hpc out synced asynced]; try assumption.
      * intros k Hk. discriminate Hk.
      * intros k Hk. discriminate Hk.
      * split; [discriminate | intros Hm; contradiction].
      * exists rest. split; assumption.
  - destruct a as [| i |]; try discriminate Hexec; injection Hexec as <-.
    pose proof (Har i eq_refl) as Hi.
    rewrite (next_round i nasync Hi nasync_int).
    assert (Hm : synced nsync m = nsync /\ forall k, m <> MSync k).
    { destruct m; cbn in Hidle_a; try discriminate Hidle_a;
        (split; [reflexivity | intros k Hk; discriminate Hk]). }
    destruct Hm as [Hsynced Hnot_sync].
    assert (Hnew : async_lines (o ++ [Counted "async" i])
                   = map (Counted "async") (seqZ 0 (i + 1))).
    { rewrite async_lines_app, Hasync. cbn [asynced].
      rewrite seqZ_0_snoc, map_app by lia. reflexivity. }
    unfold async_head. destruct (Z.ltb_spec (i + 1) nasync) as [Hlt | Hge];
      split; cbn [mpc apc hpc out synced asynced]; try assumption.
    all: try (intros k [= <-]; lia).
    all: try (intros k Hk; discriminate Hk).
    all: try (intros k Hk; exfalso; exact (Hnot_sync k Hk)).
    all: try (destruct m; cbn in *; (discriminate || congruence)).
    all: try (exists (rest ++ [Counted "async" i]); rewrite app_assoc, <- Hout;
              split; [reflexivity | rewrite sync_lines_app, Hrest; reflexivity]).
    all: try (rewrite other_lines_app, Hother; cbn; apply app_nil_r).
    replace nasync with (i + 1) by lia. exact Hnew.
  - destruct h; try discriminate Hexec; injection Hexec as <-.
    assert (Hm : m = MExit) by (apply (hello_idle_flip m HPrint Hidle_h); discriminate).
    subst m. cbn [synced] in Hout.
    split; cbn [mpc apc hpc out synced asynced]; try assumption.
    + intros k Hk. discriminate Hk.
    + split; [discriminate | intros Hm; contradiction].
    + exists (rest ++ [Text "HELLO"]). rewrite app_assoc, <- Hout.
      split; [reflexivity | rewrite sync_lines_app, Hrest; reflexivity].
    + rewrite async_lines_app, Hasync. cbn. apply app_nil_r.
    + rewrite other_lines_app, Hother. reflexivity.
Qed.

Lemma routines_reachable_invariant (s : state) :
  reachable nsync nasync s -> invariant nsync nasync s.
Proof.
  unfold reachable. intros Hreach.
  assert (Hgen : forall s0, rtc (step nsync nasync) s0 s ->
            invariant nsync nasync s0 -> invariant nsync nasync s).
  { clear Hreach. intros s0 Hrun.
    induction Hrun as [| s0 s1 s2 Hstep _ IH]; intros Hinv; [exact Hinv |].
    eapply IH, routines_invariant_step; eassumption. }
  exact (Hgen _ Hreach routines_invariant_init).
Qed.

Lemma sync_lines_map (l : list Z) :
  sync_lines (map (Counted "sync") l) = map (Counted "sync") l.
Proof. induction l as [| x l IH]; [reflexivity |]. cbn. f_equal. exact IH. Qed.

Lemma routines_progress (s : state) :
  invariant nsync nasync s -> all_returned s \/ exists s', step nsync nasync s s'.
Proof.
  intros [_ _ _ Hidle_a Hidle_h _ _ _]. destruct s as [m a h o]. cbn [mpc apc hpc out] in *.
  destruct m as [i | | |].
  - right. eexists. exists Main. reflexivity.
  - right. eexists. exists Main. reflexivity.
  - right. eexists. exists Main. reflexivity.
  - destruct a as [| i |].
    + contradiction.
    + right. eexists. exists Async. reflexivity.
    + destruct h.
      * exfalso. assert (MExit <> MExit) by (apply Hidle_h; reflexivity). congruence.
      * right. eexists. exists Hello. reflexivity.
      * left. repeat split.
Qed.

Lemma routines_steps_left_decreases (s s' : state) :
  invariant nsync nasync s -> step nsync nasync s s' ->
  0 <= steps_left nsync nasync s' < steps_left nsync nasync s.
Proof.
  intros [Hsr Har _ Hidle_a Hidle_h _ _ _] [t Hexec].
  destruct s as [m a h o]. cbn [mpc apc hpc out] in *.
  destruct t; cbn [exec mpc apc hpc out] in Hexec.
  - assert (h = HIdle) as ->.
    { apply Hidle_h. intros ->. discriminate Hexec. }
    destruct m as [i | | |]; try discriminate Hexec; injection Hexec as <-.
    + pose proof (Hsr i eq_refl) as Hi. rewrite (next_round i nsync Hi nsync_int).
      subst a. unfold steps_left, sync_head. cbn [mpc apc hpc].
      destruct (Z.ltb_spec (i + 1) nsync); lia.
    + subst a. unfold steps_left, async_head. cbn [mpc apc hpc].
      destruct (Z.ltb_spec 0 nasync); lia.
    + unfold steps_left. cbn [mpc apc hpc].
      destruct a as [| i |]; [contradiction | pose proof (Har i eq_refl) |]; lia.
  - destruct a as [| i |]; try discriminate Hexec; injection Hexec as <-.
    pose proof (Har i eq_refl) as Hi. rewrite (next_round i nasync Hi nasync_int).
    unfold steps_left, async_head. cbn [mpc apc hpc].
    destruct (Z.ltb_spec (i + 1) nasync); destruct m; cbn in Hidle_a;
      try discriminate Hidle_a; destruct h; lia.
  - destruct h; try discriminate Hexec; injection Hexec as <-.
    unfold steps_left. cbn [mpc apc hpc].
    destruct m as [i | | |]; [pose proof (Hsr i eq_refl) | | |];
      (destruct a as [| k |]; [| pose proof (Har k eq_refl) |]); lia.
Qed.

(** X8.  [testGoRoutines], whatever the scheduler does.  The lines of the
    call [somethingToRun("sync", ..)] are printed first, in order, and
    nothing else is printed before the last of them; the lines of the
    goroutine [somethingToRun("async", ..)] come in order among
    themselves; "HELLO" is printed at most once, and only when its
    goroutine has finished.  When the function returns all its "sync"
    lines are out.  No state is stuck before all three threads have
    returned, and every step uses up one of finitely many steps left. *)
Theorem testGoRoutines_sync_lines_first (s : state) :
  reachable nsync nasync s ->
  (exists rest,
     out s = map (Counted "sync") (seqZ 0 (synced nsync (mpc s))) ++ rest /\
     sync_lines rest = [] /\
     (rest <> [] -> synced nsync (mpc s) = nsync)) /\
  async_lines (out s) = map (Counted "async") (seqZ 0 (asynced nasync (apc s))) /\
  other_lines (out s) = match hpc s with HReturn => [Text "HELLO"] | _ => [] end /\
  (mpc s = MExit -> sync_lines (out s) = map (Counted "sync") (seqZ 0 nsync)) /\
  (all_returned s \/ exists s', step nsync nasync s s') /\
  (forall s', step nsync nasync s s' ->
     0 <= steps_left nsync nasync s' < steps_left nsync nasync s).
Proof.
  intros Hreach. pose proof (routines_reachable_invariant s Hreach) as Hinv.
  pose proof (routines_progress s Hinv) as Hprog.
  pose proof (routines_steps_left_decreases s) as Hdec.
  destruct Hinv as [Hsr Har Hphase Hidle_a Hidle_h [rest [Hout Hrest]] Hasync Hother] eqn:Heq.
  clear Heq.
  split; [| split; [exact Hasync | split; [exact Hother | split; [| split]]]].
  - exists rest. split; [exact Hout |]. split; [exact Hrest |].
    intros Hne. destruct (mpc s) as [i | | |] eqn:Hm; try reflexivity.
    exfalso. apply Hne. pose proof (Hphase i eq_refl) as Ho.
    cbn [synced] in Hout. rewrite Ho in Hout.
    rewrite <- (app_nil_r (map (Counted "sync") (seqZ 0 i))) in Hout at 1.
    apply app_inv_head in Hout. symmetry. exact Hout.
  - intros Hm. rewrite Hm in Hout. cbn [synced] in Hout.
    rewrite Hout, sync_lines_app, sync_lines_map, Hrest. apply app_nil_r.
  - exact Hprog.
  - intros s' Hstep. apply Hdec; [| exact Hstep].
    exact (routines_reachable_invariant s Hreach).
Qed.

End GoRoutinesFacts.

Section GoRoutinesSource.
Import GoInt GoRoutines.

Lemma routines_schedule_reachable (sch : list tid) (s0 s : state) :
  rtc (step source_nsync source_nasync) (init source_nsync) s0 ->
  run_schedule source_nsync source_nasync sch s0 = Some s ->
  reachable source_nsync source_nasync s.
Proof.
  revert s0. induction sch as [| t sch IH]; intros s0 Hs0 Hrun; cbn in Hrun.
  - injection Hrun as <-. exact Hs0.
  - destruct (exec source_nsync source_nasync t s0) as [s1 |] eqn:Hexec; [| discriminate].
    apply (IH s1); [| exact Hrun].
    eapply rtc_r; [exact Hs0 | exists t; exact Hexec].
Qed.

(** The function can return before either goroutine has printed a line. *)
Example testGoRoutines_returns_early :
  run_schedule source_nsync source_nasync (repeat Main 5) (init source_nsync)
  = Some (mkState MExit (APrint 0) HPrint
            [Counted "sync" 0; Counted "sync" 1; Counted "sync" 2]).
Proof. vm_compute. reflexivity. Qed.

(** "HELLO" can come out in the middle of the "async" lines. *)
Example testGoRoutines_interleaves :
  run_schedule source_nsync source_nasync
    (repeat Main 5 ++ [Async; Async; Hello; Async; Async; Async]) (init source_nsync)
  = Some (mkState MExit AReturn HReturn
            [Counted "sync" 0; Counted "sync" 1; Counted "sync" 2;
             Counted "async" 0; Counted "async" 1; Text "HELLO";
             Counted "async" 2; Counted "async" 3; Counted "async" 4]).
Proof. vm_compute. reflexivity. Qed.

Lemma testGoRoutines_sync_lines_first_witness :
  reachable source_nsync source_nasync
    (mkState MExit (APrint 0) HPrint
       [Counted "sync" 0; Counted "sync" 1; Counted "sync" 2]) /\
  sync_lines [Counted "sync" 0; Counted "sync" 1; Counted "sync" 2]
  = map (Counted "sync") (seqZ 0 source_nsync).
Proof.
  assert (Hn : source_nsync <= max_int) by (unfold source_nsync; rewrite max_int_eq; lia).
  assert (Ha : source_nasync <= max_int) by (unfold source_nasync; rewrite max_int_eq; lia).
  pose proof (routines_schedule_reachable _ _ _ (rtc_refl _ _) testGoRoutines_returns_early)
    as Hreach.
  split; [exact Hreach |].
  destruct (testGoRoutines_sync_lines_first source_nsync source_nasync Hn Ha _ Hreach)
    as (_ & _ & _ & Hexit & _).
  apply Hexit. reflexivity.
Defined.

End GoRoutinesSource.

(** ** The text of a [customError] *)

Section ErrorTextFacts.
Import Errors ErrorText.

Lemma digits_no_space (d : Decimal.uint) :
  no_space (DecimalString.NilEmpty.string_of_uint d).
Proof. induction d; cbn; (exact I || (split; [discriminate | assumption])). Qed.

Lemma format_int_no_space (z : Z) : no_space (format_int z).
Proof.
  unfold format_int, DecimalString.NilZero.string_of_int,
    DecimalString.NilZero.string_of_uint.
  destruct (Z.to_int z) as [d | d]; destruct d; cbn;
    repeat split; try discriminate; apply digits_no_space.
Qed.

Lemma format_int_inj (a b : Z) : format_int a = format_int b -> a = b.
Proof.
  unfold format_int. intros Heq.
  assert (Hok : forall z, Z.to_int z <> Decimal.Pos Decimal.Nil /\
                          Z.to_int z <> Decimal.Neg Decimal.Nil).
  { intros [| p | p]; cbn; split; try discriminate;
      intros [= Hp]; exact (DecimalPos.Unsigned.to_uint_nonnil p Hp). }
  apply (f_equal DecimalString.NilZero.int_of_string) in Heq.
  rewrite !DecimalString.NilZero.isi in Heq by apply Hok.
  injection Heq as Heq. apply DecimalZ.to_int_inj, Heq.
Qed.

(** A text is split at its first space in one way only. *)
Lemma split_at_first_space (d1 d2 p1 p2 : string) :
  no_space d1 -> no_space d2 ->
  String.append d1 (String.append " - " p1) = String.append d2 (String.append " - " p2) ->
  d1 = d2 /\ p1 = p2.
Proof.
  revert d2. induction d1 as [| c d1 IH]; intros [| c2 d2] H1 H2 Heq; cbn in *.
  - injection Heq as Heq. tauto.
  - injection Heq as Hc _. destruct H2 as [Hsp _]. congruence.
  - injection Heq as Hc _. destruct H1 as [Hsp _]. congruence.
  - injection Heq as Hc Heq. destruct H1 as [_ H1], H2 as [_ H2].
    destruct (IH d2 H1 H2 Heq) as [-> ->]. subst c2. tauto.
Qed.

Example Error_unlucky :
  option_map Error (assert_customError (snd (functionWithCustomError 13)))
  = Some "13 - just can't do it bro".
Proof. reflexivity. Qed.

Example Error_negative : Error (mkCustomError (-7) "x") = "-7 - x".
Proof. reflexivity. Qed.

(** Reading back what [format_int] writes. *)
Ltac read_digit :=
  match goal with
  | |- context [digit_value ?c] =>
      let v := eval vm_compute in (digit_value c) in
      change (digit_value c) with v; cbv iota
  end.

Lemma read_digits_acc (d : Decimal.uint) : forall acc : positive,
  read_digits (Z.pos acc) (DecimalString.NilEmpty.string_of_uint d)
  = Some (Z.pos (Pos.of_uint_acc d acc)).
Proof.
  induction d; intros acc;
    cbn [DecimalString.NilEmpty.string_of_uint read_digits Pos.of_uint_acc];
    [reflexivity | ..]; read_digit; rewrite <- IHd; f_equal; lia.
Qed.

Lemma read_digits_of_uint (d : Decimal.uint) :
  read_digits 0 (DecimalString.NilEmpty.string_of_uint d)
  = Some (Z.of_N (Pos.of_uint d)).
Proof.
  induction d;
    cbn [DecimalString.NilEmpty.string_of_uint read_digits Pos.of_uint];
    [reflexivity | ..]; read_digit; [exact IHd | ..];
    cbn [Z.mul Z.add]; apply read_digits_acc.
Qed.

(** The digits of a positive number do not start with a zero. *)
Lemma to_uint_no_leading_zero (p : positive) (d : Decimal.uint) :
  Pos.to_uint p <> Decimal.D0 d.
Proof.
  intros Heq.
  pose proof (DecimalPos.Unsigned.to_of (Pos.to_uint p)) as Hnorm.
  rewrite DecimalPos.Unsigned.of_to in Hnorm. cbn [N.to_uint] in Hnorm.
  assert (Hnz : Decimal.nzhead (Pos.to_uint p) <> Decimal.Nil).
  { intros Hnil. apply DecimalFacts.unorm_0 in Hnil.
    rewrite <- Hnorm in Hnil. exact (DecimalPos.Unsigned.to_uint_nonzero p Hnil). }
  rewrite (DecimalFacts.unorm_nzhead _ Hnz) in Hnorm.
  rewrite Heq in Hnorm at 1.
  exact (DecimalFacts.nzhead_nonzero _ _ (eq_sym Hnorm)).
Qed.

Lemma read_natural_pos (p : positive) :
  read_natural (DecimalString.NilEmpty.string_of_uint (Pos.to_uint p)) = Some (Z.pos p).
Proof.
  pose proof (read_digits_of_uint (Pos.to_uint p)) as Hread.
  rewrite DecimalPos.Unsigned.of_to in Hread. cbn [Z.of_N] in Hread.
  pose proof (to_uint_no_leading_zero p) as Hlead.
  pose proof (DecimalPos.Unsigned.to_uint_nonnil p) as Hnil.
  destruct (Pos.to_uint p) as [| d | d | d | d | d | d | d | d | d | d];
    [contradiction | exfalso; exact (Hlead d eq_refl) | ..]; exact Hread.
Qed.

Lemma string_of_uint_pos (p : positive) :
  DecimalString.NilZero.string_of_uint (Pos.to_uint p)
  = DecimalString.NilEmpty.string_of_uint (Pos.to_uint p).
Proof.
  pose proof (DecimalPos.Unsigned.to_uint_nonnil p) as Hnil.
  unfold DecimalString.NilZero.string_of_uint.
  destruct (Pos.to_uint p); [contradiction | reflexivity ..].
Qed.

Lemma read_decimal_format_int (z : Z) : read_decimal (format_int z) = Some z.
Proof.
  unfold format_int. destruct z as [| p | p]; [reflexivity | |].
  - cbn [Z.to_int DecimalString.NilZero.string_of_int]. rewrite string_of_uint_pos.
    pose proof (read_natural_pos p) as Hread.
    pose proof (DecimalPos.Unsigned.to_uint_nonnil p) as Hnil.
    destruct (Pos.to_uint p) as [| d | d | d | d | d | d | d | d | d | d];
      [contradiction | ..]; exact Hread.
  - cbn [Z.to_int DecimalString.NilZero.string_of_int]. rewrite string_of_uint_pos.
    unfold read_decimal. cbn [Ascii.eqb Bool.eqb].
    rewrite read_natural_pos. reflexivity.
Qed.

(** A digit character is the text of one decimal digit. *)
Lemma digit_value_char (c : ascii) (k : Z) :
  digit_value c = Some k ->
  exists f : Decimal.uint -> Decimal.uint,
    (forall d, DecimalString.NilEmpty.string_of_uint (f d)
               = String c (DecimalString.NilEmpty.string_of_uint d)) /\
    (c <> "0"%char -> forall d, Decimal.unorm (f d) = f d).
Proof.
  destruct c as [[] [] [] [] [] [] [] []]; vm_compute; intros [= <-];
    first [ exists Decimal.D0; split; [reflexivity | congruence]
          | exists Decimal.D1; split; reflexivity
          | exists Decimal.D2; split; reflexivity
          | exists Decimal.D3; split; reflexivity
          | exists Decimal.D4; split; reflexivity
          | exists Decimal.D5; split; reflexivity
          | exists Decimal.D6; split; reflexivity
          | exists Decimal.D7; split; reflexivity
          | exists Decimal.D8; split; reflexivity
          | exists Decimal.D9; split; reflexivity ].
Qed.

Lemma read_digits_string (s : string) : forall acc v,
  read_digits acc s = Some v ->
  exists d, s = DecimalString.NilEmpty.string_of_uint d.
Proof.
  induction s as [| c s IH]; intros acc v Hread.
  - exists Decimal.Nil. reflexivity.
  - cbn [read_digits] in Hread.
    destruct (digit_value c) as [k |] eqn:Hc; [| discriminate].
    destruct (IH _ _ Hread) as [d ->].
    destruct (digit_value_char c k Hc) as (f & Hf & _).
    exists (f d). symmetry. apply Hf.
Qed.

Lemma format_int_of_uint (d : Decimal.uint) :
  Decimal.unorm d = d ->
  format_int (Z.of_N (Pos.of_uint d)) = DecimalString.NilEmpty.string_of_uint d.
Proof.
  intros Hnorm.
  pose proof (DecimalPos.Unsigned.to_of d) as Hto. rewrite Hnorm in Hto.
  unfold format_int. destruct (Pos.of_uint d) as [| p]; cbn in Hto |- *.
  - rewrite <- Hto. reflexivity.
  - rewrite Hto.
    assert (Hnil : d <> Decimal.Nil)
      by (rewrite <- Hto; apply DecimalPos.Unsigned.to_uint_nonnil).
    unfold DecimalString.NilZero.string_of_uint.
    destruct d; [contradiction | reflexivity ..].
Qed.

Lemma read_natural_format (s : string) (v : Z) :
  read_natural s = Some v -> 0 <= v /\ format_int v = s.
Proof.
  destruct s as [| c s]; [discriminate |].
  unfold read_natural.
  destruct (Ascii.eqb_spec c "0") as [-> | Hc].
  - destruct (String.eqb_spec s EmptyString) as [-> | _]; [| discriminate].
    intros [= <-]. split; [lia | reflexivity].
  - intros Hread.
    pose proof Hread as Hdigits. cbn [read_digits] in Hdigits.
    destruct (digit_value c) as [k |] eqn:Hk; [| discriminate].
    destruct (read_digits_string _ _ _ Hdigits) as [d ->].
    destruct (digit_value_char c k Hk) as (f & Hf & Hnorm).
    rewrite <- Hf in Hread |- *.
    rewrite read_digits_of_uint in Hread. injection Hread as <-.
    split; [lia |]. apply format_int_of_uint, Hnorm, Hc.
Qed.

Lemma format_int_opp (v : Z) :
  0 < v -> format_int (- v) = String "-" (format_int v).
Proof.
  destruct v as [| p | p]; try lia. intros _. reflexivity.
Qed.

(** [format_int z] is the one text that reads as [z]. *)
Lemma read_decimal_iff (s : string) (z : Z) :
  read_decimal s = Some z <-> s = format_int z.
Proof.
  split; [| intros ->; apply read_decimal_format_int].
  destruct s as [| c s]; [discriminate |].
  unfold read_decimal.
  destruct (Ascii.eqb_spec c "-") as [-> | Hc].
  - destruct (read_natural s) as [v |] eqn:Hread; [| discriminate].
    destruct (Z.eqb_spec v 0); [discriminate |]. intros [= <-].
    apply read_natural_format in Hread as [Hpos <-].
    symmetry. apply format_int_opp. lia.
  - intros Hread. apply read_natural_format in Hread as [_ Heq]. symmetry. exact Heq.
Qed.

Example read_decimal_strict :
  read_decimal "13" = Some 13 /\ read_decimal "-7" = Some (-7) /\
  read_decimal "013" = None /\ read_decimal "+13" = None /\
  read_decimal "-0" = None /\ read_decimal "1 3" = None /\
  read_decimal "d" = None /\ read_decimal "-" = None.
Proof. repeat split; reflexivity. Qed.

(** X6.  The text of a [customError] is the number in decimal (its digits,
    the most significant first and no zero in front, after a "-" if it is
    negative), then " - ", then the problem, and no other text; it tells
    both fields: two errors with the same text are the same error, also
    when the problem itself contains " - ". *)
Theorem Error_text_tells_the_error (e1 e2 : customError) (text : string) :
  (Error e1 = text <->
   exists digits,
     read_decimal digits = Some (arg e1) /\
     text = String.append digits (String.append " - " (prob e1))) /\
  (Error e1 = Error e2 -> e1 = e2).
Proof.
  split.
  - unfold Error. split.
    + intros <-. exists (format_int (arg e1)).
      split; [apply read_decimal_format_int | reflexivity].
    + intros (digits & Hread & ->). apply read_decimal_iff in Hread as ->. reflexivity.
  - unfold Error. intros Heq.
    apply split_at_first_space in Heq as [Harg Hprob]; try apply format_int_no_space.
    apply format_int_inj in Harg.
    destruct e1, e2; cbn in *. congruence.
Qed.

Lemma Error_text_tells_the_error_witness :
  Error (mkCustomError 13 "just can't do it bro") = "13 - just can't do it bro" /\
  mkCustomError 13 "just can't do it bro" = mkCustomError 13 "just can't do it bro".
Proof.
  split; [reflexivity |].
  destruct (Error_text_tells_the_error
              (mkCustomError 13 "just can't do it bro")
              (mkCustomError 13 "just can't do it bro")
              "13 - just can't do it bro") as [_ Hsame].
  apply Hsame. reflexivity.
Defined.

End ErrorTextFacts.

(** ** Structs and pointers *)

Section StructFacts.
Import Structs.

Example testStructs_prints :
  testStructs ∅
  = Some [PPerson (mkPerson "Bob" 20); PPerson (mkPerson "Chuck" 13);
          PPerson (mkPerson "Alice" 0); PPointer (mkPerson "Ann" 40);
          PPointer (mkPerson "Jon" 42); PInt 20; PInt 20; PInt 99].
Proof. vm_compute. reflexivity. Qed.

Lemma NewPersonConstructor_new (n : string) (h : gmap loc person) :
  h !! fst (NewPersonConstructor n h) = None.
Proof. cbn. apply not_elem_of_dom, is_fresh. Qed.

Lemma NewPersonConstructor_keeps (n : string) (h : gmap loc person) (l : loc) (p : person) :
  h !! l = Some p -> snd (NewPersonConstructor n h) !! l = Some p.
Proof.
  intros Hl. cbn. rewrite lookup_insert_ne; [exact Hl |].
  intros Heq. pose proof (NewPersonConstructor_new n h) as Hnew. cbn in Hnew.
  rewrite Heq in Hnew. congruence.
Qed.

(** X15.  [NewPersonConstructor] returns a pointer that no person had before,
    to a person with the given name and age 42, and leaves every person
    made earlier as it was.  So two persons from two calls are apart:
    setting the age of one through its pointer changes that person's age
    and nothing about the other.  A write through a second pointer to the
    same person, as [bob2.age = 99] in [testStructs], is seen through the
    first. *)
Theorem NewPersonConstructor_persons_apart
    (n1 n2 : string) (v : Z) (h : gmap loc person) :
  let p1 := fst (NewPersonConstructor n1 h) in
  let h1 := snd (NewPersonConstructor n1 h) in
  let p2 := fst (NewPersonConstructor n2 h1) in
  let h2 := snd (NewPersonConstructor n2 h1) in
  h !! p1 = None /\
  p1 <> p2 /\
  h2 !! p1 = Some (mkPerson n1 42) /\
  h2 !! p2 = Some (mkPerson n2 42) /\
  (forall l p, h !! l = Some p -> h2 !! l = Some p) /\
  (exists h3, set_age (Some p1) v h2 = Some h3 /\
              get_age (Some p1) h3 = Some v /\
              h3 !! p2 = Some (mkPerson n2 42) /\
              h3 !! p1 = Some (mkPerson n1 v)) /\
  set_age None v h2 = None /\ get_age None h2 = None.
Proof.
  intros p1 h1 p2 h2.
  assert (H1 : h1 !! p1 = Some (mkPerson n1 42)) by apply lookup_insert_eq.
  assert (Hne : p1 <> p2).
  { intros Heq. pose proof (NewPersonConstructor_new n2 h1) as Hnew.
    fold p2 in Hnew. rewrite <- Heq in Hnew. congruence. }
  assert (H21 : h2 !! p1 = Some (mkPerson n1 42))
    by (apply NewPersonConstructor_keeps; exact H1).
  assert (H22 : h2 !! p2 = Some (mkPerson n2 42)) by apply lookup_insert_eq.
  split; [apply NewPersonConstructor_new |]. split; [exact Hne |].
  split; [exact H21 |]. split; [exact H22 |]. split; [| split; [| split; reflexivity]].
  - intros l p Hl. do 2 apply NewPersonConstructor_keeps. exact Hl.
  - exists (<[p1 := mkPerson n1 v]> h2). unfold set_age, get_age. rewrite H21. cbn.
    split; [reflexivity |]. rewrite lookup_insert_eq.
    split; [reflexivity |]. split; [| reflexivity].
    rewrite lookup_insert_ne by exact Hne. exact H22.
Qed.

End StructFacts.

(** ** [testSelect] *)

Section SelectFacts.
Import GoInt Select.

Variables sleep1 sleep2 timeout : Z.
Hypothesis timeout_nonneg : 0 <= timeout.





Lemma select_reachable_step (s s' : state) :
  reachable sleep1 sleep2 timeout s -> step sleep1 sleep2 timeout s s' ->
  reachable sleep1 sleep2 timeout s'.
Proof. unfold reachable. intros Hs Hstep. eapply rtc_r; eassumption. Qed.

Lemma select_reachable_by_schedule (sched : list action) (s : state) :
  run_schedule sleep1 sleep2 timeout sched init = Some s ->
  reachable sleep1 sleep2 timeout s.
Proof.
  unfold reachable.
  assert (Hgen : forall s0, run_schedule sleep1 sleep2 timeout sched s0 = Some s ->
            rtc (step sleep1 sleep2 timeout) s0 s).
  { induction sched as [| a sched IH]; intros s0 Hrun; cbn in Hrun.
    - injection Hrun as <-. constructor.
    - destruct (exec sleep1 sleep2 timeout a s0) as [s1 |] eqn:Hexec; [| discriminate].
      eapply rtc_l; [exists a; exact Hexec | apply IH, Hrun]. }
  apply Hgen.
Qed.










End SelectFacts.

Section SelectSource.
Import GoInt Select.


(** [testSelect] itself, when everything is on time: "received one"
    after one second, "received two" after two, and no timeout. *)
Example testSelect_on_time :
  run_schedule source_sleep1 source_sleep2 source_timeout on_time init
  = Some (mkState (2 * second) Returned Returned MExit
            [Received "one"; Received "two"]).
Proof. vm_compute. reflexivity. Qed.

(** With goroutines that sleep for six and for seven seconds the first
    round times out after five seconds; the first goroutine is served by
    the second round all the same, and the second one still sleeps when
    the body returns. *)
Example testSelect_first_round_times_out :
  run_schedule (6 * second) (7 * second) source_timeout first_round_times_out init
  = Some (mkState (6 * second) Returned (Sleeping (7 * second)) MExit
            [TimedOut; Received "one"]).
Proof. vm_compute. reflexivity. Qed.

(** In the source, while the first [select] waits for its first value,
    the clock cannot go past the end of the first sleep: the timeout of
    five seconds is out of reach. *)
Example testSelect_clock_stops_at_first_wake :
  exec source_sleep1 source_sleep2 source_timeout (Tick (5 * second))
    (mkState 0 (Sleeping (1 * second)) (Sleeping (2 * second)) (MSelect 0 0) [])
  = None.
Proof. vm_compute. reflexivity. Qed.


End SelectSource.

(** ** The end of a [range] over a channel *)

Section RangeLoopFacts.
Import Channels.

(** The loop after it has taken the values [delivered]: it stands at
    the receive with the rest queued. *)
Lemma range_over_delivered {A : Type} (zero : A) (fuel : nat) (cap : nat) (b : bool) :
  forall (delivered rest printed : list A),
  range_over (length delivered + fuel) zero (mkChannel (delivered ++ rest) cap b) printed
  = range_over fuel zero (mkChannel rest cap b) (printed ++ delivered).
Proof.
  induction delivered as [| v delivered IH]; intros rest printed.
  - cbn [length Nat.add app]. rewrite app_nil_r. reflexivity.
  - cbn [length Nat.add app range_over recv queue capacity shut].
    rewrite IH, <- app_assoc. reflexivity.
Qed.

(** A receive on a closed channel never waits, and it reports the end
    exactly when no value is left. *)
Lemma recv_closed {A : Type} (zero : A) (rest : list A) (cap : nat) :
  recv zero (mkChannel rest cap true) <> Blocked /\
  recv zero (mkChannel rest cap true) <> Panicked /\
  (forall elem more ch,
     recv zero (mkChannel rest cap true) = Done (elem, more, ch) ->
     (more = false <-> rest = [])).
Proof.
  unfold recv. cbn [queue shut capacity].
  destruct rest as [| v rest]; (split; [discriminate |]); (split; [discriminate |]);
    intros elem more ch [= <- <- <-]; split; (reflexivity || discriminate).
Qed.

(** C4.  In [showRangeWithChannels] the values sent on [queue] are the
    results and the receive of the [range] loop is what reports the end.
    With no value sent the first receive reports the end at once: the
    loop ends without a round.  In general, once the loop has taken the
    values [delivered] it stands at the receive with the [rest] queued;
    that receive never waits, and it reports the end exactly when every
    value has been delivered ([rest = []]); the loop ends after as many
    rounds as there are values, having printed them all. *)
Theorem range_loop_ends_when_all_delivered
    (cap fuel : nat) (delivered rest : list string) :
  (length (delivered ++ rest) <= cap)%nat ->
  showRangeWithChannels_with 1 cap [] true = Some (Done []) /\
  recv EmptyString (mkChannel [] cap true)
  = Done (EmptyString, false, mkChannel [] cap true) /\
  showRangeWithChannels_with (length delivered + fuel) cap (delivered ++ rest) true
  = range_over fuel EmptyString (mkChannel rest cap true) delivered /\
  recv EmptyString (mkChannel rest cap true) <> Blocked /\
  (forall elem more ch,
     recv EmptyString (mkChannel rest cap true) = Done (elem, more, ch) ->
     (more = false <-> rest = [])) /\
  (rest = [] ->
   range_over 1 EmptyString (mkChannel rest cap true) delivered = Some (Done delivered)) /\
  showRangeWithChannels_with (S (length (delivered ++ rest))) cap (delivered ++ rest) true
  = Some (Done (delivered ++ rest)).
Proof.
  intros Hfit.
  assert (Hsent : send_all (make cap) (delivered ++ rest)
                  = Done (mkChannel (delivered ++ rest) cap false)).
  { unfold make. rewrite send_all_fits by (cbn; lia). reflexivity. }
  split; [reflexivity |]. split; [reflexivity |].
  split.
  { unfold showRangeWithChannels_with. rewrite Hsent. cbn [close shut queue capacity].
    rewrite range_over_delivered. reflexivity. }
  destruct (recv_closed EmptyString rest cap) as (Hwait & _ & Hend).
  split; [exact Hwait |]. split; [exact Hend |].
  split; [intros ->; reflexivity |].
  unfold showRangeWithChannels_with. rewrite Hsent. cbn [close shut queue capacity].
  rewrite range_over_queue by lia. reflexivity.
Qed.

(** [showRangeWithChannels] itself: after "1", "2" and "3" the fourth
    receive reports the end. *)
Lemma range_loop_ends_when_all_delivered_witness :
  range_over 1 EmptyString (mkChannel [] 3 true) ["1"; "2"; "3"]
  = Some (Done ["1"; "2"; "3"]) /\
  showRangeWithChannels_with 4 3 ["1"; "2"; "3"] true = Some (Done ["1"; "2"; "3"]).
Proof.
  assert (Hfit : (length (["1"; "2"; "3"] ++ ([] : list string)) <= 3)%nat) by (cbn; lia).
  destruct (range_loop_ends_when_all_delivered 3 1 ["1"; "2"; "3"] [] Hfit)
    as (_ & _ & _ & _ & _ & Hend & Hall).
  split; [apply Hend; reflexivity | exact Hall].
Defined.

End RangeLoopFacts.

(** ** [testSelect] when the values come in time *)

Section SelectOnTime.
Import GoInt Select.

Variables sleep1 sleep2 timeout : Z.
Hypothesis sleep1_pos : 0 < sleep1.
Hypothesis sleeps_apart : sleep1 < sleep2.
Hypothesis first_in_time : sleep1 < timeout.
Hypothesis second_in_time : sleep2 < sleep1 + timeout.

Lemma on_time_invariant_init : on_time_invariant sleep1 sleep2 init.
Proof. cbn. auto. Qed.

Lemma on_time_invariant_step (s s' : state) :
  on_time_invariant sleep1 sleep2 s -> step sleep1 sleep2 timeout s s' -> on_time_invariant sleep1 sleep2 s'.
Proof.
  intros Hinv [a Hexec]. destruct s as [n a1 a2 m o].
  unfold on_time_invariant in *. cbn [mpc now g1 g2 out] in *.
  destruct a; unfold exec in Hexec; cbn [mpc now g1 g2 out] in Hexec.
  - (* a step of the body *)
    destruct m; try discriminate Hexec; injection Hexec as <-; cbn [mpc now g1 g2 out].
    + destruct Hinv as (-> & -> & -> & ->). rewrite Z.add_0_l. auto.
    + destruct Hinv as (-> & -> & -> & ->). rewrite Z.add_0_l.
      change (loop_head 0 0) with (MSelect 0 0). left.
      repeat split; trivial. left. split; [reflexivity | lia].
    + destruct Hinv as [(-> & -> & -> & -> & -> & ->) | (-> & -> & -> & -> & -> & ->)].
      * change (loop_head (int_add 0 1) sleep1) with (MSelect 1 sleep1). right.
        repeat split; trivial. left. split; [reflexivity | lia].
      * change (loop_head (int_add 1 1) sleep2) with MExit. cbn.
        repeat split; trivial. lia.
  - (* the select takes "one" *)
    destruct m; try discriminate Hexec. destruct a1; try discriminate Hexec.
    injection Hexec as <-. cbn [mpc now g1 g2 out].
    destruct Hinv as [(-> & -> & -> & -> & [[Hg _] | [_ ->]]) | (_ & _ & _ & Hg & _)];
      try discriminate Hg.
    left. repeat split; trivial.
  - (* the select takes "two" *)
    destruct m; try discriminate Hexec. destruct a2; try discriminate Hexec.
    injection Hexec as <-. cbn [mpc now g1 g2 out].
    destruct Hinv as [(_ & _ & _ & Hg & _) | (-> & -> & -> & -> & [[Hg _] | [_ ->]])];
      try discriminate Hg.
    right. repeat split; trivial.
  - (* the timer: never in time *)
    destruct m; try discriminate Hexec. unfold deadline in Hexec.
    destruct (Z.leb_spec (started + timeout) n) as [Hd |]; [| discriminate Hexec].
    exfalso.
    destruct Hinv as [(_ & -> & _ & _ & [[_ Hn] | [_ Hn]]) | (_ & -> & _ & _ & [[_ Hn] | [_ Hn]])];
      lia.
  - (* the end of the first sleep *)
    destruct a1; try discriminate Hexec. cbn [wake_up] in Hexec.
    destruct (Z.leb_spec wake n) as [Hw |]; [| discriminate Hexec].
    injection Hexec as <-. cbn [mpc now g1 g2 out].
    destruct m.
    + destruct Hinv as (_ & Hg & _). discriminate Hg.
    + destruct Hinv as (-> & [= ->] & _). lia.
    + destruct Hinv as [(-> & -> & -> & -> & [[[= ->] Hn] | [Hg _]]) | (_ & _ & _ & Hg & _)];
        try discriminate Hg.
      left. repeat split; trivial. right. split; [reflexivity | lia].
    + destruct Hinv as [(_ & _ & _ & _ & Hg & _) | (_ & _ & _ & _ & Hg & _)]; discriminate Hg.
    + destruct Hinv as (_ & _ & Hg & _). discriminate Hg.
  - (* the end of the second sleep *)
    destruct a2; try discriminate Hexec. cbn [wake_up] in Hexec.
    destruct (Z.leb_spec wake n) as [Hw |]; [| discriminate Hexec].
    injection Hexec as <-. cbn [mpc now g1 g2 out].
    destruct m.
    + destruct Hinv as (_ & _ & Hg & _). discriminate Hg.
    + destruct Hinv as (_ & _ & Hg & _). discriminate Hg.
    + destruct Hinv as [(_ & _ & _ & [= ->] & [[_ Hn] | [_ Hn]])
                       | (-> & -> & -> & -> & [[[= ->] Hn] | [Hg _]])];
        try discriminate Hg; try lia.
      right. repeat split; trivial. right. split; [reflexivity | lia].
    + destruct Hinv as [(_ & _ & Hn & _ & _ & [= ->]) | (_ & _ & _ & _ & _ & Hg)];
        [lia | discriminate Hg].
    + destruct Hinv as (_ & _ & _ & Hg). discriminate Hg.
  - (* time passes *)
    destruct (may_pass timeout (mkState n a1 a2 m o) t) eqn:Hpass; [| discriminate Hexec].
    injection Hexec as <-. cbn [mpc now g1 g2 out].
    unfold may_pass in Hpass. cbn [mpc now g1 g2] in Hpass.
    apply andb_prop in Hpass as [Hpass Hm].
    apply andb_prop in Hpass as [Hpass Hs2].
    apply andb_prop in Hpass as [Hnow Hs1]. apply Z.ltb_lt in Hnow.
    destruct m; try discriminate Hm.
    + apply andb_prop in Hm as [Hm Hr2]. apply andb_prop in Hm as [_ Hr1].
      destruct Hinv as [(-> & -> & -> & -> & [[-> Hn] | [-> _]])
                       | (-> & -> & -> & -> & [[-> Hn] | [-> _]])];
        try discriminate Hr1; try discriminate Hr2.
      * cbn [sleeps_until] in Hs1. apply Z.leb_le in Hs1.
        left. repeat split; trivial. left. split; [reflexivity | lia].
      * cbn [sleeps_until] in Hs2. apply Z.leb_le in Hs2.
        right. repeat split; trivial. left. split; [reflexivity | lia].
    + destruct Hinv as (Hn & Ho & Hg1 & Hg2). repeat split; trivial. lia.
Qed.

Lemma on_time_reachable (s : state) :
  reachable sleep1 sleep2 timeout s -> on_time_invariant sleep1 sleep2 s.
Proof.
  unfold reachable. intros Hreach.
  assert (Hgen : forall s0, rtc (step sleep1 sleep2 timeout) s0 s ->
            on_time_invariant sleep1 sleep2 s0 -> on_time_invariant sleep1 sleep2 s).
  { clear Hreach. intros s0 Hrun.
    induction Hrun as [| s0 s1 s2 Hstep _ IH]; intros Hinv; [exact Hinv |].
    eapply IH, on_time_invariant_step; eassumption. }
  apply (Hgen init Hreach), on_time_invariant_init.
Qed.

(** X16.  [testSelect] when the first goroutine sleeps less than the second
    and each value comes before the timer of its round, as with the
    sleeps of one and two seconds and the timeout of five of the source,
    sleeps and timers being on time: in no execution does a round time
    out; the lines printed so far are the first lines of "received one",
    "received two"; and when the body returns, not before the end of the
    second sleep, it has printed exactly these two and both goroutines
    have returned. *)
Theorem testSelect_never_times_out (s : state) :
  reachable sleep1 sleep2 timeout s ->
  exec sleep1 sleep2 timeout TimerFires s = None /\
  (exists rest, out s ++ rest = [Received "one"; Received "two"]) /\
  (mpc s = MExit ->
   out s = [Received "one"; Received "two"] /\ sleep2 <= now s /\
   g1 s = Returned /\ g2 s = Returned).
Proof.
  intros Hreach. pose proof (on_time_reachable s Hreach) as Hinv.
  split; [| split].
  - destruct (exec sleep1 sleep2 timeout TimerFires s) as [s' |] eqn:Hexec; [| reflexivity].
    exfalso.
    assert (Hstep : step sleep1 sleep2 timeout s s') by (exists TimerFires; exact Hexec).
    pose proof (on_time_invariant_step s s' Hinv Hstep) as Hinv'.
    unfold exec in Hexec. destruct (mpc s); try discriminate Hexec.
    destruct (deadline timeout started <=? now s); [| discriminate Hexec].
    injection Hexec as <-. unfold on_time_invariant in Hinv'. cbn [mpc] in Hinv'.
    destruct Hinv' as [(_ & Hl & _) | (_ & Hl & _)]; discriminate Hl.
  - unfold on_time_invariant in Hinv. destruct (mpc s).
    + destruct Hinv as (_ & _ & _ & ->). eexists. reflexivity.
    + destruct Hinv as (_ & _ & _ & ->). eexists. reflexivity.
    + destruct Hinv as [(_ & _ & -> & _) | (_ & _ & -> & _)]; eexists; reflexivity.
    + destruct Hinv as [(_ & _ & _ & -> & _) | (_ & _ & _ & -> & _)]; eexists; reflexivity.
    + destruct Hinv as (_ & -> & _). exists []. reflexivity.
  - intros Hm. unfold on_time_invariant in Hinv. rewrite Hm in Hinv. tauto.
Qed.

End SelectOnTime.

Section SelectOnTimeSource.
Import GoInt Select.

Lemma testSelect_never_times_out_witness :
  reachable source_sleep1 source_sleep2 source_timeout
    (mkState (2 * second) Returned Returned MExit [Received "one"; Received "two"]) /\
  exec source_sleep1 source_sleep2 source_timeout TimerFires
    (mkState (2 * second) Returned Returned MExit [Received "one"; Received "two"])
  = None.
Proof.
  assert (Hreach : reachable source_sleep1 source_sleep2 source_timeout
            (mkState (2 * second) Returned Returned MExit
               [Received "one"; Received "two"])).
  { apply (select_reachable_by_schedule _ _ _ on_time). vm_compute. reflexivity. }
  split; [exact Hreach |].
  assert (H1 : 0 < source_sleep1) by (vm_compute; reflexivity).
  assert (H2 : source_sleep1 < source_sleep2) by (vm_compute; reflexivity).
  assert (H3 : source_sleep1 < source_timeout) by (vm_compute; reflexivity).
  assert (H4 : source_sleep2 < source_sleep1 + source_timeout) by (vm_compute; reflexivity).
  destruct (testSelect_never_times_out source_sleep1 source_sleep2 source_timeout
              H1 H2 H3 H4 _ Hreach) as (Hnever & _).
  exact Hnever.
Defined.

End SelectOnTimeSource.
